(** * Nora: ingestion pipeline, relationship reconciler and tag writer

    A shallow embedding of the parts of the Nora music library that the
    specification talks about, and the properties proved about them.

    - [FileHandle]: [src/main/utils/withFileHandle.ts].
    - [TagWriter]: [savePendingMetadataUpdates] and
      [addMetadataToPendingQueue] of the song tag updater.
    - [Reconciler]: the link arithmetic of [manageArtistDataUpdates] and
      [manageGenreDataUpdates], and the artist, album and genre sections of
      the [updateSongId3Tags] transaction over the relational store.
    - [Ingestion]: the admission queues, [parseSong] and [tryToParseSong].
    - [Duration]: [getSongDurationFromSong] on IEEE-754 doubles.
    - [Listening]: [updateSongListeningData].
    - [PlayQueue]: [updateQueueOnSongPlay].
    - [JsText], [ArtistNames], [FolderTile]: [split], [join] and [trim] on
      UTF-16 code units, [getArtistNamesFromSong], and the name and parent
      directory that the folder tile shows.
    - [Library]: [addSongsToPlaylist] and [toggleLikeSongs].
    - [Migrations]: the local-storage migration to 4.0.0-alpha.3. *)

From Stdlib Require Import ZArith Lia List Bool Ascii.
From Stdlib Require Import Floats.SpecFloat.
From stdpp Require Import base decidable option list strings gmap.

Local Open Scope string_scope.
Local Open Scope Z_scope.
Local Open Scope list_scope.

(** ** JavaScript effects: a state and exception monad

    An [async] function that is not interleaved with another one is a
    computation over the process state that ends with a value or with a
    thrown error ([await] of a rejected promise throws). *)

Module Js.

Inductive Completion (E A : Type) : Type :=
| Normal (a : A)
| Thrown (e : E).
Arguments Normal {E A} a.
Arguments Thrown {E A} e.

Definition M (W E A : Type) : Type := W -> Completion E A * W.

#[export] Instance M_ret {W E} : MRet (M W E) :=
  fun A (a : A) w => (Normal a, w).

#[export] Instance M_bind {W E} : MBind (M W E) :=
  fun A B (k : A -> M W E B) (m : M W E A) w =>
    match m w with
    | (Normal a, w') => k a w'
    | (Thrown e, w') => (Thrown e, w')
    end.

#[export] Instance M_throw {W E} : MThrow E (M W E) :=
  fun A (e : E) w => (Thrown e, w).

(** [try { m } catch (e) { h e }] *)
Definition try_catch {W E A} (m : M W E A) (h : E -> M W E A) : M W E A :=
  fun w =>
    match m w with
    | (Normal a, w') => (Normal a, w')
    | (Thrown e, w') => h e w'
    end.

Definition modify {W E} (f : W -> W) : M W E unit := fun w => (Normal tt, f w).

Definition gets {W E A} (f : W -> A) : M W E A := fun w => (Normal (f w), w).

End Js.

(** ** The process state and its surroundings

    The tag library, the file system, the logger and the renderer are
    outside of the program. What they answer is read from an [Env]; what
    the program asks of them is recorded, in order, in the [trace]. *)

Module Host.

(** The tag fields of an audio file that the tag writer touches. *)
Record Tag := mkTag {
  tag_title : string;
  tag_performers : list string;
  tag_album : string;
  tag_genres : list string;
  tag_composers : list string;
  tag_track : Z;
  tag_year : Z;
  tag_pictures : list string;
  tag_lyrics : string
}.

(** A handle returned by [File.createFromPath]. *)
Record File := mkFile {
  file_path : string;
  file_tag : Tag
}.

Inductive LogLevel := Debug | Info | Warn | Error.

Inductive Event :=
| Logged (level : LogLevel) (message : string)
| FileSaved (path : string) (tag : Tag)
| FileDisposed (path : string)
| MessageSent (messageCode : string) (title : option string)
| DataUpdate (topic : string)
| LrcFileSaved (path : string) (title : string) (synced : bool)
| ModifiedAtUpdated (path : string) (modifiedDate : Z).

(** [type TagData] *)
Record TagData := mkTagData {
  title : option string;
  artists : option (list string);
  album : option string;
  genres : option (list string);
  composer : option string;
  trackNumber : option Z;
  year : option Z;
  artwork : option string;
  lyrics : option string
}.

(** [type PendingMetadataUpdates] *)
Record PendingMetadataUpdates := mkPending {
  songPath : string;
  tags : TagData;
  sendUpdatedData : option bool;
  isKnownSource : option bool
}.

(** What the outside answers. [createFromPath p = None], [statSync p = None]
    stand for a call that throws; [mtime] is the [stats?.mtime] read. *)
Record Env := mkEnv {
  createFromPath : string -> option Tag;
  saveThrows : string -> bool;
  disposeThrows : string -> bool;
  statSync : string -> option (option Z);
  updateSongModifiedAtByPathThrows : string -> bool;
  saveLyricsInLrcFilesForSupportedSongs : bool;
  metadataEditingSupportedExtensions : list string;
  extname : string -> string;
  parseLyrics : string -> option bool;
  getCurrentSongPath : string
}.

(** The [Map] keeps its keys in insertion order, and [set] of a key that is
    present keeps its place. *)
Record World := mkWorld {
  trace : list Event;
  pendingMetadataUpdates : list (string * PendingMetadataUpdates)
}.

Definition JsError := string.

Definition IO (A : Type) : Type := Js.M World JsError A.

Definition emit (e : Event) : IO unit :=
  Js.modify (fun w => mkWorld (trace w ++ [e]) (pendingMetadataUpdates w)).

Fixpoint map_set {V} (k : string) (v : V) (m : list (string * V)) : list (string * V) :=
  match m with
  | [] => [(k, v)]
  | (k', v') :: m' =>
      if String.eqb k' k then (k, v) :: m' else (k', v') :: map_set k v m'
  end.

Definition map_delete {V} (k : string) (m : list (string * V)) : list (string * V) :=
  List.filter (fun kv => negb (String.eqb (fst kv) k)) m.

Definition map_has {V} (k : string) (m : list (string * V)) : bool :=
  existsb (fun kv => String.eqb (fst kv) k) m.

(** Truthiness of an optional string: neither [undefined] nor [''] . *)
Definition truthy (s : option string) : bool :=
  match s with
  | Some s' => negb (String.eqb s' "")
  | None => false
  end.

Definition isDisposal (e : Event) : bool :=
  match e with
  | FileDisposed _ => true
  | _ => false
  end.

(** Number of [file.dispose()] calls in a trace. *)
Definition disposals (t : list Event) : nat := length (List.filter isDisposal t).

End Host.

(** ** [src/main/utils/withFileHandle.ts] *)

Module FileHandle.
Import Js Host.

Section WithEnv.
Context (env : Env).

(** [file.dispose()]: the call is made, then it may throw. *)
Definition dispose (file : File) : IO unit :=
  emit (FileDisposed (file_path file));;
  if disposeThrows env (file_path file) then mthrow "dispose failed" else mret tt.

(** The [finally] block: [if (file) { try { file.dispose() } catch { warn } }] *)
Definition finallyDispose (file : option File) : IO unit :=
  match file with
  | Some f =>
      try_catch (dispose f) (fun disposeError => emit (Logged Warn "Error disposing file handle"))
  | None => mret tt
  end.

(** The [try] block, together with the local [file] as it stands when the
    block is left: [file = File.createFromPath(filePath);
    const result = await callback(file); return result]. *)
Definition tryBlock {T} (filePath : string) (callback : File -> IO T)
  : World -> Completion JsError T * option File * World :=
  fun w =>
    match createFromPath env filePath with
    | None => (Thrown "file cannot be opened", None, w)
    | Some tag =>
        let file := mkFile filePath tag in
        let '(result, w') := callback file w in
        (result, Some file, w')
    end.

Definition withFileHandle {T} (filePath : string) (callback : File -> IO T) : IO T :=
  fun w =>
    let '(body, file, w1) := tryBlock filePath callback w in
    (* catch (error) { logger.error(...); throw error; } *)
    let '(outcome, w2) :=
      match body with
      | Normal result => (Normal result, w1)
      | Thrown error =>
          (emit (Logged Error "Error during file handle operation");; mthrow error) w1
      end in
    (* finally { ... } : its own errors are caught inside, the outcome stands *)
    let '(_, w3) := finallyDispose file w2 in
    (outcome, w3).

(** The synchronous version has the same three blocks; only the [await] of
    the callback's result is missing. *)
Definition withFileHandleSync {T} (filePath : string) (callback : File -> IO T) : IO T :=
  fun w =>
    let '(body, file, w1) := tryBlock filePath callback w in
    let '(outcome, w2) :=
      match body with
      | Normal result => (Normal result, w1)
      | Thrown error =>
          (emit (Logged Error "Error during file handle operation");; mthrow error) w1
      end in
    let '(_, w3) := finallyDispose file w2 in
    (outcome, w3).

(** The events that [withFileHandle] adds once the callback is over. *)
Definition closing (filePath : string) {T} (result : Completion JsError T) : list Event :=
  match result with
  | Normal _ => []
  | Thrown _ => [Logged Error "Error during file handle operation"]
  end
  ++ [FileDisposed filePath]
  ++ (if disposeThrows env filePath then [Logged Warn "Error disposing file handle"] else []).

End WithEnv.
End FileHandle.

(** ** The tag writer sync queue: [savePendingMetadataUpdates] *)

Module TagWriter.
Import Js Host FileHandle.

(** [\W]: anything but a letter, a digit or an underscore. *)
Definition isWordChar (c : Ascii.ascii) : bool :=
  let n := Z.of_nat (Ascii.nat_of_ascii c) in
  ((48 <=? n)%Z && (n <=? 57)%Z) || ((65 <=? n)%Z && (n <=? 90)%Z)
  || ((97 <=? n)%Z && (n <=? 122)%Z) || (n =? 95)%Z.

(** [s.replace(/\W/, '')]: the first non-word character is dropped. *)
Fixpoint dropFirstNonWord (s : string) : string :=
  match s with
  | EmptyString => EmptyString
  | String c s' => if isWordChar c then String c (dropFirstNonWord s') else s'
  end.

Definition includes (l : list string) (s : string) : bool :=
  existsb (String.eqb s) l.

Section WithEnv.
Context (env : Env).

(** [isMetadataUpdatesPending] *)
Definition isMetadataUpdatesPending (path : string) : IO bool :=
  Js.gets (fun w => map_has path (pendingMetadataUpdates w)).

Definition deletePending (path : string) : IO unit :=
  Js.modify (fun w => mkWorld (trace w) (map_delete path (pendingMetadataUpdates w))).

Definition setPending (data : PendingMetadataUpdates) : IO unit :=
  Js.modify (fun w => mkWorld (trace w) (map_set (songPath data) data (pendingMetadataUpdates w))).

(** The assignments of the callback: a field of the pending entry that is
    absent leaves the field of the file as it was. *)
Definition applyTags (t : TagData) (tag : Tag) : Tag :=
  let tag := if truthy (title t) then
    mkTag (default "" (title t)) (tag_performers tag) (tag_album tag) (tag_genres tag)
          (tag_composers tag) (tag_track tag) (tag_year tag) (tag_pictures tag) (tag_lyrics tag)
    else tag in
  let tag := match artists t with
    | Some a => mkTag (tag_title tag) a (tag_album tag) (tag_genres tag)
          (tag_composers tag) (tag_track tag) (tag_year tag) (tag_pictures tag) (tag_lyrics tag)
    | None => tag end in
  let tag := if truthy (album t) then
    mkTag (tag_title tag) (tag_performers tag) (default "" (album t)) (tag_genres tag)
          (tag_composers tag) (tag_track tag) (tag_year tag) (tag_pictures tag) (tag_lyrics tag)
    else tag in
  let tag := match genres t with
    | Some g => mkTag (tag_title tag) (tag_performers tag) (tag_album tag) g
          (tag_composers tag) (tag_track tag) (tag_year tag) (tag_pictures tag) (tag_lyrics tag)
    | None => tag end in
  let tag := if truthy (composer t) then
    mkTag (tag_title tag) (tag_performers tag) (tag_album tag) (tag_genres tag)
          [default "" (composer t)] (tag_track tag) (tag_year tag) (tag_pictures tag) (tag_lyrics tag)
    else tag in
  let tag := match trackNumber t with
    | Some n => mkTag (tag_title tag) (tag_performers tag) (tag_album tag) (tag_genres tag)
          (tag_composers tag) n (tag_year tag) (tag_pictures tag) (tag_lyrics tag)
    | None => tag end in
  let tag := match year t with
    | Some y => mkTag (tag_title tag) (tag_performers tag) (tag_album tag) (tag_genres tag)
          (tag_composers tag) (tag_track tag) y (tag_pictures tag) (tag_lyrics tag)
    | None => tag end in
  let tag := match artwork t with
    | Some p => mkTag (tag_title tag) (tag_performers tag) (tag_album tag) (tag_genres tag)
          (tag_composers tag) (tag_track tag) (tag_year tag) [p] (tag_lyrics tag)
    | None => tag end in
  if truthy (lyrics t) then
    mkTag (tag_title tag) (tag_performers tag) (tag_album tag) (tag_genres tag)
          (tag_composers tag) (tag_track tag) (tag_year tag) (tag_pictures tag) (default "" (lyrics t))
  else tag.

(** [file.save()] *)
Definition save (path : string) (tag : Tag) : IO unit :=
  if saveThrows env path then mthrow "save failed" else emit (FileSaved path tag).

(** The callback handed to [withFileHandle]. *)
Definition writeTags (pendingMetadata : PendingMetadataUpdates) (file : File) : IO unit :=
  save (file_path file) (applyTags (tags pendingMetadata) (file_tag file)).

(** The block [if (!isASupportedFormat || saveLyricsInLrcFilesForSupportedSongs)]. *)
Definition saveLrc (isASupportedFormat : bool) (path : string)
    (pendingMetadata : PendingMetadataUpdates) : IO unit :=
  if negb isASupportedFormat || saveLyricsInLrcFilesForSupportedSongs env then
    if truthy (lyrics (tags pendingMetadata)) then
      match parseLyrics env (default "" (lyrics (tags pendingMetadata))) with
      | Some isSynced =>
          emit (LrcFileSaved path (default "" (title (tags pendingMetadata))) isSynced)
      | None => mret tt
      end
    else mret tt
  else mret tt.

(** The first [try] of the loop body, with its [catch]. *)
Definition flush (isASupportedFormat : bool) (path : string)
    (pendingMetadata : PendingMetadataUpdates) : IO unit :=
  try_catch
    (withFileHandle env path (writeTags pendingMetadata);;
     saveLrc isASupportedFormat path pendingMetadata;;
     emit (Logged Info "Successfully saved pending metadata updates");;
     emit (MessageSent "PENDING_METADATA_UPDATES_SAVED" (title (tags pendingMetadata)));;
     emit (DataUpdate "songs/artworks");;
     emit (DataUpdate "songs/updatedSong");;
     emit (DataUpdate "artists");;
     emit (DataUpdate "albums");;
     emit (DataUpdate "genres");;
     deletePending path)
    (fun error => emit (Logged Error "Failed to save pending metadata update of a song.")).

(** [await updateSongModifiedAtByPath(songPath, new Date(modifiedDate))] *)
Definition updateSongModifiedAtByPath (path : string) (modifiedDate : Z) : IO unit :=
  if updateSongModifiedAtByPathThrows env path then mthrow "update failed"
  else emit (ModifiedAtUpdated path modifiedDate).

(** The second [try] of the loop body, with its [catch]. [Some modifiedDate]
    is the [return { modifiedDate }] that leaves the whole function. *)
Definition refreshModifiedAt (isACurrentlyPlayingSong : bool) (path : string) : IO (option Z) :=
  try_catch
    (match statSync env path with
     | None => mthrow "stat failed"
     | Some None => mret None
     | Some (Some modifiedDate) =>
         if isACurrentlyPlayingSong then mret (Some modifiedDate)
         else
           updateSongModifiedAtByPath path modifiedDate;;
           emit (DataUpdate "songs/updatedSong");;
           mret None
     end)
    (fun error =>
       emit (Logged Error "FAILED TO GET SONG STATS AFTER UPDATING THE SONG WITH NEWER METADATA.");;
       mret None).

(** The body of the loop for an entry that is not held back: the two [try]
    blocks in sequence. *)
Definition saveEntry (isACurrentlyPlayingSong isASupportedFormat : bool) (path : string)
    (pendingMetadata : PendingMetadataUpdates) : IO (option Z) :=
  flush isASupportedFormat path pendingMetadata;;
  refreshModifiedAt isACurrentlyPlayingSong path.

(** [for (const [songPath, pendingMetadata] of entries) { ... }] followed by
    [return undefined]. The body removes no key but the one it stands on, so
    the iterator visits the entries that were present when the loop began. *)
Fixpoint saveEntries (currentSongPath : string) (forceSave isASupportedFormat : bool)
    (entries : list (string * PendingMetadataUpdates)) : IO (option Z) :=
  match entries with
  | [] => mret None
  | (path, pendingMetadata) :: rest =>
      let isACurrentlyPlayingSong := String.eqb path currentSongPath in
      if forceSave || negb isACurrentlyPlayingSong then
        returned ← saveEntry isACurrentlyPlayingSong isASupportedFormat path pendingMetadata;
        match returned with
        | Some modifiedDate => mret (Some modifiedDate)
        | None => saveEntries currentSongPath forceSave isASupportedFormat rest
        end
      else saveEntries currentSongPath forceSave isASupportedFormat rest
  end.

Definition savePendingMetadataUpdates (currentSongPath : string) (forceSave : bool)
  : IO (option Z) :=
  let pathExt := dropFirstNonWord (extname env currentSongPath) in
  let isASupportedFormat := includes (metadataEditingSupportedExtensions env) pathExt in
  entries ← Js.gets pendingMetadataUpdates;
  if (length entries =? 0)%nat then
    emit (Logged Debug "No pending metadata updates found.");; mret None
  else
    emit (Logged Debug "Started saving pending metadata updates.");;
    saveEntries currentSongPath forceSave isASupportedFormat entries.

Definition addMetadataToPendingQueue (data : PendingMetadataUpdates) : IO (option Z) :=
  setPending data;;
  let currentSongPath := getCurrentSongPath env in
  let isACurrentlyPlayingSong := String.eqb (songPath data) currentSongPath in
  if negb isACurrentlyPlayingSong then savePendingMetadataUpdates currentSongPath true
  else mret None.

End WithEnv.

(** The events of a trace that tell the renderer about data. *)
Definition isMessage (e : Event) : bool :=
  match e with MessageSent _ _ => true | _ => false end.

Definition isDataUpdate (e : Event) : bool :=
  match e with DataUpdate _ => true | _ => false end.

Definition isSaveOf (path : string) (e : Event) : bool :=
  match e with FileSaved p _ => String.eqb p path | _ => false end.

(** Two edits for the examples: a library in which every file opens, saves
    and has a modification time, and in which [/music/playing.mp3] is the
    song being played. *)
Definition blankTag : Tag := mkTag "" [] "" [] [] 0 0 [] "".

Definition calmEnv : Env :=
  mkEnv (fun _ => Some blankTag) (fun _ => false) (fun _ => false)
    (fun _ => Some (Some 1700000000000)) (fun _ => false) false ["mp3"; "m4a"]
    (fun _ => ".mp3") (fun _ => None) "/music/playing.mp3".

(** The same library with files that cannot be written. *)
Definition readOnlyEnv : Env :=
  mkEnv (fun _ => Some blankTag) (fun _ => true) (fun _ => false)
    (fun _ => Some (Some 1700000000000)) (fun _ => false) false ["mp3"; "m4a"]
    (fun _ => ".mp3") (fun _ => None) "/music/playing.mp3".

Definition titleEdit (path newTitle : string) : PendingMetadataUpdates :=
  mkPending path
    (mkTagData (Some newTitle) None None None None None None None None)
    (Some false) (Some true).

Definition editOfPlaying : PendingMetadataUpdates := titleEdit "/music/playing.mp3" "Now".
Definition editOfOther : PendingMetadataUpdates := titleEdit "/music/other.mp3" "Later".

Definition emptyWorld : World := mkWorld [] [].


(** Events of the trace, by what they do to files. *)
Definition isFileSaved (e : Event) : bool :=
  match e with FileSaved _ _ => true | _ => false end.

Definition touchesFile (path : string) (e : Event) : bool :=
  match e with
  | FileSaved p _ | FileDisposed p | LrcFileSaved p _ _ | ModifiedAtUpdated p _ => String.eqb p path
  | _ => false
  end.

(** The entries of the pending map under a key. *)
Definition entriesOf (path : string) (m : list (string * PendingMetadataUpdates)) :=
  List.filter (fun kv => String.eqb (fst kv) path) m.

(** Events that touch no file but the given one, and among which every
    save is matched by a disposal. *)
Definition tidy (path : string) (added : list Event) : Prop :=
  (∀ other, String.eqb path other = false → List.filter (touchesFile other) added = []) ∧
  (length (List.filter isFileSaved added) <= disposals added)%nat.

(** Whether the write of the tags of a file fails: the file does not open,
    or its [save] throws. *)
Definition writeFails (env : Env) (path : string) : bool :=
  match createFromPath env path with
  | Some _ => saveThrows env path
  | None => true
  end.

End TagWriter.

(** ** The relationship reconciler *)

Module Reconciler.

(** *** Link arithmetic of [manageArtistDataUpdates] and [manageGenreDataUpdates]

    An entry of [prevSongData.artists] or [prevSongData.genres] is a
    reference with an id; an entry of [newSongData.artists] or
    [newSongData.genres] carries an id only when it names an entity of the
    library ([typeof artistId === 'string']). *)

Record LinkedRef := mkLinked {
  linkedId : string;
  linkedName : string
}.

Record DeclaredRef := mkDeclared {
  declaredId : option string;
  declaredName : string
}.

Definition hasStringId (d : DeclaredRef) : bool :=
  match declaredId d with Some _ => true | None => false end.

(** [a.artistId === b.artistId] for a previous link [a] and a declared entry [b]. *)
Definition sameId (a : LinkedRef) (b : DeclaredRef) : bool :=
  match declaredId b with
  | Some i => String.eqb (linkedId a) i
  | None => false
  end.

(** [newSongData.artists] and [prevSongData.artists] may not be arrays:
    [None] is whatever fails [Array.isArray]. *)
Definition artistsWithoutIds (newArtists : option (list DeclaredRef)) : list DeclaredRef :=
  match newArtists with
  | Some l => List.filter (fun artist => negb (hasStringId artist)) l
  | None => []
  end.

Definition artistsWithIds (newArtists : option (list DeclaredRef)) : list DeclaredRef :=
  match newArtists with
  | Some l => List.filter (fun artist => hasStringId artist) l
  | None => []
  end.

Definition unlinkedArtists (newArtists : option (list DeclaredRef))
    (prevArtists : option (list LinkedRef)) : list LinkedRef :=
  let withIds := artistsWithIds newArtists in
  match prevArtists with
  | Some prev =>
      if (0 <? length prev)%nat && (length withIds =? 0)%nat then prev
      else List.filter (fun a => negb (existsb (fun b => sameId a b) withIds)) prev
  | None => []
  end.

Definition linkedArtists (newArtists : option (list DeclaredRef))
    (prevArtists : option (list LinkedRef)) : list DeclaredRef :=
  let withIds := artistsWithIds newArtists in
  match prevArtists with
  | Some prev =>
      if (0 <? length withIds)%nat
      then List.filter (fun a => existsb (fun b => sameId b a) prev) withIds
      else []
  | None => []
  end.

Definition newlyLinkedArtists (newArtists : option (list DeclaredRef))
    (prevArtists : option (list LinkedRef)) : list DeclaredRef :=
  let withIds := artistsWithIds newArtists in
  match prevArtists with
  | Some prev =>
      if (0 <? length withIds)%nat
      then List.filter (fun a => negb (existsb (fun b => sameId b a) prev)) withIds
      else []
  | None => []
  end.

Definition genresWithoutIds (newGenres : option (list DeclaredRef)) : list DeclaredRef :=
  match newGenres with
  | Some l => List.filter (fun genre => negb (hasStringId genre)) l
  | None => []
  end.

Definition genresWithIds (newGenres : option (list DeclaredRef)) : list DeclaredRef :=
  match newGenres with
  | Some l => List.filter (fun genre => hasStringId genre) l
  | None => []
  end.

(** [genresWithIds.length > 0 && Array.isArray(prevSongData.genres) ? ... : []] *)
Definition unlinkedGenres (newGenres : option (list DeclaredRef))
    (prevGenres : option (list LinkedRef)) : list LinkedRef :=
  let withIds := genresWithIds newGenres in
  match prevGenres with
  | Some prev =>
      if (0 <? length withIds)%nat
      then List.filter (fun a => negb (existsb (fun b => sameId a b) withIds)) prev
      else []
  | None => []
  end.

Definition linkedGenres (newGenres : option (list DeclaredRef))
    (prevGenres : option (list LinkedRef)) : list DeclaredRef :=
  let withIds := genresWithIds newGenres in
  match prevGenres with
  | Some prev =>
      if (0 <? length withIds)%nat
      then List.filter (fun a => existsb (fun b => sameId b a) prev) withIds
      else []
  | None => []
  end.

Definition newlyLinkedGenres (newGenres : option (list DeclaredRef))
    (prevGenres : option (list LinkedRef)) : list DeclaredRef :=
  let withIds := genresWithIds newGenres in
  match prevGenres with
  | Some prev =>
      if (0 <? length withIds)%nat
      then List.filter (fun a => negb (existsb (fun b => sameId b a) prev)) withIds
      else []
  | None => []
  end.

(** What the specification asks of [unlinked]: the previous links whose id
    is absent from the declared entries that carry an id. *)
Definition absentFromWithIds (withIds : list DeclaredRef) (prev : list LinkedRef)
  : list LinkedRef :=
  List.filter (fun a => bool_decide (Some (linkedId a) ∉ map declaredId withIds)) prev.

(** *** The relational store

    Three entity tables with their join tables to songs. A row of an entity
    table is an id and a name (a title, for albums); a row of a join table
    is an entity id and a song id. *)

Inductive Kind := Artist | Album | Genre.

#[export] Instance Kind_eq_dec : EqDecision Kind.
Proof. solve_decision. Defined.

Record Table := mkTable {
  rows : list (Z * string);
  links : list (Z * Z);
  nextId : Z
}.

Record Store := mkStore {
  artistTable : Table;
  albumTable : Table;
  genreTable : Table
}.

Definition table (k : Kind) (st : Store) : Table :=
  match k with
  | Artist => artistTable st
  | Album => albumTable st
  | Genre => genreTable st
  end.

Definition setTable (k : Kind) (t : Table) (st : Store) : Store :=
  match k with
  | Artist => mkStore t (albumTable st) (genreTable st)
  | Album => mkStore (artistTable st) t (genreTable st)
  | Genre => mkStore (artistTable st) (albumTable st) t
  end.

Section Queries.

(** The case folding behind the [nameCI] column. *)
Context (foldCase : string -> string).

(** [findFirst({ where: eq(nameCI, name) })] *)
Definition getWithName (k : Kind) (name : string) (st : Store) : option (Z * string) :=
  List.find (fun r => String.eqb (foldCase (snd r)) (foldCase name)) (rows (table k st)).

(** [insert(...).values(entity).returning()], first row returned. *)
Definition create (k : Kind) (name : string) (st : Store) : (Z * string) * Store :=
  let t := table k st in
  let row := (nextId t, name) in
  (row, setTable k (mkTable (rows t ++ [row]) (links t) (nextId t + 1)) st).

(** [insert(join).values({ entityId, songId })] *)
Definition linkSongTo (k : Kind) (entityId songId : Z) (st : Store) : Store :=
  let t := table k st in
  setTable k (mkTable (rows t) (links t ++ [(entityId, songId)]) (nextId t)) st.

(** [delete(join).where(and(eq(entityId), eq(songId)))] *)
Definition unlinkSongFrom (k : Kind) (entityId songId : Z) (st : Store) : Store :=
  let t := table k st in
  setTable k
    (mkTable (rows t)
       (List.filter (fun l => negb ((fst l =? entityId) && (snd l =? songId))) (links t))
       (nextId t)) st.

(** [select({ songId }).from(join).where(eq(entityId))] *)
Definition getSongIds (k : Kind) (entityId : Z) (st : Store) : list Z :=
  map snd (List.filter (fun l => fst l =? entityId) (links (table k st))).

(** [delete(entities).where(eq(id))]; the join rows of the entity go with it
    (ON DELETE CASCADE). *)
Definition delete (k : Kind) (entityId : Z) (st : Store) : Store :=
  let t := table k st in
  setTable k
    (mkTable (List.filter (fun r => negb (fst r =? entityId)) (rows t))
       (List.filter (fun l => negb (fst l =? entityId)) (links t))
       (nextId t)) st.

(** [src/main/db/queries/artists.ts] *)
Definition getArtistWithName := getWithName Artist.
Definition createArtist := create Artist.
Definition linkSongToArtist := linkSongTo Artist.
Definition unlinkSongFromArtist := unlinkSongFrom Artist.
Definition getArtistSongIds := getSongIds Artist.
Definition deleteArtist := delete Artist.

(** The genre queries, from the second half of the same source file. *)
Definition getGenreByName := getWithName Genre.
Definition createGenre := create Genre.
Definition linkSongToGenre := linkSongTo Genre.
Definition unlinkSongFromGenre := unlinkSongFrom Genre.
Definition getGenreSongIds := getSongIds Genre.
Definition deleteGenre := delete Genre.

(** Modelled from the spec: the album queries of [db/queries/albums.ts],
    which is not among the sources. The store contract of the specification
    gives every entity kind the same operations ([create], [getByName]
    case-insensitive, [linkSongTo*], [unlinkSongFrom*], [delete*] that
    cascade-cleans the join rows, [get*SongIds]). *)
Definition getAlbumWithTitle := getWithName Album.
Definition createAlbum := create Album.
Definition linkSongToAlbum := linkSongTo Album.
Definition unlinkSongFromAlbum := unlinkSongFrom Album.
Definition getAlbumSongIds := getSongIds Album.
Definition deleteAlbum := delete Album.

(** Whether the entity has a row in its table. *)
Definition exists_ (k : Kind) (entityId : Z) (st : Store) : bool :=
  existsb (fun r => fst r =? entityId) (rows (table k st)).

(** *** The transaction of [updateSongId3Tags] *)

(** [Number(text)], as far as it matters against integer ids: [None] when
    the text does not denote an integer ([NaN] or a fraction equals no id). *)
Context (Number : string -> option Z).

(** The song as [getSongById] returned it before the transaction. *)
Record Song := mkSong {
  songId : Z;
  songArtists : option (list (Z * string));
  songAlbums : option (list (Z * string));
  songGenres : option (list (Z * string))
}.

Record DeclaredAlbum := mkDeclaredAlbum {
  albumId : option string;
  albumTitle : string
}.

(** [SongTags], the three fields the reconciler reads. *)
Record SongTags := mkSongTags {
  tagArtists : option (list DeclaredRef);
  tagAlbum : option DeclaredAlbum;
  tagGenres : option (list DeclaredRef)
}.

(** Truthiness of an optional id: neither [undefined] nor [''] . *)
Definition hasId (i : option string) : bool :=
  match i with
  | Some s => negb (String.eqb s "")
  | None => false
  end.

Definition numberOf (i : option string) : option Z :=
  match i with
  | Some s => Number s
  | None => None
  end.

Definition withoutIds (declared : list DeclaredRef) : list DeclaredRef :=
  List.filter (fun d => negb (hasId (declaredId d))) declared.

Definition withIds (declared : list DeclaredRef) : list DeclaredRef :=
  List.filter (fun d => hasId (declaredId d)) declared.

(** [Number(a.artistId) === id] *)
Definition numberIs (id : Z) (d : DeclaredRef) : bool :=
  match numberOf (declaredId d) with
  | Some n => n =? id
  | None => false
  end.

(** [currentIds.includes(Number(a.artistId))] *)
Definition includesNumber (currentIds : list Z) (d : DeclaredRef) : bool :=
  match numberOf (declaredId d) with
  | Some n => existsb (Z.eqb n) currentIds
  | None => false
  end.

Definition newlyLinkedIds (currentIds : list Z) (declared : list DeclaredRef)
  : list (option Z) :=
  map (fun d => numberOf (declaredId d))
    (List.filter (fun d => negb (includesNumber currentIds d)) (withIds declared)).

(** [currentArtistIds.filter((id) => !artistsWithIds.some((a) => Number(a.artistId) === id))] *)
Definition unlinkedIds (currentIds : list Z) (declared : list DeclaredRef) : list Z :=
  List.filter (fun id => negb (existsb (numberIs id) (withIds declared))) currentIds.

(** The loop over the entries without an id: link to the entity of that
    name when there is one, create it and link to it otherwise. *)
Fixpoint linkOrCreate (k : Kind) (song : Z) (names : list string) (st : Store) : Store :=
  match names with
  | [] => st
  | name :: rest =>
      match getWithName k name st with
      | Some existing => linkOrCreate k song rest (linkSongTo k (fst existing) song st)
      | None =>
          let '(created, st') := create k name st in
          linkOrCreate k song rest (linkSongTo k (fst created) song st')
      end
  end.

(** The loop over the newly linked ids. An id that is no number makes the
    insert fail, which aborts the transaction ([None]). *)
Fixpoint linkAll (k : Kind) (song : Z) (ids : list (option Z)) (st : Store) : option Store :=
  match ids with
  | [] => Some st
  | Some id :: rest => linkAll k song rest (linkSongTo k id song st)
  | None :: _ => None
  end.

(** The body of the loop over the unlinked ids: unlink, read the songs
    that remain and delete the entity when none does. *)
Definition unlinkAndPrune (k : Kind) (entityId song : Z) (st : Store) : Store :=
  let st' := unlinkSongFrom k entityId song st in
  let remaining := getSongIds k entityId st' in
  if (length remaining =? 0)%nat then delete k entityId st' else st'.

Fixpoint unlinkAll (k : Kind) (song : Z) (ids : list Z) (st : Store) : Store :=
  match ids with
  | [] => st
  | id :: rest => unlinkAll k song rest (unlinkAndPrune k id song st)
  end.

(** The songs that an entity keeps when [song] is unlinked from it. *)
Definition remainingSongs (k : Kind) (entityId song : Z) (st : Store) : list Z :=
  List.filter (fun s => negb (s =? song)) (getSongIds k entityId st).

(** The artists block and the genres block are the same text up to the
    names of the queries. [current] is [song.artists] or [song.genres]. *)
Definition reconcileMany (k : Kind) (song : Z) (current : option (list (Z * string)))
    (declared : option (list DeclaredRef)) (st : Store) : option Store :=
  match declared with
  | None => Some st
  | Some declared =>
      let currentIds := map fst (default [] current) in
      let st1 := linkOrCreate k song (map declaredName (withoutIds declared)) st in
      st2 ← linkAll k song (newlyLinkedIds currentIds declared) st1;
      Some (unlinkAll k song (unlinkedIds currentIds declared) st2)
  end.

Definition reconcileArtists (song : Song) (tags : SongTags) : Store -> option Store :=
  reconcileMany Artist (songId song) (songArtists song) (tagArtists tags).

Definition reconcileGenres (song : Song) (tags : SongTags) : Store -> option Store :=
  reconcileMany Genre (songId song) (songGenres song) (tagGenres tags).

(** The album block. [currentAlbum] is [song.albums?.[0]?.album]. *)
Definition reconcileAlbum (song : Song) (tags : SongTags) (st : Store) : option Store :=
  let currentAlbum := head (default [] (songAlbums song)) in
  match tagAlbum tags with
  | Some declared =>
      if hasId (albumId declared) then
        match numberOf (albumId declared) with
        | None =>
            (* [albumId] is no integer: it differs from the id of the current
               album, so the insert is reached, and the insert fails *)
            None
        | Some newId =>
            let st1 :=
              match currentAlbum with
              | Some cur =>
                  if negb (fst cur =? newId)
                  then unlinkAndPrune Album (fst cur) (songId song) st
                  else st
              | None => st
              end in
            match currentAlbum with
            | Some cur =>
                if negb (fst cur =? newId)
                then Some (linkSongTo Album newId (songId song) st1)
                else Some st1
            | None => Some (linkSongTo Album newId (songId song) st1)
            end
        end
      else
        let st1 := linkOrCreate Album (songId song) [albumTitle declared] st in
        match currentAlbum with
        | Some cur => Some (unlinkAndPrune Album (fst cur) (songId song) st1)
        | None => Some st1
        end
  | None =>
      match currentAlbum with
      | Some cur => Some (unlinkAndPrune Album (fst cur) (songId song) st)
      | None => Some st
      end
  end.

(** The three blocks in the order of the transaction; [None] is a rollback. *)
Definition reconcile (song : Song) (tags : SongTags) (st : Store) : option Store :=
  st1 ← reconcileArtists song tags st;
  st2 ← reconcileAlbum song tags st1;
  reconcileGenres song tags st2.

End Queries.

(** The join rows of the songs other than [song]. *)
Definition linksOfOthers (k : Kind) (song : Z) (st : Store) : list (Z * Z) :=
  List.filter (fun l => negb (snd l =? song)) (links (table k st)).

(** The names of a table, as the [nameCI] column holds them. *)
Definition foldedNames (foldCase : string -> string) (k : Kind) (st : Store) : list string :=
  map (fun r => foldCase (snd r)) (rows (table k st)).

(** A library of two artists for the examples. Song 10 is linked to both of
    them and song 11 to the second one; names are compared up to the case
    of ASCII letters, and the ids in use are written ["1"], ["2"], ["3"]. *)
Definition lowerAscii (c : Ascii.ascii) : Ascii.ascii :=
  let n := Ascii.nat_of_ascii c in
  if (65 <=? n)%nat && (n <=? 90)%nat then Ascii.ascii_of_nat (n + 32) else c.

Fixpoint lower (s : string) : string :=
  match s with
  | EmptyString => EmptyString
  | String c s' => String (lowerAscii c) (lower s')
  end.

Definition sampleNumber (s : string) : option Z :=
  if String.eqb s "1" then Some 1
  else if String.eqb s "2" then Some 2
  else if String.eqb s "3" then Some 3
  else None.

Definition sampleStore : Store :=
  mkStore (mkTable [(1, "Ann"); (2, "Bob")] [(1, 10); (2, 10); (2, 11)] 3)
    (mkTable [] [] 1) (mkTable [] [] 1).

Definition sampleCurrent : option (list (Z * string)) := Some [(1, "Ann"); (2, "Bob")].

End Reconciler.

(** ** The ingestion pipeline: admission queues, [parseSong], [tryToParseSong] *)

Module Ingestion.

(** Modelled from the spec: [src/main/parseSong/parseSong.ts] is not among
    the sources; only its tests are. The definitions of this module follow
    sections 4.2 (admission queues), 4.3 (parse pipeline), 4.4 (retry
    supervisor) and 5 (one cooperatively scheduled thread) of the
    specification, and the messages that the tests look for.

    An operation runs without interruption up to its next suspension point.
    The pipeline has two of them once it is admitted: the reading of the
    eligibility and of the metadata, and the persistence transaction. The
    supervisor has one more: the retry timer. Of what the pipeline emits on
    success, the song event and the message to the renderer are kept; the
    events for newly created entities and the deferred palette generation
    are not part of the state the queues and the supervisor work on. *)

Inductive Reason :=
| isSongInPathsQueue
| isSongInParseQueue
| isSongAvailable
| noMetadata.

Inductive Event :=
| Ineligible (path : string) (reason : Reason)
| Attempt (path : string) (count : nat)
| SaveSong (path : string)
| SongEvent (path : string)
| Message (messageCode : string) (data : string)
| ErrorLogged (path : string)
| RetryLogged (path : string)
| ExhaustedLogged (path : string).

Record Options := mkOptions {
  reparseToSync : bool;
  suppressMessages : bool
}.

Inductive Stage := AwaitingMetadata | AwaitingSave.

(** Who awaits the pipeline: a caller of [parseSong], or the supervisor at
    its attempt number [attempt]. *)
Inductive Owner := Direct | Supervised (attempt : nat).

Inductive Task :=
| Pipeline (path : string) (options : Options) (owner : Owner) (stage : Stage)
| RetryTimer (path : string) (options : Options) (failed : nat).

Record Config := mkConfig {
  pathsQueue : gset string;
  parseQueue : gset string;
  running : list Task
}.

(** What the outside answers at a suspension point. *)
Inductive Outcome :=
| SongExists
| NoMetadata
| Ready
| Saved (title : string)
| Failed
| TimerFired.

(** Modelled from the spec: section 4.2, [tryEnter(queue, path)]. *)
Definition tryEnter (queue : gset string) (path : string) : bool * gset string :=
  if decide (path ∈ queue) then (false, queue) else (true, queue ∪ {[path]}).

(** Modelled from the spec: section 4.2, [leave(queue, path)]. *)
Definition leave (queue : gset string) (path : string) : gset string :=
  queue ∖ {[path]}.

(** Modelled from the spec: the base name of a file path (section 4.4:
    the terminal message identifies the file by its base name), as
    [path.basename] of Node.js computes it. The separator is [/], and on
    Windows also the backslash, where a leading drive letter with its colon
    is no part of the name either. The base name is the last run of
    characters without a separator that is not empty: the separators at the
    end of the path are skipped, and a path with no such run has the empty
    base name. *)
Inductive Platform := Posix | Win32.

Definition isPathSeparator (platform : Platform) (c : Ascii.ascii) : bool :=
  match platform with
  | Posix => Ascii.eqb c "/"%char
  | Win32 => Ascii.eqb c "/"%char || Ascii.eqb c "\"%char
  end.

Definition isWindowsDeviceRoot (c : Ascii.ascii) : bool :=
  let n := Ascii.nat_of_ascii c in
  ((65 <=? n) && (n <=? 90) || (97 <=? n) && (n <=? 122))%nat.

Definition withoutDrive (platform : Platform) (path : string) : string :=
  match platform, path with
  | Win32, String drive (String colon rest) =>
      if isWindowsDeviceRoot drive && Ascii.eqb colon ":"%char then rest else path
  | _, _ => path
  end.

(** [current] is the run of characters since the last separator and [found]
    the last run before it that is not empty. *)
Fixpoint lastSegment (platform : Platform) (found current s : string) : string :=
  match s with
  | EmptyString => if String.eqb current EmptyString then found else current
  | String c s' =>
      if isPathSeparator platform c
      then lastSegment platform (if String.eqb current EmptyString then found else current)
             EmptyString s'
      else lastSegment platform found (current +:+ String c EmptyString) s'
  end.

Definition basename (platform : Platform) (path : string) : string :=
  lastSegment platform EmptyString EmptyString (withoutDrive platform path).

(** A text without separator, and a text of separators only. *)
Fixpoint noSeparator (platform : Platform) (s : string) : bool :=
  match s with
  | EmptyString => true
  | String c s' => negb (isPathSeparator platform c) && noSeparator platform s'
  end.

Fixpoint onlySeparators (platform : Platform) (s : string) : bool :=
  match s with
  | EmptyString => true
  | String c s' => isPathSeparator platform c && onlySeparators platform s'
  end.

Section WithPlatform.
Context (platform : Platform).

(** Modelled from the spec: section 4.4, steps 2 to 5. What the supervisor
    does when attempt [count] has settled: the task that stays (a timer, or
    none), the paths queue and the events. *)
Definition supervise (path : string) (options : Options) (count : nat) (succeeded : bool)
    (pathsQ : gset string) : option Task * gset string * list Event :=
  if succeeded then (None, leave pathsQ path, [])
  else if (count <? 5)%nat then (Some (RetryTimer path options count), pathsQ, [RetryLogged path])
  else (None, leave pathsQ path,
        [Message "PARSE_FAILED" (basename platform path); ExhaustedLogged path]).

(** The one who awaits the pipeline goes on when it has settled. *)
Definition settle (path : string) (options : Options) (owner : Owner) (succeeded : bool)
    (pathsQ : gset string) : option Task * gset string * list Event :=
  match owner with
  | Direct => (None, pathsQ, [])
  | Supervised count => supervise path options count succeeded pathsQ
  end.

(** Modelled from the spec: section 4.3, step 1. The admission of the
    pipeline; without a task, [parseSong] has returned already. *)
Definition enterPipeline (path : string) (options : Options) (owner : Owner)
    (parseQ : gset string) : option Task * gset string * list Event :=
  let '(admitted, parseQ') := tryEnter parseQ path in
  if admitted then (Some (Pipeline path options owner AwaitingMetadata), parseQ', [])
  else (None, parseQ, [Ineligible path isSongInParseQueue]).

(** Modelled from the spec: section 4.4, step 2: the supervisor hands the
    path to the pipeline. A pipeline that returns at once has succeeded. *)
Definition attempt (path : string) (options : Options) (count : nat)
    (pathsQ parseQ : gset string) : option Task * gset string * gset string * list Event :=
  let '(task, parseQ', events) := enterPipeline path options (Supervised count) parseQ in
  match task with
  | Some t => (Some t, pathsQ, parseQ', Attempt path count :: events)
  | None =>
      let '(next, pathsQ', events') := supervise path options count true pathsQ in
      (next, pathsQ', parseQ', Attempt path count :: events ++ events')
  end.

(** Modelled from the spec: section 4.3, steps 8 and 9. The pipeline ends:
    the error is logged when there is one, the parse queue is left, and the
    caller goes on. *)
Definition finish (path : string) (options : Options) (owner : Owner) (succeeded : bool)
    (events : list Event) (pathsQ parseQ : gset string)
  : option Task * gset string * gset string * list Event :=
  let logged := if succeeded then events else events ++ [ErrorLogged path] in
  let '(next, pathsQ', events') := settle path options owner succeeded pathsQ in
  (next, pathsQ', leave parseQ path, logged ++ events').

(** Modelled from the spec: section 4.3, step 7. *)
Definition successEvents (path : string) (options : Options) (title : string) : list Event :=
  SongEvent path ::
  (if suppressMessages options then [] else [Message "PARSE_SUCCESSFUL" title]).

(** Modelled from the spec: sections 4.3 and 4.4. A suspended task goes on
    with the answer of the outside; [None] when the answer is not one the
    task waits for. *)
Definition resumeTask (t : Task) (o : Outcome) (pathsQ parseQ : gset string)
  : option (option Task * gset string * gset string * list Event) :=
  match t, o with
  | Pipeline path options owner AwaitingMetadata, SongExists =>
      if reparseToSync options
      then Some (Some (Pipeline path options owner AwaitingSave), pathsQ, parseQ, [SaveSong path])
      else Some (finish path options owner true [Ineligible path isSongAvailable] pathsQ parseQ)
  | Pipeline path options owner AwaitingMetadata, NoMetadata =>
      Some (finish path options owner true [Ineligible path noMetadata] pathsQ parseQ)
  | Pipeline path options owner AwaitingMetadata, Ready =>
      Some (Some (Pipeline path options owner AwaitingSave), pathsQ, parseQ, [SaveSong path])
  | Pipeline path options owner AwaitingMetadata, Failed =>
      Some (finish path options owner false [] pathsQ parseQ)
  | Pipeline path options owner AwaitingSave, Saved title =>
      Some (finish path options owner true (successEvents path options title) pathsQ parseQ)
  | Pipeline path options owner AwaitingSave, Failed =>
      Some (finish path options owner false [] pathsQ parseQ)
  | RetryTimer path options failed, TimerFired =>
      Some (attempt path options (S failed) pathsQ parseQ)
  | _, _ => None
  end.

Definition place (i : nat) (next : option Task) (tasks : list Task) : list Task :=
  match next with
  | Some t => <[i := t]> tasks
  | None => delete i tasks
  end.

(** The [i]-th operation in flight goes on. *)
Definition resume (i : nat) (o : Outcome) (c : Config) : Config * list Event :=
  match running c !! i with
  | Some t =>
      match resumeTask t o (pathsQueue c) (parseQueue c) with
      | Some (next, pathsQ, parseQ, events) =>
          (mkConfig pathsQ parseQ (place i next (running c)), events)
      | None => (c, [])
      end
  | None => (c, [])
  end.

(** Modelled from the spec: section 4.3, a call of [parseSong] up to its
    first suspension point. *)
Definition parseSong (path : string) (options : Options) (c : Config) : Config * list Event :=
  let '(task, parseQ, events) := enterPipeline path options Direct (parseQueue c) in
  (mkConfig (pathsQueue c) parseQ (running c ++ option_list task), events).

(** What a call of [tryToParseSong] returns. *)
Inductive Returned := Undefined | Promise.

(** Modelled from the spec: section 4.4, a call of [tryToParseSong] up to
    its first suspension point. *)
Definition tryToParseSong (path : string) (options : Options) (c : Config)
  : Returned * Config * list Event :=
  let '(admitted, pathsQ) := tryEnter (pathsQueue c) path in
  if admitted then
    let '(task, pathsQ', parseQ, events) := attempt path options 1 pathsQ (parseQueue c) in
    (Promise, mkConfig pathsQ' parseQ (running c ++ option_list task), events)
  else (Undefined, c, [Ineligible path isSongInPathsQueue]).

(** The moves of the process: a call from outside, or an operation in
    flight that goes on. *)
Inductive Action :=
| CallParseSong (path : string) (options : Options)
| CallTryToParseSong (path : string) (options : Options)
| Resume (i : nat) (o : Outcome).

Definition step (a : Action) (c : Config) : Config * list Event :=
  match a with
  | CallParseSong path options => parseSong path options c
  | CallTryToParseSong path options =>
      let '(_, c', events) := tryToParseSong path options c in (c', events)
  | Resume i o => resume i o c
  end.

Fixpoint run (actions : list Action) (c : Config) : Config * list Event :=
  match actions with
  | [] => (c, [])
  | a :: rest =>
      let '(c', events) := step a c in
      let '(c'', events') := run rest c' in
      (c'', events ++ events')
  end.

End WithPlatform.

(** What ends a pipeline: the answer of the outside at which the pipeline
    returns or throws, with whether it has succeeded. Section 4.3: the
    pipeline returns early when the song exists already (unless it is
    parsed again to synchronise) or when the file has no metadata, it
    returns when the persistence has gone through, and it throws when the
    reading or the persistence fails. *)
Definition pipelineEnds (options : Options) (stage : Stage) (o : Outcome) : option bool :=
  match stage, o with
  | AwaitingMetadata, SongExists => if reparseToSync options then None else Some true
  | AwaitingMetadata, NoMetadata => Some true
  | AwaitingMetadata, Failed => Some false
  | AwaitingSave, Saved _ => Some true
  | AwaitingSave, Failed => Some false
  | _, _ => None
  end.

(** The process at its start. *)
Definition idle : Config := mkConfig ∅ ∅ [].

(** The paths of the pipelines in flight, and of the supervised operations
    in flight (a pipeline that a supervisor awaits, or a retry timer). *)
Definition pipelinePath (t : Task) : option string :=
  match t with
  | Pipeline path _ _ _ => Some path
  | RetryTimer _ _ _ => None
  end.

Definition supervisedPath (t : Task) : option string :=
  match t with
  | Pipeline path _ (Supervised _) _ => Some path
  | Pipeline _ _ Direct _ => None
  | RetryTimer path _ _ => Some path
  end.

Definition pipelineInFlight (path : string) (c : Config) : Prop :=
  path ∈ omap pipelinePath (running c).

Definition supervisedInFlight (path : string) (c : Config) : Prop :=
  path ∈ omap supervisedPath (running c).

(** Counters over a trace. *)
Definition isAttempt (path : string) (e : Event) : bool :=
  match e with Attempt p _ => String.eqb p path | _ => false end.

Definition isSave (path : string) (e : Event) : bool :=
  match e with SaveSong p => String.eqb p path | _ => false end.

Definition isError (path : string) (e : Event) : bool :=
  match e with ErrorLogged p => String.eqb p path | _ => false end.

Definition isParseFailed (e : Event) : bool :=
  match e with Message code _ => String.eqb code "PARSE_FAILED" | _ => false end.

Definition isInParseQueueLog (path : string) (e : Event) : bool :=
  match e with
  | Ineligible p isSongInParseQueue => String.eqb p path
  | _ => false
  end.

Definition count (f : Event -> bool) (events : list Event) : nat :=
  length (List.filter f events).

(** The answers of the outside to one attempt that fails, at the reading
    of the metadata or at the persistence, and to a row of failed attempts
    each followed by its retry timer. *)
Definition failedAttempt (atSave : bool) : list Outcome :=
  if atSave then [Ready; Failed] else [Failed].

Definition retries (failures : list bool) : list Outcome :=
  flat_map (fun atSave => failedAttempt atSave ++ [TimerFired]) failures.

(** A lone operation: the answers go to the only operation in flight. *)
Definition answer (outcomes : list Outcome) : list Action := map (Resume 0) outcomes.

(** A queue [tracks] a list of paths when the list has no path twice and
    the queue holds exactly its paths. *)
Definition tracks (queue : gset string) (paths : list string) : Prop :=
  NoDup paths ∧ ∀ p, p ∈ queue ↔ p ∈ paths.

(** The queues hold the paths of the operations in flight. *)
Definition invariant (c : Config) : Prop :=
  tracks (parseQueue c) (omap pipelinePath (running c)) ∧
  tracks (pathsQueue c) (omap supervisedPath (running c)).

Section Lone.
Context (platform : Platform) (path : string) (options : Options).

(** What a trace shows of the operations on a path: the attempts of the
    supervisor, the attempts that failed, the terminal messages. *)
Definition attempts (t : list Event) : nat := count (isAttempt path) t.
Definition failures (t : list Event) : nat := count (isError path) t.
Definition parseFailed (t : list Event) : list Event := List.filter isParseFailed t.

(** The states of a lone supervised operation, with what its trace shows. *)
Definition loneInvariant (c : Config) (t : list Event) : Prop :=
  (∃ n stage,
     running c = [Pipeline path options (Supervised n) stage] ∧
     path ∈ pathsQueue c ∧ path ∈ parseQueue c ∧
     (1 <= n <= 5)%nat ∧ attempts t = n ∧ S (failures t) = n ∧ parseFailed t = [])
  ∨ (∃ n,
     running c = [RetryTimer path options n] ∧
     path ∈ pathsQueue c ∧ (path ∉ parseQueue c) ∧
     (1 <= n < 5)%nat ∧ attempts t = n ∧ failures t = n ∧ parseFailed t = [])
  ∨ (running c = [] ∧ (path ∉ pathsQueue c) ∧ (path ∉ parseQueue c) ∧
     (attempts t <= 5)%nat ∧ (failures t < attempts t)%nat ∧ parseFailed t = [])
  ∨ (running c = [] ∧ (path ∉ pathsQueue c) ∧ (path ∉ parseQueue c) ∧
     attempts t = 5%nat ∧ failures t = 5%nat ∧
     parseFailed t = [Message "PARSE_FAILED" (basename platform path)]).

(** The supervisor has handed the path to the pipeline for the [n]-th time. *)
Definition atAttempt (c : Config) (n : nat) : Prop :=
  running c = [Pipeline path options (Supervised n) AwaitingMetadata] ∧
  path ∈ pathsQueue c ∧ path ∈ parseQueue c.

End Lone.

End Ingestion.

(** ** Duration of a song: [getSongDurationFromSong] *)

Module Duration.

(** A JavaScript number is an IEEE-754 binary64 value. *)
Definition prec : Z := 53.
Definition emax : Z := 1024.

(** The number written as an integer literal. *)
Definition ofZ (z : Z) : spec_float := binary_normalize prec emax z 0 false.

(** [x / y] *)
Definition div (x y : spec_float) : spec_float := SFdiv prec emax x y.

Inductive JsValue :=
| JsUndefined
| JsNull
| JsString (s : string)
| JsNumber (x : spec_float).

(** A number with two decimals: what [toFixed(2)] writes and [parseFloat]
    reads back. [Digits s n] is [n] hundredths, with a minus sign when [s]. *)
Inductive Fixed2 :=
| Digits (negative : bool) (hundredths : Z)
| NaN
| Infinity (negative : bool).

(** [Number.prototype.toFixed] on the exact value [m * 2^e]: the integer [n]
    for which [n / 100 - x] is as close to zero as possible, the larger one
    when there are two. (From 1e21 on, [toFixed] writes the number in
    exponent notation and [parseFloat] reads the same number back; such a
    number is a whole count of hundredths, the one computed here.) *)
Definition nearestHundredths (m : positive) (e : Z) : Z :=
  if 0 <=? e then 100 * Z.pos m * 2 ^ e
  else (2 * 100 * Z.pos m + 2 ^ (- e)) / 2 ^ (- e + 1).

Definition toFixed2 (x : spec_float) : Fixed2 :=
  match x with
  | S754_nan => NaN
  | S754_infinity s => Infinity s
  | S754_zero _ => Digits false 0
  | S754_finite s m e => Digits s (nearestHundredths m e)
  end.

(** [src/test/src/main/parseSong/parseSong-helpers.test.ts], the copy of the
    helper of [parseSong.ts]: [parseFloat(duration.toFixed(2))] for a
    number, [0] for anything else. *)
Definition getSongDurationFromSong (duration : JsValue) : Fixed2 :=
  match duration with
  | JsNumber x => toFixed2 x
  | _ => Digits false 0
  end.

(** Modelled from the spec: the call of the helper in [parseSong.ts], which
    is not among the sources. Section 4.1: milliseconds/1000, then two
    decimals; a missing or non-numeric input yields 0. *)
Definition normalizeDuration (ms : JsValue) : Fixed2 :=
  match ms with
  | JsNumber x => getSongDurationFromSong (JsNumber (div x (ofZ 1000)))
  | _ => Digits false 0
  end.

(** The words of the specification, read over exact quotients: an integer
    count of milliseconds divided by 1000 and rounded to two decimals, half
    away from zero. *)
Definition roundedHalfAwayFromZero (ms : Z) : Fixed2 :=
  if ms =? 0 then Digits false 0
  else Digits (ms <? 0) ((Z.abs ms + 5) / 10).

(** The distance of [n / 100] to [m * 2^e], scaled by [2^k] with
    [k = max 0 (- e)] so that it is an integer. *)
Definition scaledDistance (m : positive) (e : Z) (n : Z) : Z :=
  let k := Z.max 0 (- e) in
  Z.abs (n * 2 ^ k - 100 * Z.pos m * 2 ^ (e + k)).

(** The requirement of ECMAScript on the digits of [toFixed(2)]. *)
Definition closestHundredths (m : positive) (e : Z) (n : Z) : Prop :=
  ∀ j : Z,
    scaledDistance m e n <= scaledDistance m e j ∧
    (scaledDistance m e j = scaledDistance m e n → j <= n).

End Duration.

(** ** Listening data: [updateSongListeningData] *)

Module Listening.
Import Js.

(** What the function asks of the logger, of the listens queries and of
    the renderer, in order. *)
Inductive Event :=
| Logged (level : Host.LogLevel) (message : string)
| PlayEventAdded (songId : Z) (value : string)
| SkipEventAdded (songId : Z) (value : string)
| SeekEventAdded (songId : Z) (value : string)
| DataUpdate (topic : string) (songIds : list Z).

(** What the outside answers: whether an insert of the listens queries
    rejects, and [value.toString()]. *)
Record Env := mkEnv {
  addSongPlayEventThrows : Z -> bool;
  addSongSkipEventThrows : Z -> bool;
  addSongSeekEventThrows : Z -> bool;
  toString : spec_float -> string
}.

Definition IO (A : Type) : Type := Js.M (list Event) Host.JsError A.

Definition emit (e : Event) : IO unit := Js.modify (fun t => t ++ [e]).

Section WithEnv.
Context (env : Env).

Definition addSongPlayEvent (songId : Z) (value : string) : IO unit :=
  if addSongPlayEventThrows env songId then mthrow "insert failed"
  else emit (PlayEventAdded songId value).

Definition addSongSkipEvent (songId : Z) (value : string) : IO unit :=
  if addSongSkipEventThrows env songId then mthrow "insert failed"
  else emit (SkipEventAdded songId value).

Definition addSongSeekEvent (songId : Z) (value : string) : IO unit :=
  if addSongSeekEventThrows env songId then mthrow "insert failed"
  else emit (SeekEventAdded songId value).

(** The chain of [if ... else if ... else throw]. *)
Definition record (songId : Z) (dataType : string) (value : Duration.JsValue) : IO unit :=
  match value with
  | Duration.JsNumber x =>
      if String.eqb dataType "LISTEN" then addSongPlayEvent songId (toString env x)
      else if String.eqb dataType "SKIP" then addSongSkipEvent songId (toString env x)
      else if String.eqb dataType "SEEK" then addSongSeekEvent songId (toString env x)
      else
        emit (Logged Host.Error
                "Requested to update song listening data with unknown data type");;
        mthrow "Requested to update song listening data with unknown data type"
  | _ =>
      emit (Logged Host.Error
              "Requested to update song listening data with unknown data type");;
      mthrow "Requested to update song listening data with unknown data type"
  end.

Definition updateSongListeningData (songId : Z) (dataType : string)
    (value : Duration.JsValue) : IO unit :=
  Js.try_catch
    (emit (Logged Host.Debug "Requested to update listening data.");;
     record songId dataType value;;
     emit (DataUpdate
             (if String.eqb dataType "LISTEN" then "songs/listeningData/listens"
              else if String.eqb dataType "SKIP" then "songs/listeningData/skips"
              else "songs/listeningData/inNoOfPlaylists")
             [songId]))
    (fun error => emit (Logged Host.Error "Failed to update song listening data")).

End WithEnv.

Definition isRecorded (e : Event) : bool :=
  match e with
  | PlayEventAdded _ _ | SkipEventAdded _ _ | SeekEventAdded _ _ => true
  | _ => false
  end.

Definition isDataUpdate (e : Event) : bool :=
  match e with DataUpdate _ _ => true | _ => false end.

End Listening.

(** ** The playing queue: [updateQueueOnSongPlay] *)

Module PlayQueue.

(** The two fields of [Queue] that the function reads and writes; song ids
    and indices are integers, [None] is [null]. *)
Record Queue := mkQueue {
  songIds : list Z;
  currentSongIndex : option Z
}.

(** [songIds.indexOf(songId)], counted from [i]. *)
Fixpoint indexOfFrom (songId : Z) (l : list Z) (i : Z) : Z :=
  match l with
  | [] => -1
  | id :: rest => if id =? songId then i else indexOfFrom songId rest (i + 1)
  end.

Definition indexOf (songId : Z) (l : list Z) : Z := indexOfFrom songId l 0.

(** [songIds[position]]: [undefined] out of range. *)
Definition element (l : list Z) (position : Z) : option Z :=
  if position <? 0 then None else l !! Z.to_nat position.

(** [songIds.splice(position, 0, songId)]: a start below zero counts from
    the end, and the start is clamped to the array. *)
Definition spliceIn (position songId : Z) (l : list Z) : list Z :=
  let len := Z.of_nat (length l) in
  let start := if position <? 0 then Z.max (len + position) 0 else Z.min position len in
  take (Z.to_nat start) l ++ songId :: drop (Z.to_nat start) l.

(** [songIds.filter((id) => id !== songId)] *)
Definition without (songId : Z) (l : list Z) : list Z :=
  List.filter (fun id => negb (id =? songId)) l.

Definition updateQueueOnSongPlay (queue : Queue) (songId : Z) (playAsCurrentSongIndex : bool)
  : Queue :=
  if (0 <? length (songIds queue))%nat then
    if negb (indexOf songId (songIds queue) =? -1) then
      if playAsCurrentSongIndex then
        match currentSongIndex queue with
        | Some current =>
            let position := current + 1 in
            let songIds' :=
              if bool_decide (element (songIds queue) position = Some songId)
              then songIds queue
              else spliceIn position songId (without songId (songIds queue)) in
            mkQueue songIds' (Some position)
        | None => mkQueue (songIds queue) (Some (indexOf songId (songIds queue)))
        end
      else mkQueue (songIds queue) (Some (indexOf songId (songIds queue)))
    else
      mkQueue (songIds queue ++ [songId])
        (match currentSongIndex queue with
         | Some current => Some (current + 1)
         | None => Some 0
         end)
  else mkQueue (songIds queue ++ [songId]) (currentSongIndex queue).

End PlayQueue.

(** ** JavaScript strings: [split], [join] and [trim] *)

Module JsText.

(** A JavaScript string is the sequence of its UTF-16 code units. *)
Definition JsString := list Z.

(** The code units that [String.prototype.trim] strips: WhiteSpace and
    LineTerminator of ECMAScript. *)
Definition isWhiteSpace (c : Z) : bool :=
  (c =? 9) || (c =? 10) || (c =? 11) || (c =? 12) || (c =? 13) || (c =? 32)
  || (c =? 160) || (c =? 5760) || ((8192 <=? c) && (c <=? 8202))
  || (c =? 8232) || (c =? 8233) || (c =? 8239) || (c =? 8287) || (c =? 12288)
  || (c =? 65279).

(** [s.split(separator)] for a separator that matches one code unit (a
    character class, or a string of length one): the pieces between the
    separators, of which there is always at least one. *)
Fixpoint split (isSeparator : Z -> bool) (s : JsString) : list JsString :=
  match s with
  | [] => [[]]
  | c :: rest =>
      if isSeparator c then [] :: split isSeparator rest
      else
        match split isSeparator rest with
        | piece :: pieces => (c :: piece) :: pieces
        | [] => [[c]]
        end
  end.

Fixpoint trimStart (s : JsString) : JsString :=
  match s with
  | [] => []
  | c :: rest => if isWhiteSpace c then trimStart rest else s
  end.

Fixpoint trimEnd (s : JsString) : JsString :=
  match s with
  | [] => []
  | c :: rest =>
      match trimEnd rest with
      | [] => if isWhiteSpace c then [] else [c]
      | kept => c :: kept
      end
  end.

(** [s.trim()] *)
Definition trim (s : JsString) : JsString := trimEnd (trimStart s).

(** [pieces.join(separator)] *)
Fixpoint join (separator : JsString) (pieces : list JsString) : JsString :=
  match pieces with
  | [] => []
  | [piece] => piece
  | piece :: rest => piece ++ separator ++ join separator rest
  end.

End JsText.

(** ** The helpers of [parseSong]: [getArtistNamesFromSong] *)

Module ArtistNames.
Import JsText.

(** [ARTIST_SEPARATOR_REGEX = /[,&]/gm] *)
Definition isSeparator (c : Z) : bool := (c =? 44) || (c =? 38).

(** [undefined] and [''] are falsy. *)
Definition getArtistNamesFromSong (artists : option JsString) : list JsString :=
  match artists with
  | Some (c :: s) =>
      List.filter (fun a => (0 <? length a)%nat) (map trim (split isSeparator (c :: s)))
  | _ => []
  end.

(** A name as the library stores it: not empty, free of separators, and
    with no white space at either end. *)
Definition clean (name : JsString) : Prop :=
  name ≠ [] ∧
  Forall (fun c => isSeparator c = false) name ∧
  (∀ c, head name = Some c → isWhiteSpace c = false) ∧
  (∀ c, last name = Some c → isWhiteSpace c = false).

End ArtistNames.

(** ** The folder tile: [folderName] and [prevDir] of [Folder.tsx] *)

Module FolderTile.
Import JsText.

(** The backslash. *)
Definition isBackslash (c : Z) : bool := c =? 92.

(** [path.pop()] on the pieces: the last piece, and the pieces before it. *)
Definition pop (pieces : list JsString) : option JsString * list JsString :=
  (last pieces, removelast pieces).

(** The [useMemo] that computes [{ folderName, prevDir }]; [None] is
    [undefined]. *)
Definition folderNameAndPrevDir (folderPath : JsString)
  : option JsString * option JsString :=
  match folderPath with
  | [] => (None, None)
  | _ =>
      let '(popped, path) := pop (split isBackslash folderPath) in
      let name :=
        match popped with
        | Some (c :: piece) => c :: piece
        | _ => folderPath
        end in
      (Some name, Some (join [92] path))
  end.

End FolderTile.

(** ** Playlists and favorites: [addSongsToPlaylist], [toggleLikeSongs] *)

Module Library.
Import Js.

Record Playlist := mkPlaylist {
  playlistId : Z;
  playlistName : string;
  playlistSongs : list Z
}.

(** What the two functions ask of the logger, of the playlist and song
    queries and of the renderer, in order. *)
Inductive Event :=
| Logged (level : Host.LogLevel) (message : string)
| SongsLinked (songIds : list Z) (playlist : Z)
| FavoritesUpdated (songIds : list Z) (isFavorite : option bool)
| MessageSent (messageCode : string) (count : nat) (name : string)
| DataUpdate (topic : string) (songIds : list Z).

(** What the queries answer; [None] stands for a query that rejects. *)
Record Env := mkEnv {
  getPlaylistById : Z -> option (option Playlist);
  linkSongsWithPlaylistThrows : Z -> bool;
  getSongFavoriteStatuses : list Z -> option (list (Z * bool));
  updateSongFavoriteStatusesThrows : list Z -> bool
}.

Definition IO (A : Type) : Type := Js.M (list Event) Host.JsError A.

Definition emit (e : Event) : IO unit := Js.modify (fun t => t ++ [e]).

(** [db.transaction(callback)]: what the callback wrote is rolled back when
    it throws. *)
Definition transaction {A} (callback : IO A) : IO A :=
  fun t =>
    match callback t with
    | (Normal a, t') => (Normal a, t')
    | (Thrown e, _) => (Thrown e, t)
    end.

Section WithEnv.
Context (env : Env).

(** The [for] loop of [addSongsToPlaylist] over [songIds], with its two
    arrays. *)
Fixpoint sortSongIds (playlist : Playlist) (songIds addedIds existingIds : list Z)
  : list Z * list Z :=
  match songIds with
  | [] => (addedIds, existingIds)
  | songId :: rest =>
      let isSongIdInPlaylist := existsb (fun song => song =? songId) (playlistSongs playlist) in
      if negb isSongIdInPlaylist
      then sortSongIds playlist rest (addedIds ++ [songId]) existingIds
      else sortSongIds playlist rest addedIds (existingIds ++ [songId])
  end.

Definition linkSongsWithPlaylist (songIds : list Z) (playlist : Z) : IO unit :=
  if linkSongsWithPlaylistThrows env playlist then mthrow "insert failed"
  else emit (SongsLinked songIds playlist).

Definition addSongsToPlaylist (playlist : Z) (songIds : list Z) : IO unit :=
  emit (Logged Host.Debug "Requested to add songs to a playlist.");;
  match getPlaylistById env playlist with
  | None => mthrow "select failed"
  | Some (Some found) =>
      let '(addedIds, existingIds) := sortSongIds found songIds [] [] in
      linkSongsWithPlaylist addedIds (playlistId found);;
      emit (Logged Host.Debug "Successfully added songs to the playlist.");;
      emit (MessageSent "ADDED_SONGS_TO_PLAYLIST" (length addedIds) (playlistName found))
  | Some None =>
      emit (Logged Host.Error "Request failed because a playlist cannot be found.");;
      mthrow "Request failed because a playlist cannot be found."
  end.

(** [ToggleLikeSongReturnValue] *)
Record Toggled := mkToggled {
  likes : list Z;
  dislikes : list Z
}.

Definition updateSongFavoriteStatuses (songIds : list Z) (isFavorite : option bool) : IO unit :=
  if updateSongFavoriteStatusesThrows env songIds then mthrow "update failed"
  else emit (FavoritesUpdated songIds isFavorite).

(** A group of [Object.groupBy] is [undefined] when it has no member. *)
Definition toggleLikeSongs (songIds : list Z) (isLikeSong : option bool) : IO Toggled :=
  match getSongFavoriteStatuses env songIds with
  | None => mthrow "select failed"
  | Some songStatuses =>
      emit (Logged Host.Info "Requested to like/dislike song(s).");;
      let liked := List.filter (fun status => snd status) songStatuses in
      let notLiked := List.filter (fun status => negb (snd status)) songStatuses in
      result ← transaction
        (match isLikeSong with
         | Some _ =>
             dislikedSongIds ←
               (if (0 <? length liked)%nat then
                  updateSongFavoriteStatuses (map fst liked) (Some false);;
                  mret (map fst liked)
                else mret []);
             likedSongIds ←
               (if (0 <? length notLiked)%nat then
                  updateSongFavoriteStatuses (map fst notLiked) (Some true);;
                  mret (map fst notLiked)
                else mret []);
             mret (mkToggled likedSongIds dislikedSongIds)
         | None =>
             updateSongFavoriteStatuses songIds None;;
             mret (mkToggled [] [])
         end);
      emit (DataUpdate "songs/likes" (likes result ++ dislikes result));;
      mret result
  end.

End WithEnv.

Definition isFavoritesUpdated (e : Event) : bool :=
  match e with FavoritesUpdated _ _ => true | _ => false end.

Definition isDataUpdate (e : Event) : bool :=
  match e with DataUpdate _ _ => true | _ => false end.

(** The update that flips the songs of one group, if the group has any. *)
Definition flipped (group : list (Z * bool)) (isFavorite : bool) : list Event :=
  if (0 <? length group)%nat then [FavoritesUpdated (map fst group) (Some isFavorite)] else [].

Definition isLinkOrMessage (e : Event) : bool :=
  match e with
  | SongsLinked _ _ | MessageSent _ _ _ => true
  | _ => false
  end.

End Library.

(** ** Migrations of the local storage: version 4.0.0-alpha.3 *)

Module Migrations.

Section WithNumber.

(** The numbers of JavaScript and [Number(text)]. *)
Context {Num : Type} (Number : string -> Num).

(** A song id as the storage holds it: a string before the migration. *)
Inductive StoredId :=
| IdString (s : string)
| IdNumber (n : Num).

(** The two places of the storage that the migration touches:
    [storage.queue?.songIds] and [storage.playback?.currentSong?.songId]. *)
Record Storage := mkStorage {
  queueSongIds : option (list StoredId);
  currentSongId : option StoredId
}.

Definition migrateId (id : StoredId) : StoredId :=
  match id with
  | IdString s => IdNumber (Number s)
  | IdNumber _ => id
  end.

(** [storage.playback?.currentSong?.songId && typeof ... === 'string']: the
    empty string is falsy. *)
Definition migrate_4_0_0_alpha_3 (storage : Storage) : Storage :=
  mkStorage
    (match queueSongIds storage with
     | Some songIds => Some (map migrateId songIds)
     | None => None
     end)
    (match currentSongId storage with
     | Some (IdString s) =>
         if negb (String.eqb s "") then Some (IdNumber (Number s)) else Some (IdString s)
     | other => other
     end).

Definition isIdNumber (id : StoredId) : bool :=
  match id with IdNumber _ => true | IdString _ => false end.

End WithNumber.

End Migrations.

(** * Properties *)

(** Unfolds the operations of the monad down to state passing. *)
Ltac js_run :=
  repeat progress
    (unfold mbind, Js.M_bind, mret, Js.M_ret, mthrow, Js.M_throw,
       Js.try_catch, Js.modify, Js.gets, Host.emit in *;
     cbn in *).

(** ** File handles *)

Section FileHandleFacts.
Import Js Host FileHandle.
Context (env : Env).

Lemma disposals_app (t1 t2 : list Event) :
  disposals (t1 ++ t2) = (disposals t1 + disposals t2)%nat.
Proof. unfold disposals. by rewrite List.filter_app, length_app. Qed.

Lemma withFileHandle_opened {T} filePath (callback : File -> IO T) w tag :
  createFromPath env filePath = Some tag ->
  withFileHandle env filePath callback w =
    let '(result, w1) := callback (mkFile filePath tag) w in
    (result, mkWorld (trace w1 ++ closing env filePath result) (pendingMetadataUpdates w1)).
Proof.
  intros Hopen. unfold withFileHandle, tryBlock. rewrite Hopen.
  destruct (callback (mkFile filePath tag) w) as [[result|error] w1];
    unfold closing, finallyDispose, dispose; js_run;
    destruct (disposeThrows env filePath); js_run;
    by rewrite <- ?app_assoc.
Qed.

Lemma withFileHandle_not_opened {T} filePath (callback : File -> IO T) w :
  createFromPath env filePath = None ->
  withFileHandle env filePath callback w =
    (Thrown "file cannot be opened",
     mkWorld (trace w ++ [Logged Error "Error during file handle operation"])
       (pendingMetadataUpdates w)).
Proof. intros Hopen. unfold withFileHandle, tryBlock. by rewrite Hopen. Qed.

Lemma withFileHandleSync_eq {T} filePath (callback : File -> IO T) w :
  withFileHandleSync env filePath callback w = withFileHandle env filePath callback w.
Proof. reflexivity. Qed.

Lemma disposals_closing filePath {T} (result : Completion JsError T) :
  disposals (closing env filePath result) = 1%nat.
Proof.
  unfold closing. destruct result, (disposeThrows env filePath); reflexivity.
Qed.

(** C9. When [File.createFromPath] succeeds, [withFileHandle] and
    [withFileHandleSync] hand the outcome of the callback on (its value, or
    the error it threw) and call [file.dispose()] exactly once after it,
    whether the callback returned or threw. When the open fails they throw
    and call no [dispose] at all. *)
Theorem withFileHandle_disposes_exactly_once :
  ∀ (T : Type) (filePath : string) (callback : File -> IO T) (w : World),
    let handled := [withFileHandle env filePath callback w;
                    withFileHandleSync env filePath callback w] in
    match createFromPath env filePath with
    | Some tag =>
        let '(result, w1) := callback (mkFile filePath tag) w in
        Forall (fun '(outcome, w') =>
          outcome = result ∧
          disposals (trace w') = S (disposals (trace w1))) handled
    | None =>
        Forall (fun '(outcome, w') =>
          outcome = Thrown "file cannot be opened" ∧
          disposals (trace w') = disposals (trace w)) handled
    end.
Proof.
  intros T filePath callback w handled. subst handled.
  change (withFileHandleSync env filePath callback w)
    with (withFileHandle env filePath callback w).
  destruct (createFromPath env filePath) as [tag|] eqn:Hopen.
  - rewrite (withFileHandle_opened _ _ _ tag Hopen).
    destruct (callback (mkFile filePath tag) w) as [result w1].
    repeat constructor; cbn [trace];
      rewrite disposals_app, disposals_closing; lia.
  - rewrite (withFileHandle_not_opened _ _ _ Hopen).
    repeat constructor; cbn [trace]; rewrite disposals_app; cbn; lia.
Qed.

End FileHandleFacts.

(** ** The tag writer sync queue *)

Section TagWriterFacts.
Import Js Host FileHandle TagWriter.

(** C8, at a failing input. The user edits the song being played (the entry
    is held back), then another song: [addMetadataToPendingQueue] calls
    [savePendingMetadataUpdates(currentSongPath, true)] with both entries
    pending. The entry of the playing song is flushed first; its
    [return { modifiedDate }] leaves the loop, and the entry of the other
    song is neither written nor removed. *)
Theorem forced_flush_stops_at_playing_song :
  let '(_, w1) := addMetadataToPendingQueue calmEnv editOfPlaying emptyWorld in
  let '(returned, w2) := addMetadataToPendingQueue calmEnv editOfOther w1 in
  pendingMetadataUpdates w1 = [("/music/playing.mp3", editOfPlaying)] ∧
  trace w1 = [] ∧
  returned = Normal (Some 1700000000000) ∧
  pendingMetadataUpdates w2 = [("/music/other.mp3", editOfOther)] ∧
  List.filter (isSaveOf "/music/playing.mp3") (trace w2)
    = [FileSaved "/music/playing.mp3" (applyTags (tags editOfPlaying) blankTag)] ∧
  List.filter (isSaveOf "/music/other.mp3") (trace w2) = [] ∧
  disposals (trace w2) = 1%nat.
Proof. vm_compute. repeat split. Qed.

(** What the second [try] of the loop body adds to the trace. *)
Lemma refreshModifiedAt_run env isCurrent path w :
  ∃ returned added,
    refreshModifiedAt env isCurrent path w
      = (Normal returned, mkWorld (trace w ++ added) (pendingMetadataUpdates w)) ∧
    List.filter isMessage added = [] ∧
    List.filter isDataUpdate added =
      match statSync env path with
      | Some (Some _) =>
          if isCurrent || updateSongModifiedAtByPathThrows env path then []
          else [DataUpdate "songs/updatedSong"]
      | _ => []
      end.
Proof.
  unfold refreshModifiedAt, updateSongModifiedAtByPath.
  destruct (statSync env path) as [[modifiedDate|]|]; js_run.
  - destruct isCurrent; js_run.
    + exists (Some modifiedDate), []. by rewrite app_nil_r; destruct w.
    + destruct (updateSongModifiedAtByPathThrows env path); js_run.
      * by eexists _, [_].
      * eexists _, [_; _]. by rewrite <- app_assoc.
  - exists None, []. by rewrite app_nil_r; destruct w.
  - by eexists _, [_].
Qed.

(** The first [try] of the loop body never throws: its [catch] logs. *)
Lemma flush_normal env isASupportedFormat path pendingMetadata w :
  ∃ w', flush env isASupportedFormat path pendingMetadata w = (Normal tt, w').
Proof.
  unfold flush, try_catch.
  match goal with |- context [match ?m w with _ => _ end] => destruct (m w) as [[[]|error] w1] end;
    js_run; eauto.
Qed.

(** An entry that is not the one of the playing song never leaves the
    loop, whether its write succeeded or threw: the loop goes on with the
    entries that follow. *)
Lemma saveEntries_goes_on env currentSongPath forceSave isASupportedFormat
    path pendingMetadata rest w :
  String.eqb path currentSongPath = false →
  saveEntries env currentSongPath forceSave isASupportedFormat
    ((path, pendingMetadata) :: rest) w
  = saveEntries env currentSongPath forceSave isASupportedFormat rest
      (saveEntry env false isASupportedFormat path pendingMetadata w).2.
Proof.
  intros Hother. cbn [saveEntries]. rewrite Hother, orb_true_r. cbn [negb].
  unfold saveEntry. js_run.
  destruct (flush_normal env isASupportedFormat path pendingMetadata w) as [w1 ->].
  destruct (refreshModifiedAt_run env false path w1) as (returned & added & Hrun & _ & _).
  assert (returned = None) as ->.
  { revert Hrun. unfold refreshModifiedAt, updateSongModifiedAtByPath.
    destruct (statSync env path) as [[modifiedDate|]|]; js_run;
      [destruct (updateSongModifiedAtByPathThrows env path); js_run|..];
      congruence. }
  by rewrite Hrun.
Qed.

(** C10, amended. When the write of the tags throws for a path, the loop
    body for that path ends normally, leaves the pending map as it was (so
    the entry stays), sends no message to the renderer and emits none of
    the five data-update events of the success path. The step that reads
    the modification time of the file still runs: it emits one
    [songs/updatedSong] event when the file has a modification time, is not
    the song being played and the store accepts the update. *)
Theorem failed_write_keeps_entry :
  ∀ (env : Env) (isACurrentlyPlayingSong isASupportedFormat : bool) (path : string)
    (pendingMetadata : PendingMetadataUpdates) (w : World),
    (∃ error w1, withFileHandle env path (writeTags env pendingMetadata) w = (Thrown error, w1)) →
    ∃ returned added,
      saveEntry env isACurrentlyPlayingSong isASupportedFormat path pendingMetadata w
        = (Normal returned, mkWorld (trace w ++ added) (pendingMetadataUpdates w)) ∧
      List.filter isMessage added = [] ∧
      List.filter isDataUpdate added =
        match statSync env path with
        | Some (Some _) =>
            if isACurrentlyPlayingSong || updateSongModifiedAtByPathThrows env path then []
            else [DataUpdate "songs/updatedSong"]
        | _ => []
        end.
Proof.
  intros env isCurrent isSupported path pendingMetadata w (error & w1 & Hthrown).
  assert (Hflush : ∃ added,
    flush env isSupported path pendingMetadata w
      = (Normal tt, mkWorld (trace w ++ added) (pendingMetadataUpdates w)) ∧
    List.filter isMessage added = [] ∧ List.filter isDataUpdate added = []).
  { unfold flush. js_run. rewrite Hthrown. js_run.
    destruct (createFromPath env path) as [tag|] eqn:Hopen.
    - rewrite (withFileHandle_opened env _ _ _ tag Hopen) in Hthrown.
      unfold writeTags, save in Hthrown. js_run.
      destruct (saveThrows env path); js_run; [|done].
      injection Hthrown as <- <-. js_run.
      destruct (disposeThrows env path); js_run;
        eexists; rewrite <- !app_assoc; by split.
    - rewrite (withFileHandle_not_opened env _ _ _ Hopen) in Hthrown.
      injection Hthrown as <- <-. js_run.
      eexists; rewrite <- !app_assoc; by split. }
  destruct Hflush as (added1 & Hflush & Hmsg1 & Hdata1).
  destruct (refreshModifiedAt_run env isCurrent path
              (mkWorld (trace w ++ added1) (pendingMetadataUpdates w)))
    as (returned & added2 & Hrefresh & Hmsg2 & Hdata2).
  exists returned, (added1 ++ added2).
  unfold saveEntry. js_run. rewrite Hflush, Hrefresh. js_run.
  rewrite !List.filter_app, Hmsg1, Hmsg2, Hdata1, Hdata2, app_assoc.
  by repeat split.
Qed.

(** C10, a read-only file: the write throws, the entry stays and no message
    is sent, yet a data-update event is emitted for the path. *)
Lemma failed_write_still_emits_updatedSong :
  let w := mkWorld [] [("/music/other.mp3", editOfOther)] in
  let '(written, _) :=
    withFileHandle readOnlyEnv "/music/other.mp3" (writeTags readOnlyEnv editOfOther) w in
  let '(_, w') := savePendingMetadataUpdates readOnlyEnv "/music/playing.mp3" false w in
  written = Thrown "save failed" ∧
  pendingMetadataUpdates w' = [("/music/other.mp3", editOfOther)] ∧
  List.filter isMessage (trace w') = [] ∧
  List.filter isDataUpdate (trace w') = [DataUpdate "songs/updatedSong"].
Proof. vm_compute. repeat split. Qed.

(** C10, the amended statement at the read-only file. *)
Lemma failed_write_keeps_entry_witness :
  ∃ returned added,
    saveEntry readOnlyEnv false true "/music/other.mp3" editOfOther
        (mkWorld [] [("/music/other.mp3", editOfOther)])
      = (Normal returned,
         mkWorld ([] ++ added) [("/music/other.mp3", editOfOther)]) ∧
    List.filter isMessage added = [] ∧
    List.filter isDataUpdate added = [DataUpdate "songs/updatedSong"].
Proof.
  apply (failed_write_keeps_entry readOnlyEnv false true "/music/other.mp3" editOfOther
           (mkWorld [] [("/music/other.mp3", editOfOther)])).
  eexists _, _. vm_compute. reflexivity.
Defined.

End TagWriterFacts.

(** ** The tag writer sync queue: the loop as a whole *)

Section TagWriterQueueFacts.
Import Js Host FileHandle TagWriter.

Lemma mkWorld_eta w : mkWorld (trace w) (pendingMetadataUpdates w) = w.
Proof. by destruct w. Qed.


Lemma tidy_app path a b : tidy path a → tidy path b → tidy path (a ++ b).
Proof.
  intros [Ha1 Ha2] [Hb1 Hb2]. split.
  - intros other Ho. by rewrite List.filter_app, Ha1, Hb1.
  - rewrite List.filter_app, length_app, disposals_app. lia.
Qed.

Lemma tidy_nil path : tidy path [].
Proof. by split. Qed.

Lemma tidy_quiet path e :
  (∀ other, touchesFile other e = false) → isFileSaved e = false → tidy path [e].
Proof.
  intros Ht Hs. split.
  - intros other _. cbn. by rewrite Ht.
  - cbn. rewrite Hs. cbn. lia.
Qed.

Lemma tidy_saved_disposed path tag rest :
  tidy path rest → tidy path (FileSaved path tag :: FileDisposed path :: rest).
Proof.
  intros [H1 H2]. split.
  - intros other Ho. cbn. rewrite Ho. by apply H1.
  - unfold disposals in *. cbn. lia.
Qed.

Lemma tidy_own path e rest :
  touchesFile path e = true → isFileSaved e = false → tidy path rest → tidy path (e :: rest).
Proof.
  intros Ht Hs [H1 H2]. split.
  - intros other Ho. cbn.
    assert (touchesFile other e = false) as ->; [|by apply H1].
    destruct e; cbn in *; try done; apply String.eqb_eq in Ht; by subst.
  - unfold disposals in *. cbn. rewrite Hs. destruct (isDisposal e); cbn; lia.
Qed.

Lemma tidy_log path level message rest :
  tidy path rest → tidy path (Logged level message :: rest).
Proof.
  intros [H1 H2]. split; [intros other Ho; cbn; by apply H1 | done].
Qed.

Ltac tidy_solve :=
  repeat first
    [ apply tidy_nil
    | apply tidy_saved_disposed
    | apply tidy_log
    | apply tidy_own; [cbn; by rewrite ?String.eqb_refl | done |]
    | apply (tidy_app _ [_]); [apply tidy_quiet; [by intros other | done]|] ].

Lemma saveLrc_run env isSupported path pendingMetadata w :
  ∃ added,
    saveLrc env isSupported path pendingMetadata w
      = (Normal tt, mkWorld (trace w ++ added) (pendingMetadataUpdates w)) ∧
    tidy path added.
Proof.
  unfold saveLrc.
  destruct (negb isSupported || _), (truthy (lyrics (tags pendingMetadata))),
    (parseLyrics env (default "" (lyrics (tags pendingMetadata)))) as [synced|]; js_run;
    try (exists []; rewrite app_nil_r, mkWorld_eta; split; [done | tidy_solve]).
  eexists [_]. split; [done | tidy_solve].
Qed.

Lemma flush_run env isSupported path pendingMetadata w :
  ∃ added (deleted : bool),
    flush env isSupported path pendingMetadata w
      = (Normal tt,
         mkWorld (trace w ++ added)
           (if deleted then map_delete path (pendingMetadataUpdates w)
            else pendingMetadataUpdates w)) ∧
    tidy path added.
Proof.
  unfold flush. js_run.
  destruct (createFromPath env path) as [tag|] eqn:Hopen.
  - rewrite (withFileHandle_opened env _ _ _ tag Hopen).
    unfold writeTags, save, closing. js_run.
    destruct (saveThrows env path) eqn:Hsave; js_run.
    + destruct (disposeThrows env path); js_run;
        eexists _, false; rewrite <- ?app_assoc; cbn; (split; [reflexivity | tidy_solve]).
    + match goal with |- context [saveLrc _ _ _ _ ?w1] =>
        destruct (saveLrc_run env isSupported path pendingMetadata w1) as (lrc & -> & Hlrc)
      end.
      js_run.
      destruct (disposeThrows env path); js_run;
        eexists _, true; rewrite <- ?app_assoc; cbn; (split; [reflexivity |]).
      * apply tidy_saved_disposed, tidy_log, tidy_app; [done | tidy_solve].
      * apply tidy_saved_disposed, tidy_app; [done | tidy_solve].
  - rewrite (withFileHandle_not_opened env _ _ _ Hopen). js_run.
    eexists _, false; rewrite <- ?app_assoc; cbn; (split; [reflexivity | tidy_solve]).
Qed.

Lemma refreshModifiedAt_tidy env isCurrent path w :
  ∃ returned added,
    refreshModifiedAt env isCurrent path w
      = (Normal returned, mkWorld (trace w ++ added) (pendingMetadataUpdates w)) ∧
    tidy path added ∧
    (isCurrent = false → returned = None).
Proof.
  unfold refreshModifiedAt, updateSongModifiedAtByPath.
  destruct (statSync env path) as [[modifiedDate|]|]; js_run.
  - destruct isCurrent; js_run.
    + exists (Some modifiedDate), []. rewrite app_nil_r, mkWorld_eta. split_and!; [done | tidy_solve | done].
    + destruct (updateSongModifiedAtByPathThrows env path); js_run.
      * eexists _, [_]. split_and!; [done | tidy_solve | done].
      * eexists _, [_; _]. rewrite <- app_assoc. split_and!; [done | tidy_solve | done].
  - exists None, []. rewrite app_nil_r, mkWorld_eta. split_and!; [done | tidy_solve | done].
  - eexists _, [_]. split_and!; [done | tidy_solve | done].
Qed.

(** What one pass over an entry does to the process state. *)
Lemma saveEntry_run env isCurrent isSupported path pendingMetadata w :
  ∃ returned added (deleted : bool),
    saveEntry env isCurrent isSupported path pendingMetadata w
      = (Normal returned,
         mkWorld (trace w ++ added)
           (if deleted then map_delete path (pendingMetadataUpdates w)
            else pendingMetadataUpdates w)) ∧
    tidy path added ∧
    (isCurrent = false → returned = None).
Proof.
  unfold saveEntry. js_run.
  destruct (flush_run env isSupported path pendingMetadata w) as (a1 & deleted & -> & H1).
  match goal with |- context [refreshModifiedAt _ _ _ ?w1] =>
    destruct (refreshModifiedAt_tidy env isCurrent path w1) as (returned & a2 & -> & H2 & Hret)
  end.
  exists returned, (a1 ++ a2), deleted. cbn. rewrite app_assoc.
  split_and!; [done | by apply tidy_app | done].
Qed.

Lemma entriesOf_delete (path other : string) (m : list (string * PendingMetadataUpdates)) :
  String.eqb path other = false → entriesOf other (map_delete path m) = entriesOf other m.
Proof.
  intros Hne. unfold entriesOf, map_delete.
  induction m as [|[k v] m IH]; cbn; [done|].
  destruct (String.eqb_spec k path) as [->|Hk]; cbn.
  - by rewrite Hne, IH.
  - by rewrite IH.
Qed.

(** The loop: it ends normally, it only adds to the trace, every save it
    makes is matched by a disposal, and when it is not forced it leaves
    the file and the entry of the playing song alone. *)
Lemma saveEntries_run env currentSongPath forceSave isSupported entries w :
  ∃ returned added pending,
    saveEntries env currentSongPath forceSave isSupported entries w
      = (Normal returned, mkWorld (trace w ++ added) pending) ∧
    (length (List.filter isFileSaved added) <= disposals added)%nat ∧
    (forceSave = false →
       returned = None ∧
       List.filter (touchesFile currentSongPath) added = [] ∧
       entriesOf currentSongPath pending = entriesOf currentSongPath (pendingMetadataUpdates w)).
Proof.
  revert w. induction entries as [|[path pendingMetadata] rest IH]; intros w.
  - exists None, [], (pendingMetadataUpdates w). cbn. js_run.
    rewrite app_nil_r, mkWorld_eta. split_and!; [done | cbn; lia | done].
  - cbn [saveEntries].
    destruct (forceSave || negb (path =? currentSongPath)%string) eqn:Hgo.
    + js_run.
      destruct (saveEntry_run env (path =? currentSongPath)%string isSupported path pendingMetadata w)
        as (returned & a1 & deleted & -> & [Hothers Hsaves] & Hret).
      destruct returned as [modifiedDate|].
      * js_run. eexists _, a1, _. split_and!; [done | done |].
        intros ->. cbn in Hgo. apply negb_true_iff in Hgo. by specialize (Hret Hgo).
      * match goal with |- context [saveEntries _ _ _ _ _ ?w1] =>
          destruct (IH w1) as (returned & a2 & pending & -> & Hsaves2 & Hunforced)
        end.
        exists returned, (a1 ++ a2), pending. cbn [trace]. rewrite app_assoc.
        split_and!; [done | rewrite List.filter_app, length_app, disposals_app; lia |].
        intros ->. cbn in Hgo. apply negb_true_iff in Hgo.
        destruct (Hunforced eq_refl) as (-> & Htouch & Hentries).
        split_and!; [done | by rewrite List.filter_app, Htouch, Hothers |].
        rewrite Hentries. cbn. destruct deleted; [by apply entriesOf_delete | done].
    + destruct (IH w) as (returned & a2 & pending & -> & Hsaves2 & Hunforced).
      by exists returned, a2, pending.
Qed.

(** X1. Once the user settings are read, [savePendingMetadataUpdates]
    never throws, forced or not, whatever the tag library, the file system
    and the store answer: every failure of a write, of a disposal, of the
    stat or of the modification-time update is caught and logged inside the
    loop. It only adds to the trace. *)
Theorem savePendingMetadataUpdates_never_throws :
  ∀ (env : Env) (currentSongPath : string) (forceSave : bool) (w : World),
    ∃ returned added pending,
      savePendingMetadataUpdates env currentSongPath forceSave w
        = (Normal returned, mkWorld (trace w ++ added) pending).
Proof.
  intros env currentSongPath forceSave w. unfold savePendingMetadataUpdates. js_run.
  destruct (length (pendingMetadataUpdates w) =? 0)%nat; js_run.
  - by eexists _, [_], _.
  - match goal with |- context [saveEntries _ _ _ ?s ?es ?w1] =>
      destruct (saveEntries_run env currentSongPath forceSave s es w1)
        as (returned & added & pending & -> & _)
    end.
    cbn. rewrite <- app_assoc. by eexists _, _, _.
Qed.

(** X2. A call that is not forced leaves the song being played alone: it
    returns [undefined], it adds no save, no disposal, no [.lrc] file and no
    modification-time update for the path of that song, and the pending
    entry of that song is as before. *)
Theorem unforced_save_spares_playing_song :
  ∀ (env : Env) (currentSongPath : string) (w : World),
    let '(returned, w') := savePendingMetadataUpdates env currentSongPath false w in
    returned = Normal None ∧
    List.filter (touchesFile currentSongPath) (trace w')
      = List.filter (touchesFile currentSongPath) (trace w) ∧
    entriesOf currentSongPath (pendingMetadataUpdates w')
      = entriesOf currentSongPath (pendingMetadataUpdates w).
Proof.
  intros env currentSongPath w. unfold savePendingMetadataUpdates. js_run.
  destruct (length (pendingMetadataUpdates w) =? 0)%nat; js_run.
  - rewrite List.filter_app. cbn. by rewrite app_nil_r.
  - match goal with |- context [saveEntries _ _ _ ?s ?es ?w1] =>
      destruct (saveEntries_run env currentSongPath false s es w1)
        as (returned & added & pending & -> & _ & Hunforced)
    end.
    destruct (Hunforced eq_refl) as (-> & Htouch & Hentries).
    cbn in *. rewrite !List.filter_app, Htouch. cbn. by rewrite !app_nil_r.
Qed.

(** X7. No file handle is written and left open: among the events that
    one call of [savePendingMetadataUpdates] adds, there are at least as
    many [file.dispose()] calls as there are [file.save()] calls that
    went through. *)
Theorem saved_file_handles_are_disposed :
  ∀ (env : Env) (currentSongPath : string) (forceSave : bool) (w : World),
    let '(_, w') := savePendingMetadataUpdates env currentSongPath forceSave w in
    ∃ added,
      trace w' = trace w ++ added ∧
      (length (List.filter isFileSaved added) <= disposals added)%nat.
Proof.
  intros env currentSongPath forceSave w. unfold savePendingMetadataUpdates. js_run.
  destruct (length (pendingMetadataUpdates w) =? 0)%nat; js_run.
  - eexists [_]. split; [done | cbn; lia].
  - match goal with |- context [saveEntries _ _ _ ?s ?es ?w1] =>
      destruct (saveEntries_run env currentSongPath forceSave s es w1)
        as (returned & added & pending & -> & Hsaves & _)
    end.
    cbn. rewrite <- app_assoc. eexists. split; [done|]. cbn. exact Hsaves.
Qed.

Lemma map_has_delete {V} (k : string) (m : list (string * V)) :
  map_has k (map_delete k m) = false.
Proof.
  unfold map_has, map_delete. induction m as [|[k' v] m IH]; cbn; [done|].
  destruct (String.eqb_spec k' k) as [->|Hk]; cbn; [done|].
  rewrite IH. by apply String.eqb_neq in Hk as ->.
Qed.

Lemma find_map_set {V} (k : string) (v : V) (m : list (string * V)) :
  List.find (fun kv => String.eqb (fst kv) k) (map_set k v m) = Some (k, v).
Proof.
  induction m as [|[k' v'] m IH]; cbn.
  - by rewrite String.eqb_refl.
  - destruct (String.eqb_spec k' k) as [->|Hk]; cbn.
    + by rewrite String.eqb_refl.
    + by apply String.eqb_neq in Hk as ->.
Qed.

Lemma map_has_set {V} (k : string) (v : V) (m : list (string * V)) :
  map_has k (map_set k v m) = true.
Proof.
  unfold map_has. induction m as [|[k' v'] m IH]; cbn.
  - by rewrite String.eqb_refl.
  - destruct (String.eqb_spec k' k) as [->|Hk]; cbn.
    + by rewrite String.eqb_refl.
    + by rewrite IH, orb_true_r.
Qed.

(** X3. When the file of an entry opens and its [save] goes through, the
    loop body writes the tags of the entry over those of the file, disposes
    the handle once, sends the [PENDING_METADATA_UPDATES_SAVED] message once
    and removes the entry from the pending map, whether or not the disposal
    throws and whatever the stat step that follows does. ([parseLyrics] and
    [saveLyricsToLRCFile] are taken not to throw.) *)
Theorem successful_write_removes_entry :
  ∀ (env : Env) (isACurrentlyPlayingSong isASupportedFormat : bool) (path : string)
    (pendingMetadata : PendingMetadataUpdates) (w : World) (tag : Tag),
    createFromPath env path = Some tag →
    saveThrows env path = false →
    ∃ returned added,
      saveEntry env isACurrentlyPlayingSong isASupportedFormat path pendingMetadata w
        = (Normal returned,
           mkWorld (trace w ++ added) (map_delete path (pendingMetadataUpdates w))) ∧
      isMetadataUpdatesPending path
          (mkWorld (trace w ++ added) (map_delete path (pendingMetadataUpdates w))) 
        = (Normal false, mkWorld (trace w ++ added) (map_delete path (pendingMetadataUpdates w))) ∧
      List.filter isFileSaved added = [FileSaved path (applyTags (tags pendingMetadata) tag)] ∧
      disposals added = 1%nat ∧
      List.filter isMessage added
        = [MessageSent "PENDING_METADATA_UPDATES_SAVED" (title (tags pendingMetadata))].
Proof.
  intros env isCurrent isSupported path pendingMetadata w tag Hopen Hsave.
  assert (Hlrc : ∀ w1, ∃ added,
    saveLrc env isSupported path pendingMetadata w1
      = (Normal tt, mkWorld (trace w1 ++ added) (pendingMetadataUpdates w1)) ∧
    List.filter isFileSaved added = [] ∧ disposals added = 0%nat ∧
    List.filter isMessage added = []).
  { intros w1. unfold saveLrc.
    destruct (negb isSupported || _), (truthy (lyrics (tags pendingMetadata))),
      (parseLyrics env (default "" (lyrics (tags pendingMetadata)))) as [synced|]; js_run;
      try (exists []; by rewrite app_nil_r, mkWorld_eta).
    by eexists [_]. }
  assert (Hstat : ∀ w1, ∃ returned added,
    refreshModifiedAt env isCurrent path w1
      = (Normal returned, mkWorld (trace w1 ++ added) (pendingMetadataUpdates w1)) ∧
    List.filter isFileSaved added = [] ∧ disposals added = 0%nat ∧
    List.filter isMessage added = []).
  { intros w1. unfold refreshModifiedAt, updateSongModifiedAtByPath.
    destruct (statSync env path) as [[modifiedDate|]|]; js_run.
    - destruct isCurrent; js_run.
      + exists (Some modifiedDate), []. by rewrite app_nil_r, mkWorld_eta.
      + destruct (updateSongModifiedAtByPathThrows env path); js_run.
        * by eexists _, [_].
        * eexists _, [_; _]. by rewrite <- app_assoc.
    - exists None, []. by rewrite app_nil_r, mkWorld_eta.
    - by eexists _, [_]. }
  unfold saveEntry, flush. js_run.
  rewrite (withFileHandle_opened env _ _ _ tag Hopen).
  unfold writeTags, save, closing. js_run. rewrite Hsave. js_run.
  match goal with |- context [saveLrc _ _ _ _ ?w1] =>
    destruct (Hlrc w1) as (lrc & -> & Hl1 & Hl2 & Hl3)
  end.
  js_run.
  match goal with |- context [refreshModifiedAt _ _ _ ?w1] =>
    destruct (Hstat w1) as (returned & stat & -> & Hs1 & Hs2 & Hs3)
  end.
  cbn [trace pendingMetadataUpdates].
  eexists returned, _. rewrite <- !app_assoc. split; [reflexivity|].
  split.
  { unfold isMetadataUpdatesPending, gets. cbn [pendingMetadataUpdates].
    by rewrite map_has_delete. }
  unfold disposals in *.
  destruct (disposeThrows env path); cbn;
    rewrite ?List.filter_app, ?Hl1, ?Hl3; cbn;
    rewrite ?Hs1, ?Hs3, ?length_app, ?Hl2, ?Hs2; done.
Qed.

(** X3 at a file of the sample library that opens and saves. *)
Lemma successful_write_removes_entry_witness :
  ∃ returned added,
    saveEntry calmEnv false true "/music/other.mp3" editOfOther
        (mkWorld [] [("/music/other.mp3", editOfOther)])
      = (Normal returned, mkWorld ([] ++ added) (map_delete "/music/other.mp3" [("/music/other.mp3", editOfOther)])) ∧
    isMetadataUpdatesPending "/music/other.mp3"
        (mkWorld ([] ++ added) (map_delete "/music/other.mp3" [("/music/other.mp3", editOfOther)]))
      = (Normal false,
         mkWorld ([] ++ added) (map_delete "/music/other.mp3" [("/music/other.mp3", editOfOther)])) ∧
    List.filter isFileSaved added
      = [FileSaved "/music/other.mp3" (applyTags (tags editOfOther) blankTag)] ∧
    disposals added = 1%nat ∧
    List.filter isMessage added
      = [MessageSent "PENDING_METADATA_UPDATES_SAVED" (title (tags editOfOther))].
Proof.
  apply (successful_write_removes_entry calmEnv false true "/music/other.mp3" editOfOther
           (mkWorld [] [("/music/other.mp3", editOfOther)]) blankTag);
    reflexivity.
Defined.

(** X4. An edit of the song being played is held back:
    [addMetadataToPendingQueue] returns [undefined] and touches nothing
    outside of the pending map, in which the path of the song now has this
    edit as its entry (an earlier edit of the same song is replaced). *)
Theorem edit_of_playing_song_is_held_back :
  ∀ (env : Env) (data : PendingMetadataUpdates) (w : World),
    songPath data = getCurrentSongPath env →
    let '(returned, w') := addMetadataToPendingQueue env data w in
    returned = Normal None ∧
    trace w' = trace w ∧
    isMetadataUpdatesPending (songPath data) w' = (Normal true, w') ∧
    List.find (fun kv => String.eqb (fst kv) (songPath data)) (pendingMetadataUpdates w')
      = Some (songPath data, data).
Proof.
  intros env data w Hplaying. unfold addMetadataToPendingQueue, setPending, isMetadataUpdatesPending.
  js_run. rewrite <- Hplaying, String.eqb_refl. js_run.
  pose proof (map_has_set (songPath data) data (pendingMetadataUpdates w)) as Hhas.
  unfold map_has in Hhas. by rewrite Hhas, find_map_set.
Qed.

(** X4 at the first edit of the song being played. *)
Lemma edit_of_playing_song_is_held_back_witness :
  let '(returned, w') := addMetadataToPendingQueue calmEnv editOfPlaying emptyWorld in
  returned = Normal None ∧
  trace w' = trace emptyWorld ∧
  isMetadataUpdatesPending (songPath editOfPlaying) w' = (Normal true, w') ∧
  List.find (fun kv => String.eqb (fst kv) (songPath editOfPlaying)) (pendingMetadataUpdates w')
    = Some (songPath editOfPlaying, editOfPlaying).
Proof.
  apply (edit_of_playing_song_is_held_back calmEnv editOfPlaying emptyWorld). reflexivity.
Defined.

Lemma applyTags_fields (t : TagData) (tag : Tag) :
  applyTags t tag =
    mkTag (if truthy (title t) then default "" (title t) else tag_title tag)
      (match artists t with Some a => a | None => tag_performers tag end)
      (if truthy (album t) then default "" (album t) else tag_album tag)
      (match genres t with Some g => g | None => tag_genres tag end)
      (if truthy (composer t) then [default "" (composer t)] else tag_composers tag)
      (match trackNumber t with Some n => n | None => tag_track tag end)
      (match year t with Some y => y | None => tag_year tag end)
      (match artwork t with Some p => [p] | None => tag_pictures tag end)
      (if truthy (lyrics t) then default "" (lyrics t) else tag_lyrics tag).
Proof.
  destruct tag, t as [[[|c1 s1]|] [ar|] [[|c2 s2]|] [ge|] [[|c3 s3]|] [tr|] [ye|] [aw|] [[|c4 s4]|]];
    vm_compute; reflexivity.
Qed.

(** X5. Writing the same pending tags twice over a file gives the tags of
    writing them once. *)
Theorem applyTags_idempotent :
  ∀ (t : TagData) (tag : Tag), applyTags t (applyTags t tag) = applyTags t tag.
Proof.
  intros t tag. rewrite !applyTags_fields. cbn.
  f_equal; repeat case_match; reflexivity.
Qed.

(** X6. The tag writer cannot erase a text field: an edit whose title,
    album, composer and lyrics are empty strings (or absent) and that
    carries nothing else leaves every tag of the file as it was. *)
Theorem empty_strings_erase_no_tag :
  ∀ (t : TagData) (tag : Tag),
    truthy (title t) = false → truthy (album t) = false →
    truthy (composer t) = false → truthy (lyrics t) = false →
    artists t = None → genres t = None → trackNumber t = None → year t = None →
    artwork t = None →
    applyTags t tag = tag.
Proof.
  intros t tag Ht Hal Hc Hl Har Hg Htr Hy Haw. rewrite applyTags_fields.
  rewrite Ht, Hal, Hc, Hl, Har, Hg, Htr, Hy, Haw. by destruct tag.
Qed.

(** X6 at an edit made of four empty strings. *)
Lemma empty_strings_erase_no_tag_witness :
  applyTags (mkTagData (Some "") None (Some "") None (Some "") None None None (Some "")) 
    (mkTag "Title" ["Artist"] "Album" ["Genre"] ["Composer"] 1 1999 [] "la la")
  = mkTag "Title" ["Artist"] "Album" ["Genre"] ["Composer"] 1 1999 [] "la la".
Proof.
  apply (empty_strings_erase_no_tag
    (mkTagData (Some "") None (Some "") None (Some "") None None None (Some ""))); reflexivity.
Defined.
End TagWriterQueueFacts.

Section TagWriterAllFacts.
Import Js Host FileHandle TagWriter.

(** The entry goes exactly when the write went through. *)
Lemma saveEntry_pending env isCurrent isSupported path pendingMetadata w :
  pendingMetadataUpdates (saveEntry env isCurrent isSupported path pendingMetadata w).2
  = if writeFails env path then pendingMetadataUpdates w
    else map_delete path (pendingMetadataUpdates w).
Proof.
  unfold saveEntry. js_run.
  assert (Hflush : ∃ t,
    flush env isSupported path pendingMetadata w
    = (Normal tt,
       mkWorld t (if writeFails env path then pendingMetadataUpdates w
                  else map_delete path (pendingMetadataUpdates w)))).
  { unfold flush, writeFails. js_run.
    destruct (createFromPath env path) as [tag|] eqn:Hopen.
    - rewrite (withFileHandle_opened env _ _ _ tag Hopen).
      unfold writeTags, save, closing. js_run.
      destruct (saveThrows env path); js_run.
      + destruct (disposeThrows env path); js_run; by eexists.
      + match goal with |- context [saveLrc _ _ _ _ ?w1] =>
          destruct (saveLrc_run env isSupported path pendingMetadata w1) as (lrc & -> & _)
        end.
        js_run. by eexists.
    - rewrite (withFileHandle_not_opened env _ _ _ Hopen). js_run. by eexists. }
  destruct Hflush as [t ->].
  match goal with |- context [refreshModifiedAt _ _ _ ?w1] =>
    destruct (refreshModifiedAt_tidy env isCurrent path w1) as (returned & a2 & -> & _)
  end.
  done.
Qed.


Lemma filter_filter_and {A} (f g : A -> bool) (l : list A) :
  List.filter f (List.filter g l) = List.filter (fun x => g x && f x) l.
Proof.
  induction l as [|a l IH]; cbn; [done|].
  destruct (g a); cbn; [|done]. destruct (f a); by rewrite IH.
Qed.

(** What a pass over entries of other songs leaves in the pending map. *)
Lemma leftAfter_filter env (entries m : list (string * PendingMetadataUpdates)) :
  fold_left (fun m kv => if writeFails env kv.1 then m else map_delete kv.1 m) entries m
  = List.filter
      (fun kv => negb (existsb (fun e => negb (writeFails env e.1) && (kv.1 =? e.1)%string) entries))
      m.
Proof.
  revert m. induction entries as [|e entries IH]; intros m; cbn [fold_left existsb].
  - induction m as [|kv m IHm]; cbn; [done | by f_equal].
  - rewrite IH. destruct (writeFails env e.1); cbn [negb andb orb]; [done|].
    unfold map_delete. rewrite filter_filter_and. apply List.filter_ext. intros kv.
    by rewrite negb_orb.
Qed.

Lemma saveEntries_all env currentSongPath forceSave isSupported entries w :
  Forall (fun kv => String.eqb kv.1 currentSongPath = false) entries →
  ∃ t,
    saveEntries env currentSongPath forceSave isSupported entries w
    = (Normal None,
       mkWorld t
         (fold_left (fun m kv => if writeFails env kv.1 then m else map_delete kv.1 m)
            entries (pendingMetadataUpdates w))).
Proof.
  intros Hothers. revert w.
  induction Hothers as [|[path pendingMetadata] rest Hother _ IH]; intros w.
  - cbn. js_run. exists (trace w). by destruct w.
  - cbn [fst] in Hother. rewrite (saveEntries_goes_on _ _ _ _ _ _ _ _ Hother).
    destruct (IH (saveEntry env false isSupported path pendingMetadata w).2) as [t ->].
    exists t. cbn [fold_left fst]. by rewrite saveEntry_pending.
Qed.

(** X29. When the song being played has no pending entry, a call of
    [savePendingMetadataUpdates], forced or not, goes through the whole
    map and returns [undefined]: the entries that are left are exactly
    those whose write failed (the file did not open, or its [save] threw),
    in their order. ([parseLyrics] and [saveLyricsToLRCFile] are taken not
    to throw.) *)
Theorem every_entry_is_flushed_when_playing_song_has_none :
  ∀ (env : Env) (currentSongPath : string) (forceSave : bool) (w : World),
    map_has currentSongPath (pendingMetadataUpdates w) = false →
    let '(returned, w') := savePendingMetadataUpdates env currentSongPath forceSave w in
    returned = Normal None ∧
    pendingMetadataUpdates w'
      = List.filter (fun kv => writeFails env kv.1) (pendingMetadataUpdates w).
Proof.
  intros env currentSongPath forceSave w Hnone.
  unfold savePendingMetadataUpdates. js_run.
  destruct (pendingMetadataUpdates w) as [|first rest] eqn:Hpending; [done|].
  rewrite <- Hpending in *. cbn [length Nat.eqb].
  replace (length (pendingMetadataUpdates w) =? 0)%nat with false
    by by rewrite Hpending.
  js_run.
  assert (Hothers : Forall (fun kv => String.eqb kv.1 currentSongPath = false)
                      (pendingMetadataUpdates w)).
  { apply Forall_forall. intros kv Hkv. apply not_true_iff_false. intros Heq.
    apply not_true_iff_false in Hnone. apply Hnone. unfold map_has.
    apply existsb_exists. exists kv. split; [by apply list_elem_of_In | done]. }
  match goal with |- context [saveEntries _ _ _ ?s ?es ?w1] =>
    destruct (saveEntries_all env currentSongPath forceSave s es w1 Hothers) as [t ->]
  end.
  split; [done|]. cbn [pendingMetadataUpdates]. rewrite leftAfter_filter.
  apply filter_ext_in. intros kv Hkv.
  destruct (writeFails env kv.1) eqn:Hfails; cbn.
  - apply negb_true_iff, not_true_iff_false. intros Hex.
    apply existsb_exists in Hex as (e & _ & He). apply andb_true_iff in He as [He Heq].
    apply String.eqb_eq in Heq. rewrite Heq in Hfails. by rewrite Hfails in He.
  - apply negb_false_iff, existsb_exists. exists kv.
    split; [done|]. by rewrite Hfails, String.eqb_refl.
Qed.

(** X29 at one pending edit of a song that is not being played. *)
Lemma every_entry_is_flushed_when_playing_song_has_none_witness :
  let w := mkWorld [] [("/music/other.mp3", editOfOther)] in
  let '(returned, w') := savePendingMetadataUpdates calmEnv "/music/playing.mp3" false w in
  returned = Normal None ∧
  pendingMetadataUpdates w'
    = List.filter (fun kv => writeFails calmEnv kv.1) (pendingMetadataUpdates w).
Proof.
  intros w.
  apply (every_entry_is_flushed_when_playing_song_has_none calmEnv "/music/playing.mp3" false w).
  reflexivity.
Defined.

End TagWriterAllFacts.

(** ** The relationship reconciler *)

Section ReconcilerFacts.
Import Reconciler.

Lemma sameId_declared (a : LinkedRef) (withIds : list DeclaredRef) :
  existsb (fun b => sameId a b) withIds = true ↔
  Some (linkedId a) ∈ map declaredId withIds.
Proof.
  induction withIds as [|b rest IH]; cbn.
  - split; [done | intros H; inversion H].
  - rewrite orb_true_iff, IH, elem_of_cons. unfold sameId.
    destruct (declaredId b) as [i|].
    + rewrite String.eqb_eq. split; (intros [H|H]; [left; congruence | by right]).
    + split; (intros [H|H]; [done | by right]).
Qed.

Lemma absent_filter (withIds : list DeclaredRef) (prev : list LinkedRef) :
  List.filter (fun a => negb (existsb (fun b => sameId a b) withIds)) prev
  = absentFromWithIds withIds prev.
Proof.
  unfold absentFromWithIds. apply List.filter_ext. intros a.
  destruct (existsb _ withIds) eqn:E; cbn; symmetry.
  - apply bool_decide_eq_false. intros H. by apply H, sameId_declared.
  - apply bool_decide_eq_true. intros H. apply sameId_declared in H. congruence.
Qed.

Lemma absentFromWithIds_nil (prev : list LinkedRef) : absentFromWithIds [] prev = prev.
Proof.
  unfold absentFromWithIds. induction prev as [|a rest IH]; cbn; [done|].
  rewrite bool_decide_eq_true_2 by (intros H; inversion H).
  f_equal. exact IH.
Qed.

(** The artist reconciler computes the set that the specification asks
    for, also when no declared entry carries an id. *)
Lemma unlinkedArtists_absent newArtists (prev : list LinkedRef) :
  unlinkedArtists newArtists (Some prev) = absentFromWithIds (artistsWithIds newArtists) prev.
Proof.
  unfold unlinkedArtists. rewrite absent_filter.
  destruct (artistsWithIds newArtists) as [|b rest] eqn:E; cbn.
  - rewrite absentFromWithIds_nil. by destruct prev.
  - by rewrite andb_false_r.
Qed.

(** The genre reconciler does so only when some declared entry carries an id. *)
Lemma unlinkedGenres_absent newGenres (prev : list LinkedRef) :
  genresWithIds newGenres ≠ [] →
  unlinkedGenres newGenres (Some prev) = absentFromWithIds (genresWithIds newGenres) prev.
Proof.
  intros Hne. unfold unlinkedGenres. rewrite absent_filter.
  by destruct (genresWithIds newGenres).
Qed.

(** [manageGenreDataUpdates], which nothing calls, differs from
    [manageArtistDataUpdates] when no declared genre carries an id: on a
    song linked to the genre [g1] and tags that declare the genre [Jazz]
    without an id, it computes an empty [unlinkedGenres], where the artist
    function on the same data unlinks the previous link. *)
Lemma unlinkedGenres_without_ids :
  let declared := Some [mkDeclared None "Jazz"] in
  let previous := [mkLinked "g1" "Rock"] in
  genresWithIds declared = [] ∧
  absentFromWithIds (genresWithIds declared) previous = previous ∧
  unlinkedArtists declared (Some previous) = previous ∧
  unlinkedGenres declared (Some previous) = [] ∧
  unlinkedGenres (Some []) (Some previous) = [].
Proof. vm_compute. repeat split. Qed.

Context (foldCase : string -> string) (Number : string -> option Z).

(** The transaction computes the ids to unlink as the specification asks:
    the current ids that no declared entry with an id denotes. *)
Lemma unlinkedIds_absent (currentIds : list Z) (declared : list DeclaredRef) :
  unlinkedIds Number currentIds declared
  = List.filter
      (fun id => bool_decide
         (Some id ∉ map (fun d => numberOf Number (declaredId d)) (withIds declared)))
      currentIds.
Proof.
  unfold unlinkedIds. apply List.filter_ext. intros id.
  induction (withIds declared) as [|d rest IH]; cbn.
  - symmetry. apply bool_decide_eq_true. intros H. inversion H.
  - rewrite negb_orb, IH. unfold numberIs.
    destruct (numberOf Number (declaredId d)) as [n|] eqn:E; cbn.
    + destruct (Z.eqb_spec n id) as [->|Hne]; cbn.
      * symmetry. apply bool_decide_eq_false. intros H. apply H. by left.
      * apply bool_decide_ext. rewrite not_elem_of_cons. intuition congruence.
    + apply bool_decide_ext. rewrite not_elem_of_cons. intuition congruence.
Qed.

Lemma unlinkedIds_no_ids (currentIds : list Z) (declared : list DeclaredRef) :
  withIds declared = [] → unlinkedIds Number currentIds declared = currentIds.
Proof.
  intros H. unfold unlinkedIds. rewrite H. cbn.
  induction currentIds as [|id rest IH]; cbn; [done | by rewrite IH].
Qed.

Lemma table_setTable (k k' : Kind) (t : Table) (st : Store) :
  table k' (setTable k t st) = if decide (k' = k) then t else table k' st.
Proof. by destruct k, k', st. Qed.

Ltac eqb_cases :=
  repeat match goal with
  | |- context [Z.eqb ?a ?b] => destruct (Z.eqb_spec a b); subst; cbn
  end.

Lemma songIds_after_unlink (entityId song id : Z) (l : list (Z * Z)) :
  map snd (List.filter (fun r => fst r =? id)
    (List.filter (fun r => negb ((fst r =? entityId) && (snd r =? song))) l))
  = if id =? entityId
    then List.filter (fun s => negb (s =? song)) (map snd (List.filter (fun r => fst r =? id) l))
    else map snd (List.filter (fun r => fst r =? id) l).
Proof.
  destruct (Z.eqb_spec id entityId) as [->|Hne];
    induction l as [|[e s] rest IH]; cbn; try done;
    eqb_cases; try done; try congruence; by rewrite IH.
Qed.

Lemma songIds_after_delete (entityId id : Z) (l : list (Z * Z)) :
  map snd (List.filter (fun r => fst r =? id)
    (List.filter (fun r => negb (fst r =? entityId)) l))
  = if id =? entityId then [] else map snd (List.filter (fun r => fst r =? id) l).
Proof.
  destruct (Z.eqb_spec id entityId) as [->|Hne];
    induction l as [|[e s] rest IH]; cbn; try done;
    eqb_cases; try done; try congruence; by rewrite IH.
Qed.

Lemma exists_after_delete (entityId id : Z) (l : list (Z * string)) :
  existsb (fun r => fst r =? id) (List.filter (fun r => negb (fst r =? entityId)) l)
  = if id =? entityId then false else existsb (fun r => fst r =? id) l.
Proof.
  destruct (Z.eqb_spec id entityId) as [->|Hne];
    induction l as [|[e n] rest IH]; cbn; try done;
    eqb_cases; try done; try congruence.
Qed.

(** What one step leaves of an entity: its songs but the unlinked one,
    and its row unless no song remains. *)
Lemma unlinkAndPrune_entity (k : Kind) (entityId song : Z) (st : Store) (id : Z) :
  getSongIds k id (unlinkAndPrune k entityId song st)
    = (if id =? entityId then remainingSongs k entityId song st else getSongIds k id st) ∧
  exists_ k id (unlinkAndPrune k entityId song st)
    = (if id =? entityId
       then exists_ k entityId st && negb (length (remainingSongs k entityId song st) =? 0)%nat
       else exists_ k id st).
Proof.
  set (remaining := remainingSongs k entityId song st).
  assert (Hrem : getSongIds k entityId (unlinkSongFrom k entityId song st) = remaining).
  { unfold getSongIds, unlinkSongFrom. rewrite table_setTable, decide_True by done. cbn.
    by rewrite songIds_after_unlink, Z.eqb_refl. }
  unfold unlinkAndPrune. rewrite Hrem.
  destruct (length remaining =? 0)%nat eqn:Hlen.
  - apply Nat.eqb_eq in Hlen. apply nil_length_inv in Hlen.
    unfold getSongIds, exists_, delete, unlinkSongFrom.
    rewrite !table_setTable, !decide_True by done. cbn.
    rewrite songIds_after_delete, songIds_after_unlink, exists_after_delete.
    destruct (id =? entityId) eqn:Hid; [|done].
    by rewrite Hlen, andb_false_r.
  - unfold getSongIds, exists_, unlinkSongFrom.
    rewrite !table_setTable, !decide_True by done. cbn.
    rewrite songIds_after_unlink.
    destruct (Z.eqb_spec id entityId) as [->|Hne]; [|done].
    by rewrite andb_true_r.
Qed.

Lemma unlinkAndPrune_other_kind (k k' : Kind) (entityId song : Z) (st : Store) :
  k' ≠ k → table k' (unlinkAndPrune k entityId song st) = table k' st.
Proof.
  intros Hk. unfold unlinkAndPrune.
  destruct (length _ =? 0)%nat;
    unfold delete, unlinkSongFrom; rewrite !table_setTable;
    by rewrite ?decide_False by done.
Qed.

Lemma remainingSongs_twice (l : list Z) (song : Z) :
  List.filter (fun s => negb (s =? song)) (List.filter (fun s => negb (s =? song)) l)
  = List.filter (fun s => negb (s =? song)) l.
Proof.
  induction l as [|x l IH]; cbn; [done|].
  destruct (x =? song) eqn:E; cbn; [done|]. by rewrite E, IH.
Qed.

(** The loop of the transaction over the unlinked ids: every entity in the
    list keeps its other songs and its row goes exactly when none remains;
    the entities that are not in the list are as before. *)
Lemma unlinkAll_prunes (k : Kind) (song : Z) (ids : list Z) (st : Store) (id : Z) :
  getSongIds k id (unlinkAll k song ids st)
    = (if existsb (Z.eqb id) ids then remainingSongs k id song st else getSongIds k id st) ∧
  exists_ k id (unlinkAll k song ids st)
    = (if existsb (Z.eqb id) ids
       then exists_ k id st && negb (length (remainingSongs k id song st) =? 0)%nat
       else exists_ k id st).
Proof.
  revert st. induction ids as [|e rest IH]; intros st; cbn [unlinkAll existsb]; [done|].
  destruct (IH (unlinkAndPrune k e song st)) as [Hsongs Hrow].
  destruct (unlinkAndPrune_entity k e song st id) as [Hstep Hstep'].
  rewrite Hsongs, Hrow. unfold remainingSongs in *. rewrite Hstep, Hstep'.
  destruct (Z.eqb_spec id e) as [->|Hne]; cbn [orb]; [|done].
  unfold remainingSongs. rewrite remainingSongs_twice.
  destruct (existsb (Z.eqb e) rest); [|done].
  by rewrite <- andb_assoc, andb_diag.
Qed.

End ReconcilerFacts.

(** ** The relationship reconciler: groups, frames and the loops *)

Section LinkArithmeticFacts.
Import Reconciler.

Lemma filter_split {A} (f : A -> bool) (l : list A) :
  List.filter f l ++ List.filter (fun x => negb (f x)) l ≡ₚ l.
Proof.
  induction l as [|a l IH]; cbn; [done|].
  destruct (f a); cbn.
  - by f_equiv.
  - rewrite <- Permutation_middle. by f_equiv.
Qed.

Lemma linked_split (withIds : list DeclaredRef) (prev : list LinkedRef) :
  (if (0 <? length withIds)%nat
   then List.filter (fun a => existsb (fun b => sameId b a) prev) withIds else [])
  ++ (if (0 <? length withIds)%nat
      then List.filter (fun a => negb (existsb (fun b => sameId b a) prev)) withIds else [])
  ≡ₚ withIds.
Proof.
  destruct withIds as [|d rest]; [done|].
  change (0 <? length (d :: rest))%nat with true. cbv iota.
  apply (filter_split (fun a => existsb (fun b => sameId b a) prev)).
Qed.

(** X8. [manageArtistDataUpdates] and [manageGenreDataUpdates] sort every
    declared entry into exactly one of three groups: the entries without an
    id (to be created), the entries whose id is among the previous links
    (linked) and the entries whose id is not (newly linked). No entry is
    lost and none is counted twice. *)
Theorem declared_entries_split_three_ways :
  ∀ (declared : list DeclaredRef) (prev : list LinkedRef),
    artistsWithoutIds (Some declared) ++ linkedArtists (Some declared) (Some prev)
      ++ newlyLinkedArtists (Some declared) (Some prev) ≡ₚ declared ∧
    genresWithoutIds (Some declared) ++ linkedGenres (Some declared) (Some prev)
      ++ newlyLinkedGenres (Some declared) (Some prev) ≡ₚ declared.
Proof.
  intros declared prev.
  unfold artistsWithoutIds, linkedArtists, newlyLinkedArtists, artistsWithIds,
    genresWithoutIds, linkedGenres, newlyLinkedGenres, genresWithIds.
  cbv zeta. rewrite !linked_split.
  split; rewrite (Permutation_app_comm (List.filter _ _)); apply filter_split.
Qed.

Lemma existsb_linked (a : LinkedRef) (withIds : list DeclaredRef) (prev : list LinkedRef) :
  a ∈ prev →
  existsb (sameId a) (List.filter (fun d => existsb (fun b => sameId b d) prev) withIds)
  = existsb (sameId a) withIds.
Proof.
  intros Ha. induction withIds as [|d rest IH]; cbn; [done|].
  destruct (existsb (fun b => sameId b d) prev) eqn:E; cbn; [by rewrite IH|].
  rewrite IH. destruct (sameId a d) eqn:Hs; [|done].
  exfalso. apply not_true_iff_false in E. apply E.
  apply existsb_exists. exists a. split; [by apply list_elem_of_In | done].
Qed.

(** X9. [manageArtistDataUpdates] accounts for every previous artist of
    the song: it is reported as unlinked exactly when no entry of the linked
    group carries its id. *)
Theorem previous_artist_is_kept_or_unlinked :
  ∀ (newArtists : option (list DeclaredRef)) (prev : list LinkedRef) (a : LinkedRef),
    a ∈ prev →
    (a ∈ unlinkedArtists newArtists (Some prev) ↔
     existsb (sameId a) (linkedArtists newArtists (Some prev)) = false).
Proof.
  intros newArtists prev a Ha.
  rewrite unlinkedArtists_absent, <- absent_filter.
  rewrite list_elem_of_In, filter_In, <- list_elem_of_In, negb_true_iff.
  unfold linkedArtists. cbv zeta.
  destruct (artistsWithIds newArtists) as [|d rest] eqn:E.
  - cbn. tauto.
  - change (0 <? length (d :: rest))%nat with true. cbv iota.
    rewrite (existsb_linked a (d :: rest) prev Ha).
    change (fun b => sameId a b) with (sameId a). tauto.
Qed.

(** X9 at a song that keeps its first artist and drops its second. *)
Lemma previous_artist_is_kept_or_unlinked_witness :
  mkLinked "a2" "Second" ∈
    unlinkedArtists (Some [mkDeclared (Some "a1") "First"; mkDeclared None "Third"])
      (Some [mkLinked "a1" "First"; mkLinked "a2" "Second"]) ↔
  existsb (sameId (mkLinked "a2" "Second"))
    (linkedArtists (Some [mkDeclared (Some "a1") "First"; mkDeclared None "Third"])
       (Some [mkLinked "a1" "First"; mkLinked "a2" "Second"])) = false.
Proof.
  apply (previous_artist_is_kept_or_unlinked
           (Some [mkDeclared (Some "a1") "First"; mkDeclared None "Third"])
           [mkLinked "a1" "First"; mkLinked "a2" "Second"] (mkLinked "a2" "Second")).
  apply list_elem_of_In. cbn. tauto.
Defined.

End LinkArithmeticFacts.

Section TransactionFacts.
Import Reconciler.
Context (foldCase : string -> string) (Number : string -> option Z).

(** *** What the transaction leaves of the links of other songs *)

Lemma others_linkSongTo k k' entityId song st :
  linksOfOthers k' song (linkSongTo k entityId song st) = linksOfOthers k' song st.
Proof.
  unfold linksOfOthers, linkSongTo. rewrite table_setTable.
  destruct (decide (k' = k)) as [->|]; [|done]. cbn.
  rewrite List.filter_app. cbn. by rewrite Z.eqb_refl, app_nil_r.
Qed.

Lemma others_create k k' name song st :
  linksOfOthers k' song (create k name st).2 = linksOfOthers k' song st.
Proof.
  unfold linksOfOthers, create. cbn. rewrite table_setTable.
  by destruct (decide (k' = k)) as [->|].
Qed.

Lemma others_linkOrCreate k k' song names st :
  linksOfOthers k' song (linkOrCreate foldCase k song names st) = linksOfOthers k' song st.
Proof.
  revert st. induction names as [|name rest IH]; intros st; cbn [linkOrCreate]; [done|].
  destruct (getWithName foldCase k name st) as [existing|].
  - by rewrite IH, others_linkSongTo.
  - destruct (create k name st) as [created st'] eqn:Hcreate.
    rewrite IH, others_linkSongTo.
    change st' with (created, st').2. rewrite <- Hcreate. apply others_create.
Qed.

Lemma others_linkAll k k' song ids st st' :
  linkAll k song ids st = Some st' →
  linksOfOthers k' song st' = linksOfOthers k' song st.
Proof.
  revert st. induction ids as [|[id|] rest IH]; intros st; cbn [linkAll]; [congruence| |done].
  intros Hrest. by rewrite (IH _ Hrest), others_linkSongTo.
Qed.

Lemma filter_none_keeps_all {A} (f : A -> bool) (l : list A) :
  List.filter f l = [] → List.filter (fun x => negb (f x)) l = l.
Proof.
  induction l as [|a l IH]; cbn; [done|].
  destruct (f a); cbn; [done|]. intros H. by rewrite IH.
Qed.

Lemma filter_filter_comm {A} (f g : A -> bool) (l : list A) :
  List.filter f (List.filter g l) = List.filter g (List.filter f l).
Proof.
  induction l as [|a l IH]; cbn; [done|].
  destruct (f a) eqn:Hf, (g a) eqn:Hg; cbn; rewrite ?Hf, ?Hg, IH; done.
Qed.

Lemma others_unlinkSongFrom k k' entityId song st :
  linksOfOthers k' song (unlinkSongFrom k entityId song st) = linksOfOthers k' song st.
Proof.
  unfold linksOfOthers, unlinkSongFrom. rewrite table_setTable.
  destruct (decide (k' = k)) as [->|]; [|done]. cbn.
  induction (links (table k st)) as [|[e s] l IH]; cbn; [done|].
  destruct (Z.eqb_spec e entityId), (Z.eqb_spec s song); subst; cbn;
    rewrite ?Z.eqb_refl; cbn; try done.
  - destruct (Z.eqb_spec s song); [done|]. cbn. by rewrite IH.
  - destruct (Z.eqb_spec s song); [done|]. cbn. by rewrite IH.
Qed.

Lemma others_unlinkAndPrune k k' entityId song st :
  linksOfOthers k' song (unlinkAndPrune k entityId song st) = linksOfOthers k' song st.
Proof.
  unfold unlinkAndPrune.
  destruct (length _ =? 0)%nat eqn:Hnone; [|apply others_unlinkSongFrom].
  rewrite <- (others_unlinkSongFrom k k' entityId song st).
  set (st1 := unlinkSongFrom k entityId song st) in *.
  apply Nat.eqb_eq, nil_length_inv in Hnone.
  unfold getSongIds in Hnone. apply map_eq_nil in Hnone.
  unfold linksOfOthers, delete. rewrite table_setTable.
  destruct (decide (k' = k)) as [->|]; [|done]. cbn.
  by rewrite (filter_none_keeps_all _ _ Hnone).
Qed.

Lemma others_unlinkAll k k' song ids st :
  linksOfOthers k' song (unlinkAll k song ids st) = linksOfOthers k' song st.
Proof.
  revert st. induction ids as [|id rest IH]; intros st; cbn [unlinkAll]; [done|].
  by rewrite IH, others_unlinkAndPrune.
Qed.

(** X10. The artists block and the genres block of the transaction change
    the join rows of the edited song only: the join rows of every other
    song, in every table, are the same rows in the same order after the
    block as before it. *)
Theorem reconcileMany_keeps_links_of_other_songs :
  ∀ (k k' : Kind) (song : Z) (current : option (list (Z * string)))
    (declared : option (list DeclaredRef)) (st st' : Store),
    reconcileMany foldCase Number k song current declared st = Some st' →
    linksOfOthers k' song st' = linksOfOthers k' song st.
Proof.
  intros k k' song current [declared|] st st'; unfold reconcileMany; [|congruence].
  cbv zeta.
  destruct (linkAll k song _ _) as [st2|] eqn:Hlink; cbn; [|done].
  intros [= <-].
  by rewrite others_unlinkAll, (others_linkAll _ _ _ _ _ _ Hlink), others_linkOrCreate.
Qed.


(** *** The loop over the declared entries without an id *)

(** The loop only appends rows and join rows to the table of its kind. *)
Lemma linkOrCreate_extends k song names st :
  ∃ newRows newLinks,
    rows (table k (linkOrCreate foldCase k song names st)) = rows (table k st) ++ newRows ∧
    links (table k (linkOrCreate foldCase k song names st)) = links (table k st) ++ newLinks.
Proof.
  revert st. induction names as [|name rest IH]; intros st; cbn [linkOrCreate].
  - exists [], []. by rewrite !app_nil_r.
  - destruct (getWithName foldCase k name st) as [existing|].
    + destruct (IH (linkSongTo k existing.1 song st)) as (r & l & -> & ->).
      unfold linkSongTo. rewrite table_setTable, decide_True by done. cbn.
      eexists r, (_ :: l). by rewrite <- app_assoc.
    + cbn. destruct (IH (linkSongTo k (nextId (table k st)) song (create k name st).2))
        as (r & l & Hr & Hl).
      cbn in Hr, Hl. rewrite Hr, Hl.
      unfold linkSongTo, create. cbn. rewrite !table_setTable, !decide_True by done. cbn.
      eexists (_ :: r), (_ :: l). by rewrite <- !app_assoc.
Qed.

Lemma find_app_found {A} (f : A -> bool) (l l' : list A) (x : A) :
  List.find f l = Some x → List.find f (l ++ l') = Some x.
Proof.
  induction l as [|a l IH]; cbn; [done|]. destruct (f a); [done | exact IH].
Qed.

Lemma find_app_fresh {A} (f : A -> bool) (l : list A) (x : A) :
  List.find f l = None → f x = true → List.find f (l ++ [x]) = Some x.
Proof.
  induction l as [|a l IH]; cbn; [by intros _ ->|]. destruct (f a); [done | exact IH].
Qed.

Lemma songIds_elem k entityId song st :
  song ∈ getSongIds k entityId st ↔ (entityId, song) ∈ links (table k st).
Proof.
  unfold getSongIds. rewrite list_elem_of_fmap. split.
  - intros ([e s] & -> & Hin). apply list_elem_of_In, filter_In in Hin as [Hin He].
    cbn in He. apply Z.eqb_eq in He as ->. by apply list_elem_of_In.
  - intros Hin. exists (entityId, song). split; [done|].
    apply list_elem_of_In, filter_In. split; [by apply list_elem_of_In|].
    cbn. apply Z.eqb_refl.
Qed.

(** X12. After the loop over the declared entries without an id, every
    name of the loop denotes an entity of the table (up to case), and the
    song is linked to that entity. *)
Theorem linkOrCreate_links_song_to_every_name :
  ∀ (k : Kind) (song : Z) (names : list string) (st : Store) (name : string),
    name ∈ names →
    ∃ entity,
      getWithName foldCase k name (linkOrCreate foldCase k song names st) = Some entity ∧
      song ∈ getSongIds k entity.1 (linkOrCreate foldCase k song names st).
Proof.
  intros k song names. induction names as [|first rest IH]; intros st name Hin.
  - by apply elem_of_nil in Hin.
  - cbn [linkOrCreate].
    destruct (decide (name ∈ rest)) as [Hrest|Hfirst].
    { destruct (getWithName foldCase k first st); [by apply IH|].
      destruct (create k first st). by apply IH. }
    apply elem_of_cons in Hin as [->|]; [|done].
    assert (Hkept : ∀ entity st1,
      getWithName foldCase k first st1 = Some entity →
      (entity.1, song) ∈ links (table k st1) →
      ∃ entity',
        getWithName foldCase k first (linkOrCreate foldCase k song rest st1) = Some entity' ∧
        song ∈ getSongIds k entity'.1 (linkOrCreate foldCase k song rest st1)).
    { intros entity st1 Hfind Hlink. exists entity.
      destruct (linkOrCreate_extends k song rest st1) as (r & l & Hr & Hl).
      unfold getWithName in *. rewrite Hr, songIds_elem, Hl.
      split; [by apply find_app_found | apply elem_of_app; by left]. }
    destruct (getWithName foldCase k first st) as [existing|] eqn:Hfind.
    + apply (Hkept existing).
      * unfold getWithName, linkSongTo in *. by rewrite table_setTable, decide_True.
      * unfold linkSongTo. rewrite table_setTable, decide_True by done. cbn.
        apply elem_of_app. right. by left.
    + cbn. apply (Hkept (nextId (table k st), first)).
      * unfold getWithName, linkSongTo, create in *. cbn.
        rewrite !table_setTable, !decide_True by done. cbn.
        apply find_app_fresh; [done | cbn; apply String.eqb_refl].
      * unfold linkSongTo, create. cbn. rewrite !table_setTable, !decide_True by done. cbn.
        apply elem_of_app. right. by left.
Qed.

Lemma find_none_fresh (k : Kind) (name : string) (st : Store) :
  getWithName foldCase k name st = None → foldCase name ∉ foldedNames foldCase k st.
Proof.
  unfold getWithName, foldedNames. intros Hnone Hin.
  apply list_elem_of_fmap in Hin as (r & Heq & Hr).
  apply list_elem_of_In in Hr.
  apply (find_none _ _ Hnone) in Hr. cbn in Hr.
  apply String.eqb_neq in Hr. congruence.
Qed.

(** X13. The loop over the declared entries without an id never creates a
    second entity under a name that the table already holds up to case,
    even when the same name is declared twice: if no two rows of the table
    have the same case-folded name before the loop, none have after it. *)
Theorem linkOrCreate_keeps_names_unique :
  ∀ (k : Kind) (song : Z) (names : list string) (st : Store),
    NoDup (foldedNames foldCase k st) →
    NoDup (foldedNames foldCase k (linkOrCreate foldCase k song names st)).
Proof.
  intros k song names. induction names as [|name rest IH]; intros st Hst; cbn [linkOrCreate];
    [done|].
  destruct (getWithName foldCase k name st) as [existing|] eqn:Hfind.
  - apply IH. unfold foldedNames, linkSongTo in *. by rewrite table_setTable, decide_True.
  - cbn. apply IH. pose proof (find_none_fresh k name st Hfind) as Hfresh.
    unfold foldedNames, linkSongTo, create in *. cbn.
    rewrite !table_setTable, !decide_True by done. cbn.
    rewrite map_app. cbn. apply NoDup_app. split_and!; [done | | apply NoDup_singleton].
    intros x Hx Hx'. apply list_elem_of_singleton in Hx' as ->. by apply Hfresh.
Qed.


(** *** The block as a whole *)

Lemma filter_all_true {A} (f : A -> bool) (l : list A) :
  Forall (fun x => f x = true) l → List.filter (fun x => negb (f x)) l = [].
Proof.
  induction 1 as [|a l Ha _ IH]; cbn; [done|]. by rewrite Ha.
Qed.

Lemma Forall_List_filter {A} (P : A -> Prop) (f : A -> bool) (l : list A) :
  Forall P l → Forall P (List.filter f l).
Proof.
  induction 1 as [|a l Ha _ IH]; cbn; [done|]. destruct (f a); [by constructor | done].
Qed.

(** X14. Saving a song whose declared artists (or genres) all carry an id
    and are exactly the entities the song is linked to changes nothing in
    the store: nothing is created, linked, unlinked or deleted. *)
Theorem reconcileMany_same_declaration_changes_nothing :
  ∀ (k : Kind) (song : Z) (current : option (list (Z * string)))
    (declared : list DeclaredRef) (st : Store),
    withoutIds declared = [] →
    Forall (fun d => includesNumber Number (map fst (default [] current)) d = true) declared →
    Forall (fun id => existsb (numberIs Number id) (withIds declared) = true)
      (map fst (default [] current)) →
    reconcileMany foldCase Number k song current (Some declared) st = Some st.
Proof.
  intros k song current declared st Hnone Hknown Hkept.
  unfold reconcileMany, newlyLinkedIds, unlinkedIds. cbv zeta.
  rewrite Hnone.
  rewrite (filter_all_true (includesNumber Number _)) by by apply Forall_List_filter.
  by rewrite (filter_all_true (fun id => existsb (numberIs Number id) _)).
Qed.

Lemma linkAll_extends k song ids st st' :
  linkAll k song ids st = Some st' →
  rows (table k st') = rows (table k st) ∧
  ∃ newLinks,
    links (table k st') = links (table k st) ++ newLinks ∧
    ∀ n, Some n ∈ ids → (n, song) ∈ newLinks.
Proof.
  revert st. induction ids as [|[id|] rest IH]; intros st; cbn [linkAll]; [| |done].
  - intros [= <-]. split; [done|]. exists []. rewrite app_nil_r. split; [done|].
    intros n Hn. by apply elem_of_nil in Hn.
  - intros Hrest. destruct (IH _ Hrest) as (Hrows & l & Hlinks & Hall).
    rewrite Hrows, Hlinks. unfold linkSongTo. rewrite table_setTable, decide_True by done. cbn.
    split; [done|]. exists ((id, song) :: l). rewrite <- app_assoc. split; [done|].
    intros n Hn. apply elem_of_cons in Hn as [[= ->]|Hn]; [by left | right; by apply Hall].
Qed.

Lemma unlinkedIds_current (currentIds : list Z) (declared : list DeclaredRef) (n : Z) :
  n ∉ currentIds → existsb (Z.eqb n) (unlinkedIds Number currentIds declared) = false.
Proof.
  intros Hn. apply not_true_iff_false. intros Hex. apply Hn.
  apply existsb_exists in Hex as (x & Hx & Heq). apply Z.eqb_eq in Heq as <-.
  unfold unlinkedIds in Hx. apply filter_In in Hx as [Hx _]. by apply list_elem_of_In.
Qed.

(** X15. When the block goes through, the song is linked to every declared
    entity whose id is not among its current links. *)
Theorem reconcileMany_links_song_to_new_ids :
  ∀ (k : Kind) (song : Z) (current : option (list (Z * string)))
    (declared : list DeclaredRef) (st st' : Store) (d : DeclaredRef) (n : Z),
    reconcileMany foldCase Number k song current (Some declared) st = Some st' →
    d ∈ declared →
    hasId (declaredId d) = true →
    numberOf Number (declaredId d) = Some n →
    n ∉ map fst (default [] current) →
    song ∈ getSongIds k n st'.
Proof.
  intros k song current declared st st' d n Hrun Hd Hid Hnumber Hnew.
  unfold reconcileMany in Hrun. cbv zeta in Hrun.
  destruct (linkAll k song _ _) as [st2|] eqn:Hlink; cbn in Hrun; [|done].
  injection Hrun as <-.
  destruct (unlinkAll_prunes k song
              (unlinkedIds Number (map fst (default [] current)) declared) st2 n) as [-> _].
  rewrite (unlinkedIds_current _ _ _ Hnew).
  destruct (linkAll_extends _ _ _ _ _ Hlink) as (_ & l & Hlinks & Hall).
  apply songIds_elem. rewrite Hlinks. apply elem_of_app. right. apply Hall.
  unfold newlyLinkedIds. apply list_elem_of_fmap. exists d. split; [done|].
  apply list_elem_of_In, filter_In. split.
  - unfold withIds. apply filter_In. split; [by apply list_elem_of_In | done].
  - unfold includesNumber. rewrite Hnumber. apply negb_true_iff, not_true_iff_false.
    intros Hex. apply Hnew. apply existsb_exists in Hex as (x & Hx & Heq).
    apply Z.eqb_eq in Heq as <-. by apply list_elem_of_In.
Qed.

Lemma exists_elem k id st :
  exists_ k id st = true ↔ id ∈ map fst (rows (table k st)).
Proof.
  unfold exists_. rewrite list_elem_of_fmap. split.
  - intros Hex. apply existsb_exists in Hex as (r & Hr & Heq).
    apply Z.eqb_eq in Heq. exists r. split; [done | by apply list_elem_of_In].
  - intros (r & -> & Hr). apply existsb_exists. exists r.
    split; [by apply list_elem_of_In | apply Z.eqb_refl].
Qed.

(** X11. The block never deletes an entity that another song is linked
    to: such an entity keeps its row and the link of the other song, also
    when the edited song is unlinked from it. *)
Theorem reconcileMany_keeps_entities_of_other_songs :
  ∀ (k : Kind) (song : Z) (current : option (list (Z * string)))
    (declared : option (list DeclaredRef)) (st st' : Store) (id other : Z),
    reconcileMany foldCase Number k song current declared st = Some st' →
    exists_ k id st = true →
    other ≠ song →
    other ∈ getSongIds k id st →
    exists_ k id st' = true ∧ other ∈ getSongIds k id st'.
Proof.
  intros k song current [declared|] st st' id other Hrun Hrow Hother Hlinked;
    unfold reconcileMany in Hrun; [|by injection Hrun as <-].
  cbv zeta in Hrun.
  destruct (linkAll k song _ _) as [st2|] eqn:Hlink; cbn in Hrun; [|done].
  injection Hrun as <-.
  destruct (linkOrCreate_extends k song (map declaredName (withoutIds declared)) st)
    as (r1 & l1 & Hrows1 & Hlinks1).
  destruct (linkAll_extends _ _ _ _ _ Hlink) as (Hrows2 & l2 & Hlinks2 & _).
  assert (Hrow2 : exists_ k id st2 = true).
  { apply exists_elem. rewrite Hrows2, Hrows1, map_app. apply elem_of_app. left.
    by apply exists_elem. }
  assert (Hlinked2 : other ∈ getSongIds k id st2).
  { apply songIds_elem. rewrite Hlinks2, Hlinks1. apply elem_of_app. left.
    apply elem_of_app. left. by apply songIds_elem. }
  assert (Hremaining : other ∈ remainingSongs k id song st2).
  { unfold remainingSongs. apply list_elem_of_In, filter_In.
    split; [by apply list_elem_of_In|]. apply negb_true_iff. by apply Z.eqb_neq. }
  destruct (unlinkAll_prunes k song
              (unlinkedIds Number (map fst (default [] current)) declared) st2 id) as [-> ->].
  destruct (existsb (Z.eqb id) _); [|done].
  split; [|done]. rewrite Hrow2. cbn.
  destruct (remainingSongs k id song st2); [by apply elem_of_nil in Hremaining | done].
Qed.

End TransactionFacts.

Section TransactionExamples.
Import Reconciler.

(** X12 at a name that differs in case from the one in the table. *)
Lemma linkOrCreate_links_song_to_every_name_witness :
  ∃ entity,
    getWithName lower Artist "bob" (linkOrCreate lower Artist 12 ["Cid"; "bob"] sampleStore)
      = Some entity ∧
    12 ∈ getSongIds Artist entity.1 (linkOrCreate lower Artist 12 ["Cid"; "bob"] sampleStore).
Proof.
  apply (linkOrCreate_links_song_to_every_name lower Artist 12 ["Cid"; "bob"] sampleStore "bob").
  apply list_elem_of_In. cbn. tauto.
Defined.

(** X13 at a declaration that names a new artist twice. *)
Lemma linkOrCreate_keeps_names_unique_witness :
  NoDup (foldedNames lower Artist (linkOrCreate lower Artist 12 ["Cid"; "bob"; "CID"] sampleStore)).
Proof.
  apply (linkOrCreate_keeps_names_unique lower Artist 12 ["Cid"; "bob"; "CID"] sampleStore).
  vm_compute. repeat constructor; rewrite ?list_elem_of_In; cbn; intuition congruence.
Defined.

(** X10 at an edit that replaces both artists of song 10. *)
Lemma reconcileMany_keeps_links_of_other_songs_witness :
  ∃ st',
    reconcileMany lower sampleNumber Artist 10 sampleCurrent (Some [mkDeclared None "Cid"])
      sampleStore = Some st' ∧
    linksOfOthers Artist 10 st' = linksOfOthers Artist 10 sampleStore.
Proof.
  eexists. split; [vm_compute; reflexivity|].
  apply (reconcileMany_keeps_links_of_other_songs lower sampleNumber Artist Artist 10
           sampleCurrent (Some [mkDeclared None "Cid"]) sampleStore).
  vm_compute. reflexivity.
Defined.

(** X14 at the two artists of song 10, declared in another order. *)
Lemma reconcileMany_same_declaration_changes_nothing_witness :
  reconcileMany lower sampleNumber Artist 10 sampleCurrent
    (Some [mkDeclared (Some "2") "Bob"; mkDeclared (Some "1") "Ann"]) sampleStore
  = Some sampleStore.
Proof.
  apply (reconcileMany_same_declaration_changes_nothing lower sampleNumber Artist 10
           sampleCurrent [mkDeclared (Some "2") "Bob"; mkDeclared (Some "1") "Ann"] sampleStore).
  - reflexivity.
  - repeat constructor.
  - repeat constructor.
Defined.

(** X15 at an edit that moves song 11 to the first artist. *)
Lemma reconcileMany_links_song_to_new_ids_witness :
  ∃ st',
    reconcileMany lower sampleNumber Artist 11 (Some [(2, "Bob")])
      (Some [mkDeclared (Some "1") "Ann"]) sampleStore = Some st' ∧
    11 ∈ getSongIds Artist 1 st'.
Proof.
  eexists. split; [vm_compute; reflexivity|].
  apply (reconcileMany_links_song_to_new_ids lower sampleNumber Artist 11 (Some [(2, "Bob")])
           [mkDeclared (Some "1") "Ann"] sampleStore _ (mkDeclared (Some "1") "Ann") 1).
  - vm_compute. reflexivity.
  - apply list_elem_of_In. cbn. tauto.
  - reflexivity.
  - reflexivity.
  - rewrite list_elem_of_In. cbn. intuition congruence.
Defined.

(** X11 at the second artist, whom song 11 is linked to as well. *)
Lemma reconcileMany_keeps_entities_of_other_songs_witness :
  ∃ st',
    reconcileMany lower sampleNumber Artist 10 sampleCurrent (Some [mkDeclared None "Cid"])
      sampleStore = Some st' ∧
    exists_ Artist 2 st' = true ∧ 11 ∈ getSongIds Artist 2 st'.
Proof.
  eexists. split; [vm_compute; reflexivity|].
  apply (reconcileMany_keeps_entities_of_other_songs lower sampleNumber Artist 10
           sampleCurrent (Some [mkDeclared None "Cid"]) sampleStore).
  - vm_compute. reflexivity.
  - reflexivity.
  - discriminate.
  - apply list_elem_of_In. cbn. tauto.
Defined.

End TransactionExamples.

(** ** The relationship reconciler: what a step unlinks and deletes *)

Section OrphanFacts.
Import Reconciler.

Lemma length_songIds (k : Kind) (entityId : Z) (st : Store) :
  length (getSongIds k entityId st)
  = length (List.filter (fun l => fst l =? entityId) (links (table k st))).
Proof. unfold getSongIds. apply length_map. Qed.

Lemma links_after_unlink (k : Kind) (entityId song : Z) (st : Store) :
  links (table k (unlinkSongFrom k entityId song st))
  = List.filter (fun l => negb ((fst l =? entityId) && (snd l =? song))) (links (table k st)).
Proof. unfold unlinkSongFrom. by rewrite table_setTable, decide_True. Qed.

Lemma no_membership_left (entityId song : Z) (l : list (Z * Z)) :
  Nat.eqb
    (length (List.filter (fun x => fst x =? entityId)
               (List.filter (fun x => negb ((fst x =? entityId) && (snd x =? song))) l))) 0
  = negb (existsb (fun x => (fst x =? entityId) && negb (snd x =? song)) l).
Proof.
  induction l as [|[e s] l IH]; cbn; [done|].
  destruct (e =? entityId) eqn:He, (s =? song) eqn:Hs; cbn; rewrite ?He; cbn; done.
Qed.

(** C2. One reconciliation step unlinks a song from an artist, an album or
    a genre, reads the songs that remain, and deletes the entity when there
    are none. In the join table of the kind, exactly the rows of the pair
    (entity, song) are gone. The row of the entity is as before when a join
    row of the entity with another song exists, and is deleted when none
    does; no other row is touched, and the next id is as before. The songs
    of the entity are then the songs of its former join rows other than the
    song. For every id of the kind, the query of its songs and the query of
    its existence answer accordingly: the entity keeps exactly its other
    songs and exists exactly when it did and one of them remains; every
    other entity is as before. The tables of the other kinds are as
    before. *)
Theorem unlinkAndPrune_deletes_exactly_orphans :
  ∀ (k : Kind) (entityId song : Z) (st : Store),
    let st' := unlinkAndPrune k entityId song st in
    let remaining := List.filter (fun s => negb (s =? song)) (getSongIds k entityId st) in
    links (table k st')
      = List.filter (fun l => negb ((fst l =? entityId) && (snd l =? song))) (links (table k st)) ∧
    rows (table k st')
      = (if existsb (fun l => (fst l =? entityId) && negb (snd l =? song)) (links (table k st))
         then rows (table k st)
         else List.filter (fun r => negb (fst r =? entityId)) (rows (table k st))) ∧
    nextId (table k st') = nextId (table k st) ∧
    (∀ s : Z, s ∈ getSongIds k entityId st' ↔ (entityId, s) ∈ links (table k st) ∧ s ≠ song) ∧
    (∀ id : Z,
       getSongIds k id st' = (if id =? entityId then remaining else getSongIds k id st) ∧
       exists_ k id st' =
         (if id =? entityId
          then exists_ k entityId st && negb (length remaining =? 0)%nat
          else exists_ k id st)) ∧
    (∀ k' : Kind, if decide (k' = k) then True else table k' st' = table k' st).
Proof.
  intros k entityId song st st' remaining.
  assert (Hlinks : links (table k st')
    = List.filter (fun l => negb ((fst l =? entityId) && (snd l =? song))) (links (table k st))).
  { subst st'. unfold unlinkAndPrune.
    destruct (length _ =? 0)%nat eqn:Hnone.
    - apply Nat.eqb_eq in Hnone. rewrite length_songIds in Hnone.
      apply nil_length_inv in Hnone.
      unfold delete. rewrite table_setTable, decide_True by done. cbn [links].
      rewrite (filter_none_keeps_all _ _ Hnone).
      unfold unlinkSongFrom. by rewrite table_setTable, decide_True.
    - unfold unlinkSongFrom. by rewrite table_setTable, decide_True. }
  split_and!.
  - exact Hlinks.
  - subst st'. unfold unlinkAndPrune.
    rewrite length_songIds, links_after_unlink.
    change (?n =? 0)%nat with (Nat.eqb n 0). rewrite no_membership_left.
    destruct (existsb _ (links (table k st))); cbn [negb].
    + unfold unlinkSongFrom. by rewrite table_setTable, decide_True.
    + unfold delete. rewrite table_setTable, decide_True by done. cbn [rows].
      unfold unlinkSongFrom. by rewrite table_setTable, decide_True.
  - subst st'. unfold unlinkAndPrune.
    destruct (length _ =? 0)%nat; unfold delete, unlinkSongFrom;
      by rewrite !table_setTable, !decide_True.
  - intros s. rewrite songIds_elem, Hlinks.
    rewrite list_elem_of_In, filter_In, <- list_elem_of_In. cbn.
    rewrite Z.eqb_refl. cbn. rewrite negb_true_iff, Z.eqb_neq. tauto.
  - intros id. apply unlinkAndPrune_entity.
  - intros k'. destruct (decide (k' = k)) as [|Hk]; [done|].
    by apply unlinkAndPrune_other_kind.
Qed.

(** C2 at the library of the examples: song 10 is unlinked from Bob, who
    keeps song 11 and stays; song 10 is unlinked from Ann, who has no other
    song and is deleted. *)
Lemma unlinkAndPrune_deletes_exactly_orphans_witness :
  rows (table Artist (unlinkAndPrune Artist 2 10 sampleStore)) = [(1, "Ann"); (2, "Bob")] ∧
  links (table Artist (unlinkAndPrune Artist 2 10 sampleStore)) = [(1, 10); (2, 11)] ∧
  rows (table Artist (unlinkAndPrune Artist 1 10 sampleStore)) = [(2, "Bob")] ∧
  links (table Artist (unlinkAndPrune Artist 1 10 sampleStore)) = [(2, 10); (2, 11)].
Proof.
  destruct (unlinkAndPrune_deletes_exactly_orphans Artist 2 10 sampleStore)
    as (Hlinks & Hrows & _).
  destruct (unlinkAndPrune_deletes_exactly_orphans Artist 1 10 sampleStore)
    as (Hlinks' & Hrows' & _).
  rewrite Hrows, Hrows', Hlinks, Hlinks'. repeat split.
Defined.

End OrphanFacts.

Section UnlinkedFacts.
Import Reconciler.
Context (foldCase : string -> string) (Number : string -> option Z).

Lemma existsb_eqb_elem (id : Z) (ids : list Z) :
  existsb (Z.eqb id) ids = true ↔ id ∈ ids.
Proof.
  rewrite existsb_exists, list_elem_of_In. split.
  - intros (x & Hx & Heq). by apply Z.eqb_eq in Heq as ->.
  - intros Hin. exists id. split; [done | apply Z.eqb_refl].
Qed.

(** C1. The artists block and the genres block of the transaction, on a
    song whose tags declare the entities [declared], when the block goes
    through. The ids that the block unlinks are exactly the current links
    of the song whose id no declared entry with an id denotes; when no
    declared entry carries an id, they are all the current links. After
    the block, the song has no join row with any of them, and a join row
    of the song with an entity that is not among them is still there. *)
Theorem unlinked_are_the_current_links_absent_from_withIds :
  ∀ (k : Kind) (song : Z) (current : option (list (Z * string)))
    (declared : list DeclaredRef) (st st' : Store),
    reconcileMany foldCase Number k song current (Some declared) st = Some st' →
    let currentIds := map fst (default [] current) in
    let unlinked := unlinkedIds Number currentIds declared in
    unlinked
      = List.filter
          (fun id => bool_decide
             (Some id ∉ map (fun d => numberOf Number (declaredId d)) (withIds declared)))
          currentIds ∧
    (withIds declared = [] → unlinked = currentIds) ∧
    (∀ id : Z, id ∈ unlinked → (id, song) ∉ links (table k st')) ∧
    (∀ id : Z, id ∉ unlinked →
       (id, song) ∈ links (table k st) → (id, song) ∈ links (table k st')).
Proof.
  intros k song current declared st st' Hrun currentIds unlinked.
  split_and!.
  - apply unlinkedIds_absent.
  - apply unlinkedIds_no_ids.
  - intros id Hid. unfold reconcileMany in Hrun. cbv zeta in Hrun.
    destruct (linkAll k song _ _) as [st2|] eqn:Hlink; cbn in Hrun; [|done].
    apply (inj Some) in Hrun as <-.
    rewrite <- songIds_elem.
    destruct (unlinkAll_prunes k song unlinked st2 id) as [Hsongs _].
    fold currentIds. fold unlinked. rewrite Hsongs.
    apply existsb_eqb_elem in Hid. rewrite Hid.
    unfold remainingSongs. rewrite list_elem_of_In, filter_In, Z.eqb_refl. cbn.
    intros [_ ?]. done.
  - intros id Hid Hlinked. unfold reconcileMany in Hrun. cbv zeta in Hrun.
    destruct (linkAll k song _ _) as [st2|] eqn:Hlink; cbn in Hrun; [|done].
    apply (inj Some) in Hrun as <-.
    rewrite <- songIds_elem.
    destruct (unlinkAll_prunes k song unlinked st2 id) as [Hsongs _].
    fold currentIds. fold unlinked. rewrite Hsongs.
    destruct (existsb (Z.eqb id) unlinked) eqn:Hex.
    { by apply existsb_eqb_elem in Hex. }
    destruct (linkOrCreate_extends foldCase k song (map declaredName (withoutIds declared)) st)
      as (r1 & l1 & _ & Hlinks1).
    destruct (linkAll_extends _ _ _ _ _ Hlink) as (_ & l2 & Hlinks2 & _).
    apply songIds_elem. rewrite Hlinks2, Hlinks1. apply elem_of_app. left.
    by apply elem_of_app; left.
Qed.

End UnlinkedFacts.

Section UnlinkedExamples.
Import Reconciler.

(** C1 at the library of the examples: song 10, linked to Ann (1) and Bob
    (2), is updated with tags that declare Bob with his id and a new artist
    without one. Ann is unlinked and Bob is kept. *)
Lemma unlinked_are_the_current_links_absent_from_withIds_witness :
  let declared := [mkDeclared (Some "2") "Bob"; mkDeclared None "Cid"] in
  ∃ st',
    reconcileMany lower sampleNumber Artist 10 sampleCurrent (Some declared) sampleStore
      = Some st' ∧
    unlinkedIds sampleNumber (map fst (default [] sampleCurrent)) declared = [1] ∧
    ((1, 10) ∉ links (table Artist st')) ∧
    (2, 10) ∈ links (table Artist st').
Proof.
  intros declared. eexists. split; [vm_compute; reflexivity|].
  destruct (unlinked_are_the_current_links_absent_from_withIds lower sampleNumber Artist 10
              sampleCurrent declared sampleStore _ eq_refl) as (Hset & _ & Hgone & Hkept).
  assert (Hunlinked : unlinkedIds sampleNumber (map fst (default [] sampleCurrent)) declared
                      = [1]).
  { rewrite Hset. vm_compute. reflexivity. }
  split; [exact Hunlinked|]. rewrite Hunlinked in Hgone, Hkept. split.
  - apply Hgone. by left.
  - apply Hkept.
    + intros Hin. apply list_elem_of_singleton in Hin. discriminate Hin.
    + apply list_elem_of_In. cbn. tauto.
Defined.

End UnlinkedExamples.

Section WholeTransactionFacts.
Import Reconciler.
Context (foldCase : string -> string) (Number : string -> option Z).

Lemma others_reconcileMany k k' song current declared st st' :
  reconcileMany foldCase Number k song current declared st = Some st' →
  linksOfOthers k' song st' = linksOfOthers k' song st.
Proof.
  destruct declared as [declared|]; unfold reconcileMany; [|congruence].
  cbv zeta.
  destruct (linkAll k song _ _) as [st2|] eqn:Hlink; cbn; [|done].
  intros [= <-].
  by rewrite others_unlinkAll, (others_linkAll _ _ _ _ _ _ Hlink), others_linkOrCreate.
Qed.

Lemma others_reconcileAlbum k' song tags st st' :
  reconcileAlbum foldCase Number song tags st = Some st' →
  linksOfOthers k' (songId song) st' = linksOfOthers k' (songId song) st.
Proof.
  unfold reconcileAlbum. cbv zeta.
  destruct (tagAlbum tags) as [declared|].
  - destruct (hasId (albumId declared)).
    + destruct (numberOf Number (albumId declared)) as [newId|]; [|done].
      destruct (head (default [] (songAlbums song))) as [cur|].
      * destruct (negb (cur.1 =? newId)); intros Heq; apply (inj Some) in Heq as <-;
          by rewrite ?others_linkSongTo, ?others_unlinkAndPrune.
      * intros Heq; apply (inj Some) in Heq as <-. by rewrite others_linkSongTo.
    + destruct (head (default [] (songAlbums song))) as [cur|];
        intros Heq; apply (inj Some) in Heq as <-;
        by rewrite ?others_unlinkAndPrune, others_linkOrCreate.
  - destruct (head (default [] (songAlbums song))) as [cur|];
      intros Heq; apply (inj Some) in Heq as <-;
      by rewrite ?others_unlinkAndPrune.
Qed.

(** X30. The three blocks of the transaction together (artists, album,
    genres) change the join rows of the edited song only: when the
    transaction goes through, the join rows of every other song, in every
    table, are the same rows in the same order as before. *)
Theorem reconcile_keeps_links_of_other_songs :
  ∀ (song : Song) (tags : SongTags) (st st' : Store) (k : Kind),
    reconcile foldCase Number song tags st = Some st' →
    linksOfOthers k (songId song) st' = linksOfOthers k (songId song) st.
Proof.
  intros song tags st st' k. unfold reconcile, reconcileArtists, reconcileGenres.
  destruct (reconcileMany foldCase Number Artist _ _ _ st) as [st1|] eqn:H1; cbn; [|done].
  destruct (reconcileAlbum foldCase Number song tags st1) as [st2|] eqn:H2; cbn; [|done].
  intros H3.
  by rewrite (others_reconcileMany _ _ _ _ _ _ _ H3), (others_reconcileAlbum _ _ _ _ _ H2),
    (others_reconcileMany _ _ _ _ _ _ _ H1).
Qed.

End WholeTransactionFacts.

Section WholeTransactionExamples.
Import Reconciler.

(** X30 at an edit that replaces the artists, the album and the genres of
    song 10 by new ones. *)
Lemma reconcile_keeps_links_of_other_songs_witness :
  ∃ st',
    reconcile lower sampleNumber (mkSong 10 sampleCurrent None None)
      (mkSongTags (Some [mkDeclared None "Cid"]) (Some (mkDeclaredAlbum None "Live"))
         (Some [mkDeclared None "Jazz"]))
      sampleStore = Some st' ∧
    linksOfOthers Artist 10 st' = linksOfOthers Artist 10 sampleStore.
Proof.
  eexists. split; [vm_compute; reflexivity|].
  apply (reconcile_keeps_links_of_other_songs lower sampleNumber
           (mkSong 10 sampleCurrent None None)
           (mkSongTags (Some [mkDeclared None "Cid"]) (Some (mkDeclaredAlbum None "Live"))
              (Some [mkDeclared None "Jazz"]))
           sampleStore).
  vm_compute. reflexivity.
Defined.

End WholeTransactionExamples.

(** ** Duration of a song *)

Section DurationFacts.
Import Duration.

Lemma nearestHundredths_closest (m : positive) (e : Z) :
  closestHundredths m e (nearestHundredths m e).
Proof.
  unfold closestHundredths, scaledDistance, nearestHundredths. intros j.
  destruct (Z.leb_spec 0 e) as [He|He].
  - rewrite Z.max_l by lia. rewrite Z.add_0_r. cbn [Z.pow].
    change (2 ^ 0) with 1. lia.
  - rewrite Z.max_r by lia.
    replace (e + - e) with 0 by lia. change (2 ^ 0) with 1.
    replace (- e + 1) with (Z.succ (- e)) by lia.
    rewrite Z.pow_succ_r by lia.
    assert (Hp : 0 < 2 ^ (- e)) by (apply Z.pow_pos_nonneg; lia).
    set (p := 2 ^ (- e)) in *. set (v := Z.pos m).
    pose proof (Z.div_mod (2 * 100 * v + p) (2 * p) ltac:(lia)) as Hdiv.
    pose proof (Z.mod_pos_bound (2 * 100 * v + p) (2 * p) ltac:(lia)) as Hmod.
    set (n := (2 * 100 * v + p) / (2 * p)) in *.
    set (r := (2 * 100 * v + p) mod (2 * p)) in *.
    assert (Hj : j * p = n * p + (j - n) * p) by lia.
    destruct (Z.lt_trichotomy j n) as [Hlt|[->|Hgt]].
    + assert ((j - n) * p <= - p) by nia. split; lia.
    + split; lia.
    + assert (p <= (j - n) * p) by nia. split; lia.
Qed.

(** C7, amended. For a number, the duration is the quotient by 1000 in
    double precision, rounded to the closest count of hundredths of that
    double, the larger count (away from zero) on a tie; the sign is kept.
    245678 ms give 245.68, and a missing or non-numeric input gives 0. *)
Theorem normalizeDuration_rounds_double_quotient :
  (∀ x : spec_float,
     match div x (ofZ 1000) with
     | S754_finite s m e =>
         ∃ n, normalizeDuration (JsNumber x) = Digits s n ∧ closestHundredths m e n
     | S754_zero _ => normalizeDuration (JsNumber x) = Digits false 0
     | S754_nan => normalizeDuration (JsNumber x) = NaN
     | S754_infinity s => normalizeDuration (JsNumber x) = Infinity s
     end) ∧
  normalizeDuration (JsNumber (ofZ 245678)) = Digits false 24568 ∧
  normalizeDuration (JsNumber (ofZ 125)) = Digits false 13 ∧
  normalizeDuration JsUndefined = Digits false 0 ∧
  normalizeDuration JsNull = Digits false 0 ∧
  (∀ s : string, normalizeDuration (JsString s) = Digits false 0).
Proof.
  split; [|by vm_compute].
  intros x. unfold normalizeDuration, getSongDurationFromSong.
  destruct (div x (ofZ 1000)) as [s|s| |s m e]; cbn; try done.
  exists (nearestHundredths m e). split; [done | apply nearestHundredths_closest].
Qed.

(** C7, 1005 ms: the exact quotient 1.005 is a tie and rounds to 1.01 half
    away from zero, but the double nearest to it (the literal [1.005])
    lies below the tie and [toFixed(2)] writes 1.00. *)
Lemma normalizeDuration_1005_rounds_down :
  roundedHalfAwayFromZero 1005 = Digits false 101 ∧
  div (ofZ 1005) (ofZ 1000) = S754_finite false 4526117625507348 (-52) ∧
  getSongDurationFromSong (JsNumber (S754_finite false 4526117625507348 (-52)))
    = Digits false 100 ∧
  normalizeDuration (JsNumber (ofZ 1005)) = Digits false 100.
Proof. by vm_compute. Qed.

End DurationFacts.

(** ** The ingestion pipeline *)

Section IngestionFacts.
Import Ingestion.
Context (platform : Platform).

(** *** The queues hold the paths of the operations in flight *)

Lemma run_app (a1 a2 : list Action) (c : Config) :
  run platform (a1 ++ a2) c =
    let '(c1, e1) := run platform a1 c in
    let '(c2, e2) := run platform a2 c1 in
    (c2, e1 ++ e2).
Proof.
  revert c. induction a1 as [|a rest IH]; intros c; cbn.
  - by destruct (run platform a2 c).
  - destruct (step platform a c) as [c' e]. rewrite IH.
    destruct (run platform rest c') as [c1 e1], (run platform a2 c1) as [c2 e2].
    by rewrite app_assoc.
Qed.

Lemma count_app (f : Event -> bool) (l1 l2 : list Event) :
  count f (l1 ++ l2) = (count f l1 + count f l2)%nat.
Proof. unfold count. by rewrite List.filter_app, length_app. Qed.

Lemma tracks_leave queue (a b : list string) p :
  tracks queue (a ++ p :: b) → tracks (leave queue p) (a ++ b).
Proof.
  intros [Hnd Hin]. apply NoDup_app in Hnd as (Ha & Hab & Hb).
  apply NoDup_cons in Hb as [Hpb Hb]. split.
  - apply NoDup_app. split_and!; [done | | done].
    intros x Hx Hxb. apply (Hab x Hx). by right.
  - intros q. unfold leave. rewrite elem_of_difference, Hin, !elem_of_app, elem_of_cons.
    rewrite elem_of_singleton. split.
    + intros [[?|[?|?]] ?]; by auto.
    + intros [Hq|Hq]; (split; [by auto|]); intros ->.
      * apply (Hab p Hq). by left.
      * done.
Qed.

Lemma tracks_enter queue (a b : list string) p :
  tracks queue (a ++ b) → p ∉ queue → tracks (queue ∪ {[p]}) (a ++ p :: b).
Proof.
  intros [Hnd Hin] Hp. rewrite Hin, elem_of_app in Hp.
  apply NoDup_app in Hnd as (Ha & Hab & Hb). split.
  - apply NoDup_app. split_and!; [done | | apply NoDup_cons; by auto].
    intros x Hx [->|Hxb]%elem_of_cons; [by auto | by apply (Hab x)].
  - intros q. rewrite elem_of_union, Hin, !elem_of_app, elem_of_cons, elem_of_singleton.
    tauto.
Qed.

Lemma place_middle (l1 l2 : list Task) (t : Task) (next : option Task) :
  place (length l1) next (l1 ++ t :: l2) = l1 ++ option_list next ++ l2.
Proof.
  unfold place. destruct next as [t'|]; cbn.
  - rewrite insert_app_r_alt by lia. by rewrite Nat.sub_diag.
  - rewrite delete_take_drop, take_app_length.
    replace (S (length l1)) with (length l1 + 1)%nat by lia.
    by rewrite <- drop_drop, drop_app_length.
Qed.

Lemma tracks_append queue (paths : list string) p :
  tracks queue paths → p ∉ queue → tracks (queue ∪ {[p]}) (paths ++ [p]).
Proof.
  intros H Hp. apply tracks_enter; [by rewrite app_nil_r | done].
Qed.

Lemma resumeTask_invariant pathsQ parseQ (l1 l2 : list Task) t o next pathsQ' parseQ' events :
  tracks parseQ (omap pipelinePath (l1 ++ t :: l2)) →
  tracks pathsQ (omap supervisedPath (l1 ++ t :: l2)) →
  resumeTask platform t o pathsQ parseQ = Some (next, pathsQ', parseQ', events) →
  tracks parseQ' (omap pipelinePath (l1 ++ option_list next ++ l2)) ∧
  tracks pathsQ' (omap supervisedPath (l1 ++ option_list next ++ l2)).
Proof.
  rewrite !omap_app. intros Hparse Hpaths Hresume.
  destruct t as [path options owner stage|path options failed];
    destruct o, stage || idtac; destruct owner || idtac; cbn in Hresume;
    try discriminate.
  all: unfold finish, settle, supervise, attempt, enterPipeline, tryEnter in Hresume.
  all: cbn in Hresume; repeat (case_match; cbn in Hresume); simplify_eq; cbn in *.
  all: split; eauto using tracks_leave, tracks_enter.
Qed.

Lemma resume_invariant i o c : invariant c → invariant (resume platform i o c).1.
Proof.
  intros [Hparse Hpaths]. unfold resume.
  destruct (running c !! i) as [t|] eqn:Hi; [|done].
  destruct (resumeTask platform t o (pathsQueue c) (parseQueue c))
    as [[[[next pathsQ] parseQ] events]|] eqn:Hresume; [|done].
  pose proof (take_drop_middle _ _ _ Hi) as Hsplit.
  assert (Hlen : length (take i (running c)) = i).
  { apply lookup_lt_Some in Hi. rewrite length_take. lia. }
  rewrite <- Hsplit in Hparse, Hpaths.
  destruct (resumeTask_invariant _ _ _ _ _ _ _ _ _ _ Hparse Hpaths Hresume) as [H1 H2].
  unfold invariant. cbn.
  rewrite <- Hsplit, <- Hlen at 1. rewrite <- Hsplit, <- Hlen at 4.
  by rewrite !place_middle.
Qed.

Lemma parseSong_invariant path options c : invariant c → invariant (parseSong path options c).1.
Proof.
  intros [Hparse Hpaths]. unfold parseSong, enterPipeline, tryEnter.
  destruct (decide (path ∈ parseQueue c)) as [Hin|Hout]; unfold invariant; cbn.
  - by rewrite app_nil_r.
  - rewrite !omap_app. cbn. rewrite app_nil_r. split; [by apply tracks_append | done].
Qed.

Lemma tryToParseSong_invariant path options c :
  invariant c → invariant (tryToParseSong platform path options c).1.2.
Proof.
  intros [Hparse Hpaths]. unfold tryToParseSong, attempt, enterPipeline, supervise, tryEnter.
  destruct (decide (path ∈ pathsQueue c)) as [Hin|Hout]; [done|].
  destruct (decide (path ∈ parseQueue c)) as [Hin'|Hout']; unfold invariant; cbn.
  - rewrite app_nil_r. split; [done|].
    destruct Hpaths as [Hnd Hiff]. split; [done|]. intros p. rewrite <- Hiff.
    unfold leave. rewrite elem_of_difference, elem_of_union, elem_of_singleton.
    split; [by intros [[?|?] ?] | intros Hp; split; [by left | by intros ->]].
  - rewrite !omap_app. cbn. split; by apply tracks_append.
Qed.

Lemma step_invariant a c : invariant c → invariant (step platform a c).1.
Proof.
  destruct a as [path options|path options|i o]; cbn.
  - apply parseSong_invariant.
  - intros H. pose proof (tryToParseSong_invariant path options c H) as H'.
    by destruct (tryToParseSong platform path options c) as [[r c'] e].
  - apply resume_invariant.
Qed.

Lemma idle_invariant : invariant idle.
Proof.
  split; (split; [constructor | intros p; cbn; split; intros H; [|inversion H]]);
    by apply not_elem_of_empty in H.
Qed.

Lemma run_invariant actions c : invariant c → invariant (run platform actions c).1.
Proof.
  revert c. induction actions as [|a rest IH]; intros c Hc; cbn; [done|].
  pose proof (step_invariant a c Hc) as Hstep.
  destruct (step platform a c) as [c' e]. specialize (IH c' Hstep).
  by destruct (run platform rest c') as [c'' e'].
Qed.

Lemma reachable_invariant actions : invariant (run platform actions idle).1.
Proof. apply run_invariant, idle_invariant. Qed.

Lemma tryEnter_present queue path : path ∈ queue → tryEnter queue path = (false, queue).
Proof. intros H. unfold tryEnter. by rewrite decide_True. Qed.

Lemma tryEnter_absent queue path :
  path ∉ queue → tryEnter queue path = (true, queue ∪ {[path]}).
Proof. intros H. unfold tryEnter. by rewrite decide_False. Qed.

Lemma parseSong_dropped path options c :
  path ∈ parseQueue c → parseSong path options c = (c, [Ineligible path isSongInParseQueue]).
Proof.
  intros H. unfold parseSong, enterPipeline. rewrite tryEnter_present by done. cbn.
  rewrite app_nil_r. by destruct c.
Qed.

Lemma parseSong_admitted path options c :
  path ∉ parseQueue c →
  parseSong path options c =
    (mkConfig (pathsQueue c) (parseQueue c ∪ {[path]})
       (running c ++ [Pipeline path options Direct AwaitingMetadata]), []).
Proof. intros H. unfold parseSong, enterPipeline. by rewrite tryEnter_absent. Qed.

Lemma tryToParseSong_dropped path options c :
  path ∈ pathsQueue c →
  tryToParseSong platform path options c
  = (Undefined, c, [Ineligible path isSongInPathsQueue]).
Proof. intros H. unfold tryToParseSong. by rewrite tryEnter_present. Qed.

Lemma tryToParseSong_admitted path options c :
  path ∉ pathsQueue c → (tryToParseSong platform path options c).1.1 = Promise.
Proof.
  intros H. unfold tryToParseSong. rewrite tryEnter_absent by done.
  by destruct (attempt platform _ _ _ _ _) as [[[? ?] ?] ?].
Qed.

(** C4. In every state that the process can reach, while a supervised
    operation on a path is in flight (its pipeline runs, or its retry timer
    is pending), a further [tryToParseSong] on that path returns
    [undefined] at once, logs one ineligible event with the reason
    [isSongInPathsQueue] and nothing else (no persistence call), and leaves
    the queues and the operations in flight as they were. *)
Theorem second_tryToParseSong_is_dropped :
  ∀ (actions : list Action) (path : string) (options : Options),
    let c := (run platform actions idle).1 in
    supervisedInFlight path c →
    tryToParseSong platform path options c
    = (Undefined, c, [Ineligible path isSongInPathsQueue]).
Proof.
  intros actions path options c Hflight.
  apply tryToParseSong_dropped.
  destruct (reachable_invariant actions) as [_ [_ Hpaths]]. by apply Hpaths.
Qed.

(** C6. In every state that the process can reach, the parse queue holds
    exactly the paths of the pipelines in flight and the paths queue
    exactly the paths of the supervised operations in flight. When the
    pipeline in flight at position [i] ends at the answer [o] (it returns
    early, its persistence goes through, or it throws), its path, which was
    in the parse queue, has left the parse queue, no pipeline on the path
    is in flight any more, and a further [parseSong] on the path is
    admitted. When a caller of [parseSong] awaited the pipeline, the
    operation is gone and the paths queue is as before. When the supervisor
    awaited it at attempt [n], the path was in the paths queue; after a
    failure with [n < 5] the retry timer takes the place of the pipeline
    and the path stays in the paths queue, the operation being still in
    flight; after a success, or after the failure of attempt 5 or more,
    the operation is gone, its path has left the paths queue, no supervised
    operation on the path is in flight, and a further [tryToParseSong] on
    the path returns a promise. *)
Theorem ended_operation_leaves_its_queues :
  ∀ (actions : list Action) (i : nat) (path : string) (options again : Options)
    (owner : Owner) (stage : Stage) (o : Outcome) (succeeded : bool),
    let c := (run platform actions idle).1 in
    let c' := (resume platform i o c).1 in
    (∀ p : string,
       (p ∈ parseQueue c ↔ pipelineInFlight p c) ∧
       (p ∈ pathsQueue c ↔ supervisedInFlight p c)) ∧
    (running c !! i = Some (Pipeline path options owner stage) →
     pipelineEnds options stage o = Some succeeded →
     (path ∈ parseQueue c ∧
      parseQueue c' = leave (parseQueue c) path ∧
      ¬ pipelineInFlight path c' ∧
      parseSong path again c'
      = (mkConfig (pathsQueue c') (parseQueue c' ∪ {[path]})
           (running c' ++ [Pipeline path again Direct AwaitingMetadata]), [])) ∧
     match owner with
     | Direct => running c' = delete i (running c) ∧ pathsQueue c' = pathsQueue c
     | Supervised n =>
         path ∈ pathsQueue c ∧
         if negb succeeded && (n <? 5)%nat
         then running c' = <[i := RetryTimer path options n]> (running c) ∧
              pathsQueue c' = pathsQueue c
         else running c' = delete i (running c) ∧
              pathsQueue c' = leave (pathsQueue c) path ∧
              ¬ supervisedInFlight path c' ∧
              (tryToParseSong platform path again c').1.1 = Promise
     end).
Proof.
  intros actions i path options again owner stage o succeeded c c'.
  pose proof (reachable_invariant actions) as Hinv. fold c in Hinv.
  split.
  { intros p. destruct Hinv as [[_ Hparse] [_ Hpaths]]. split; [apply Hparse | apply Hpaths]. }
  intros Hi Hends.
  pose proof (resume_invariant i o c Hinv) as Hinv'. fold c' in Hinv'.
  assert (Hin : path ∈ parseQueue c).
  { apply Hinv. apply list_elem_of_omap. exists (Pipeline path options owner stage).
    split; [by eapply list_elem_of_lookup_2 | done]. }
  assert (Hc' : c' = let '(next, pathsQ, _) :=
                       settle platform path options owner succeeded (pathsQueue c) in
                     mkConfig pathsQ (leave (parseQueue c) path) (place i next (running c))).
  { subst c'. unfold resume. rewrite Hi.
    destruct stage, o; cbn in Hends |- *; try discriminate;
      try (destruct (reparseToSync options); [discriminate|]);
      simplify_eq; unfold finish;
      by destruct (settle platform path options owner _ (pathsQueue c)) as [[? ?] ?]. }
  assert (Hparse' : parseQueue c' = leave (parseQueue c) path).
  { rewrite Hc'. by destruct (settle _ _ _ _ _ _) as [[? ?] ?]. }
  assert (Hout : path ∉ parseQueue c').
  { rewrite Hparse'. unfold leave. rewrite elem_of_difference, elem_of_singleton. tauto. }
  split.
  { split_and!; [done | done | | by apply parseSong_admitted].
    intros Hflight. apply Hout. by apply Hinv'. }
  destruct owner as [|n]; cbn [settle] in Hc'.
  { by rewrite Hc'. }
  assert (Hpaths : path ∈ pathsQueue c).
  { apply Hinv. apply list_elem_of_omap. exists (Pipeline path options (Supervised n) stage).
    split; [by eapply list_elem_of_lookup_2 | done]. }
  split; [done|]. unfold supervise in Hc'.
  destruct succeeded; cbn [negb andb].
  - assert (Hgone : path ∉ pathsQueue c').
    { rewrite Hc'. cbn. unfold leave. rewrite elem_of_difference, elem_of_singleton. tauto. }
    split_and!; [by rewrite Hc' | by rewrite Hc' | | by apply tryToParseSong_admitted].
    intros Hflight. apply Hgone. by apply Hinv'.
  - destruct (n <? 5)%nat eqn:Hn; [by rewrite Hc'|].
    assert (Hgone : path ∉ pathsQueue c').
    { rewrite Hc'. cbn. unfold leave. rewrite elem_of_difference, elem_of_singleton. tauto. }
    split_and!; [by rewrite Hc' | by rewrite Hc' | | by apply tryToParseSong_admitted].
    intros Hflight. apply Hgone. by apply Hinv'.
Qed.

(** *** A lone supervised operation *)

Lemma resume_lone t o pathsQ parseQ :
  resume platform 0 o (mkConfig pathsQ parseQ [t]) =
    match resumeTask platform t o pathsQ parseQ with
    | Some (next, pathsQ', parseQ', events) =>
        (mkConfig pathsQ' parseQ' (option_list next), events)
    | None => (mkConfig pathsQ parseQ [t], [])
    end.
Proof.
  unfold resume. cbn.
  by destruct (resumeTask platform t o pathsQ parseQ) as [[[[[next|] ?] ?] ?]|].
Qed.

Lemma answer_over (outcomes : list Outcome) c :
  running c = [] → run platform (answer outcomes) c = (c, []).
Proof.
  intros Hover. induction outcomes as [|o rest IH]; cbn; [done|].
  unfold resume. rewrite Hover. cbn. fold (answer rest). by rewrite IH.
Qed.

Section Lone.
Context (path : string) (options : Options).

Lemma tally_app t1 t2 :
  attempts path (t1 ++ t2) = (attempts path t1 + attempts path t2)%nat ∧
  failures path (t1 ++ t2) = (failures path t1 + failures path t2)%nat ∧
  parseFailed (t1 ++ t2) = parseFailed t1 ++ parseFailed t2.
Proof.
  unfold attempts, failures, parseFailed.
  by rewrite !count_app, List.filter_app.
Qed.

Lemma not_in_leave (queue : gset string) : path ∉ leave queue path.
Proof. unfold leave. rewrite elem_of_difference, elem_of_singleton. tauto. Qed.

Lemma in_enter (queue : gset string) : path ∈ queue ∪ {[path]}.
Proof. rewrite elem_of_union, elem_of_singleton. tauto. Qed.

Ltac tally :=
  unfold attempts, failures, parseFailed, count in *;
  rewrite ?List.filter_app, ?length_app; cbn;
  rewrite ?String.eqb_refl; cbn.

Ltac lone_case :=
  split_and?;
  first
    [ assumption | apply not_in_leave | apply in_enter | lia
    | tally;
      first
        [ lia | congruence
        | match goal with
          | H : List.filter isParseFailed _ = _ |- _ => by rewrite H
          end ] ].

Ltac lone_solve :=
  repeat match goal with
  | H : (_ <? _)%nat = true |- _ => apply Nat.ltb_lt in H
  | H : (_ <? _)%nat = false |- _ => apply Nat.ltb_ge in H
  | H : (_ <=? _)%nat = true |- _ => apply Nat.leb_le in H
  | H : (_ <=? _)%nat = false |- _ => apply Nat.leb_gt in H
  end;
  unfold loneInvariant; cbn;
  first
    [ left; eexists _, _; split; [reflexivity|]; solve [lone_case]
    | right; left; eexists; split; [reflexivity|]; solve [lone_case]
    | right; right; left; split; [reflexivity|]; solve [lone_case]
    | right; right; right; split; [reflexivity|]; solve [lone_case] ].

Lemma loneInvariant_resume o c t c' e :
  loneInvariant platform path options c t → resume platform 0 o c = (c', e) →
  loneInvariant platform path options c' (t ++ e).
Proof.
  destruct c as [pathsQ parseQ tasks]. unfold loneInvariant at 1. cbn.
  intros [(n & stage & -> & Hpaths & Hparse & Hn & HA & HF & HP)
         |[(n & -> & Hpaths & Hparse & Hn & HA & HF & HP)
         |[(-> & Hpaths & Hparse & HA & HF & HP)
          |(-> & Hpaths & Hparse & HA & HF & HP)]]] Hres.
  - rewrite resume_lone in Hres.
    destruct o, stage; cbn in Hres; unfold finish, settle, supervise in Hres;
      cbn in Hres; repeat (case_match; cbn in Hres); simplify_eq; lone_solve.
  - rewrite resume_lone in Hres.
    destruct o; cbn in Hres; unfold attempt, enterPipeline in Hres;
      rewrite ?tryEnter_absent in Hres by done; cbn in Hres; simplify_eq; lone_solve.
  - cbn in Hres. simplify_eq. lone_solve.
  - cbn in Hres. simplify_eq. lone_solve.
Qed.

Lemma loneInvariant_answers outcomes c t :
  loneInvariant platform path options c t →
  loneInvariant platform path options (run platform (answer outcomes) c).1
    (t ++ (run platform (answer outcomes) c).2).
Proof.
  revert c t. induction outcomes as [|o rest IH]; intros c t Hinv; cbn.
  - by rewrite app_nil_r.
  - destruct (resume platform 0 o c) as [c' e] eqn:Hres.
    pose proof (loneInvariant_resume _ _ _ _ _ Hinv Hres) as Hinv'.
    specialize (IH c' (t ++ e) Hinv'). fold (answer rest).
    destruct (run platform (answer rest) c') as [c'' e']. cbn in *.
    by rewrite app_assoc.
Qed.

Lemma answer_app (o1 o2 : list Outcome) : answer (o1 ++ o2) = answer o1 ++ answer o2.
Proof. apply map_app. Qed.

Lemma failed_then_timer c n atSave :
  atAttempt path options c n → (n < 5)%nat →
  ∃ c' e,
    run platform (answer (failedAttempt atSave ++ [TimerFired])) c = (c', e) ∧
    atAttempt path options c' (S n) ∧
    attempts path e = 1%nat ∧ failures path e = 1%nat ∧ parseFailed e = [].
Proof.
  destruct c as [pathsQ parseQ tasks]. intros (Htasks & Hpaths & Hparse) Hn.
  cbn in Htasks, Hpaths, Hparse. subst tasks.
  apply Nat.ltb_lt in Hn.
  destruct atSave; cbn; unfold resume; cbn;
    unfold finish, settle, supervise; rewrite Hn; cbn;
    unfold attempt, enterPipeline; rewrite tryEnter_absent by apply not_in_leave; cbn;
    eexists _, _; (split; [reflexivity|]);
    (split; [split_and!; [done | done | apply in_enter]|]); by tally.
Qed.

Lemma retries_run (fs : list bool) c n :
  atAttempt path options c n → (n + length fs <= 5)%nat →
  ∃ c' e,
    run platform (answer (retries fs)) c = (c', e) ∧
    atAttempt path options c' (n + length fs) ∧
    attempts path e = length fs ∧ failures path e = length fs ∧ parseFailed e = [].
Proof.
  revert c n. induction fs as [|f rest IH]; intros c n Hat Hn.
  - exists c, []. rewrite Nat.add_0_r. by cbn.
  - cbn [retries flat_map]. fold (retries rest). cbn [length] in Hn.
    destruct (failed_then_timer c n f Hat ltac:(lia)) as (c1 & e1 & Hrun1 & Hat1 & HA1 & HF1 & HP1).
    destruct (IH c1 (S n) Hat1 ltac:(lia)) as (c2 & e2 & Hrun2 & Hat2 & HA2 & HF2 & HP2).
    exists c2, (e1 ++ e2). rewrite answer_app, run_app, Hrun1, Hrun2.
    destruct (tally_app e1 e2) as (-> & -> & ->).
    replace (n + length (f :: rest))%nat with (S n + length rest)%nat by (cbn; lia).
    split_and!; [done | done | cbn; lia | cbn; lia | by rewrite HP1, HP2].
Qed.

Lemma fifth_failure c atSave :
  atAttempt path options c 5 →
  ∃ c' e,
    run platform (answer (failedAttempt atSave)) c = (c', e) ∧
    running c' = [] ∧ (path ∉ pathsQueue c') ∧ (path ∉ parseQueue c') ∧
    attempts path e = 0%nat ∧ failures path e = 1%nat ∧
    parseFailed e = [Message "PARSE_FAILED" (basename platform path)].
Proof.
  destruct c as [pathsQ parseQ tasks]. intros (Htasks & Hpaths & Hparse).
  cbn in Htasks, Hpaths, Hparse. subst tasks.
  destruct atSave; cbn; unfold resume; cbn; unfold finish, settle, supervise; cbn;
    eexists _, _; (split; [reflexivity|]); cbn;
    split_and!; try done; try apply not_in_leave; by tally.
Qed.

Lemma success_ends c n title :
  atAttempt path options c n →
  ∃ c' e,
    run platform (answer [Ready; Saved title]) c = (c', e) ∧
    running c' = [] ∧ (path ∉ pathsQueue c') ∧ (path ∉ parseQueue c') ∧
    attempts path e = 0%nat ∧ failures path e = 0%nat ∧ parseFailed e = [] ∧
    count (isSave path) e = 1%nat.
Proof.
  destruct c as [pathsQ parseQ tasks]. intros (Htasks & Hpaths & Hparse).
  cbn in Htasks, Hpaths, Hparse. subst tasks.
  cbn; unfold resume; cbn; unfold finish, settle, supervise, successEvents; cbn.
  eexists _, _; (split; [reflexivity|]); cbn.
  split_and!; try done; try apply not_in_leave;
    destruct (suppressMessages options); by tally.
Qed.

Lemma start_lone :
  ∃ c0,
    tryToParseSong platform path options idle = (Promise, c0, [Attempt path 1]) ∧
    atAttempt path options c0 1 ∧ loneInvariant platform path options c0 [Attempt path 1].
Proof.
  unfold tryToParseSong, attempt, enterPipeline.
  rewrite !tryEnter_absent by apply not_elem_of_empty. cbn.
  eexists. split; [reflexivity|].
  assert (Hat : atAttempt path options
    (mkConfig (∅ ∪ {[path]}) (∅ ∪ {[path]})
       [Pipeline path options (Supervised 1) AwaitingMetadata]) 1)
    by (split_and!; [done | apply in_enter | apply in_enter]).
  split; [done|]. left. exists 1%nat, AwaitingMetadata.
  destruct Hat as (? & ? & ?). split_and!; try done; try lia; by tally.
Qed.

End Lone.

(** *** The base name of a path *)

Lemma append_cons (c : Ascii.ascii) (s s' : string) :
  String c s +:+ s' = String c (s +:+ s').
Proof. reflexivity. Qed.

Lemma append_nil (s : string) : EmptyString +:+ s = s.
Proof. reflexivity. Qed.

Lemma append_empty (s : string) : s +:+ EmptyString = s.
Proof. induction s as [|c s IH]; [done|]. by rewrite append_cons, IH. Qed.

Lemma append_last (s : string) (c : Ascii.ascii) (s' : string) :
  (s +:+ String c EmptyString) +:+ s' = s +:+ String c s'.
Proof. induction s as [|d s IH]; [done|]. by rewrite !append_cons, IH. Qed.

(** Whatever precedes a text in a path leaves the scan in some state. *)
Lemma lastSegment_app (before : string) :
  ∀ found current,
    ∃ found' current',
      ∀ after, lastSegment platform found current (before +:+ after)
               = lastSegment platform found' current' after.
Proof.
  induction before as [|c before IH]; intros found current.
  - by exists found, current.
  - setoid_rewrite append_cons. cbn [lastSegment].
    destruct (isPathSeparator platform c); apply IH.
Qed.

Lemma lastSegment_separators (trailing : string) :
  ∀ found current,
    onlySeparators platform trailing = true →
    lastSegment platform found current trailing
    = if String.eqb current EmptyString then found else current.
Proof.
  induction trailing as [|c trailing IH]; intros found current Hseps; cbn; [done|].
  cbn in Hseps. apply andb_true_iff in Hseps as [-> Hseps].
  by rewrite IH.
Qed.

Lemma lastSegment_name (name trailing : string) :
  ∀ found current,
    noSeparator platform name = true →
    onlySeparators platform trailing = true →
    lastSegment platform found current (name +:+ trailing)
    = if String.eqb (current +:+ name) EmptyString then found else current +:+ name.
Proof.
  induction name as [|c name IH]; intros found current Hname Hseps.
  - rewrite append_empty. by apply lastSegment_separators.
  - cbn in Hname. apply andb_true_iff in Hname as [Hc Hname].
    apply negb_true_iff in Hc. rewrite append_cons. cbn [lastSegment].
    rewrite Hc, IH by done. by rewrite append_last.
Qed.

Lemma separator_is_no_drive (sep : Ascii.ascii) :
  isPathSeparator Win32 sep = true →
  isWindowsDeviceRoot sep = false ∧ Ascii.eqb sep ":"%char = false.
Proof.
  cbn. intros [H|H]%orb_true_iff; apply Ascii.eqb_eq in H as ->; by vm_compute.
Qed.

(** The drive letter is in front of the last separator, when there is one. *)
Lemma withoutDrive_app (dir : string) (sep : Ascii.ascii) (rest : string) :
  isPathSeparator platform sep = true →
  ∃ dir', withoutDrive platform (dir +:+ String sep rest) = dir' +:+ String sep rest.
Proof.
  intros Hsep. destruct platform; [by exists dir|].
  destruct (separator_is_no_drive sep Hsep) as [Hroot Hcolon].
  destruct dir as [|d [|c dir]]; rewrite ?append_cons, ?append_nil; cbn [withoutDrive].
  - exists EmptyString. destruct rest; [done|]. by rewrite Hroot.
  - exists (String d EmptyString). by rewrite Hcolon, andb_false_r.
  - destruct (isWindowsDeviceRoot d && Ascii.eqb c ":"%char);
      [by exists dir | by exists (String d (String c dir))].
Qed.

Lemma basename_after_separator (dir name trailing : string) (sep : Ascii.ascii) :
  isPathSeparator platform sep = true →
  name ≠ EmptyString →
  noSeparator platform name = true →
  onlySeparators platform trailing = true →
  basename platform (dir +:+ String sep (name +:+ trailing)) = name.
Proof.
  intros Hsep Hname Hclean Hseps. unfold basename.
  destruct (withoutDrive_app dir sep (name +:+ trailing) Hsep) as [dir' ->].
  destruct (lastSegment_app dir' EmptyString EmptyString) as (found & current & ->).
  cbn [lastSegment]. rewrite Hsep, lastSegment_name by done.
  by destruct name.
Qed.

(** C3. A lone [tryToParseSong] on a path is admitted and starts attempt 1.
    When five attempts in a row fail (each at the reading of the metadata
    or at the persistence, each but the last followed by its retry timer),
    the trace shows exactly 5 attempts and one [PARSE_FAILED] message that
    carries the base name of the path; the operation is over, its path has
    left the paths queue, and no later answer adds anything. When the
    attempt after fewer than five failures succeeds, the operation is over
    with no [PARSE_FAILED] message and no further attempt. Whatever the
    answers of the outside are, there are never more than 5 attempts, and
    the [PARSE_FAILED] message is in the trace exactly when 5 attempts have
    failed. The base name of a path that ends with a separator, a name
    without separator that is not empty, and then separators only, is that
    name. *)
Theorem tryToParseSong_retries_five_times :
  ∀ (path : string) (options : Options),
    let '(returned, c0, e0) := tryToParseSong platform path options idle in
    returned = Promise ∧
    (∀ (f1 f2 f3 f4 f5 : bool) (more : list Outcome),
       let '(c, e) :=
         run platform (answer (retries [f1; f2; f3; f4] ++ failedAttempt f5 ++ more)) c0 in
       running c = [] ∧ (path ∉ pathsQueue c) ∧
       count (isAttempt path) (e0 ++ e) = 5%nat ∧
       count (isError path) (e0 ++ e) = 5%nat ∧
       List.filter isParseFailed (e0 ++ e)
       = [Message "PARSE_FAILED" (basename platform path)]) ∧
    (∀ (fs : list bool) (title : string) (more : list Outcome),
       (length fs < 5)%nat →
       let '(c, e) := run platform (answer (retries fs ++ [Ready; Saved title] ++ more)) c0 in
       running c = [] ∧ (path ∉ pathsQueue c) ∧
       count (isAttempt path) (e0 ++ e) = S (length fs) ∧
       count (isError path) (e0 ++ e) = length fs ∧
       List.filter isParseFailed (e0 ++ e) = []) ∧
    (∀ outcomes : list Outcome,
       let '(c, e) := run platform (answer outcomes) c0 in
       (count (isAttempt path) (e0 ++ e) <= 5)%nat ∧
       List.filter isParseFailed (e0 ++ e) =
         (if (count (isError path) (e0 ++ e) =? 5)%nat
          then [Message "PARSE_FAILED" (basename platform path)] else [])) ∧
    (∀ (dir name trailing : string) (sep : Ascii.ascii),
       path = dir +:+ String sep (name +:+ trailing) →
       isPathSeparator platform sep = true →
       name ≠ EmptyString →
       noSeparator platform name = true →
       onlySeparators platform trailing = true →
       basename platform path = name).
Proof.
  intros path options.
  destruct (start_lone path options) as (c0 & -> & Hat & Hinv).
  split; [done|]. split_and!; [| | |intros dir name trailing sep ->; apply basename_after_separator].
  - intros f1 f2 f3 f4 f5 more.
    destruct (retries_run path options [f1; f2; f3; f4] c0 1 Hat ltac:(cbn; lia))
      as (c1 & e1 & Hrun1 & Hat1 & HA1 & HF1 & HP1).
    destruct (fifth_failure path options c1 f5 Hat1)
      as (c2 & e2 & Hrun2 & Hover & Hpaths & _ & HA2 & HF2 & HP2).
    rewrite answer_app, run_app, Hrun1, answer_app, run_app, Hrun2.
    rewrite (answer_over more c2 Hover), app_nil_r.
    destruct (tally_app path [Attempt path 1] (e1 ++ e2)) as (HA & HF & HP).
    destruct (tally_app path e1 e2) as (HA' & HF' & HP').
    unfold attempts, failures, parseFailed in *.
    rewrite HA, HF, HP, HA', HF', HP', HA1, HA2, HF1, HF2, HP1, HP2.
    cbn. rewrite String.eqb_refl. by cbn.
  - intros fs title more Hlen.
    destruct (retries_run path options fs c0 1 Hat ltac:(lia))
      as (c1 & e1 & Hrun1 & Hat1 & HA1 & HF1 & HP1).
    destruct (success_ends path options c1 _ title Hat1)
      as (c2 & e2 & Hrun2 & Hover & Hpaths & _ & HA2 & HF2 & HP2 & _).
    rewrite answer_app, run_app, Hrun1.
    change ([Ready; Saved title] ++ more) with ([Ready; Saved title] ++ more).
    rewrite (answer_app [Ready; Saved title] more), run_app, Hrun2.
    rewrite (answer_over more c2 Hover), app_nil_r.
    destruct (tally_app path [Attempt path 1] (e1 ++ e2)) as (HA & HF & HP).
    destruct (tally_app path e1 e2) as (HA' & HF' & HP').
    unfold attempts, failures, parseFailed in *.
    rewrite HA, HF, HP, HA', HF', HP', HA1, HA2, HF1, HF2, HP1, HP2.
    cbn. rewrite String.eqb_refl. cbn. split_and!; try done; lia.
  - intros outcomes.
    pose proof (loneInvariant_answers path options outcomes c0 _ Hinv) as H.
    destruct (run platform (answer outcomes) c0) as [c e]. cbn [fst snd] in H.
    unfold loneInvariant, attempts, failures, parseFailed in H.
    destruct H as [(n & stage & _ & _ & _ & Hn & HA & HF & HP)
                  |[(n & _ & _ & _ & Hn & HA & HF & HP)
                  |[(_ & _ & _ & HA & HF & HP)
                   |(_ & _ & _ & HA & HF & HP)]]];
      rewrite HP; (split; [lia|]).
    + rewrite (proj2 (Nat.eqb_neq _ 5)) by lia. done.
    + rewrite (proj2 (Nat.eqb_neq _ 5)) by lia. done.
    + rewrite (proj2 (Nat.eqb_neq _ 5)) by lia. done.
    + by rewrite HF.
Qed.

(** While a pipeline on a path is in flight, in whatever state the process
    has reached, a further [parseSong] on that path is dropped. *)
Lemma parseSong_dropped_in_flight (actions : list Action) path options :
  let c := (run platform actions idle).1 in
  pipelineInFlight path c →
  parseSong path options c = (c, [Ineligible path isSongInParseQueue]).
Proof.
  intros c Hflight. apply parseSong_dropped.
  destruct (reachable_invariant actions) as [[_ Hparse] _]. by apply Hparse.
Qed.

(** C5. Two [parseSong] calls on a new path, the second one made while the
    first is still in flight: before the first has read the metadata
    ([pre = []]), or while its persistence transaction is pending
    ([pre = [Ready]]). The second call is dropped at once: it logs one
    not-eligible event with the reason [isSongInParseQueue], changes
    nothing and starts nothing. When the first call has finished, the trace
    shows exactly one [saveSong] call, one such log and no error, and the
    path has left the parse queue. *)
Theorem concurrent_parseSong_saves_once :
  ∀ (path : string) (first second : Options) (title : string) (pre post : list Outcome),
    pre ++ post = [Ready; Saved title] → post ≠ [] →
    let '(c1, e1) := run platform (CallParseSong path first :: answer pre) idle in
    let '(c2, e2) := parseSong path second c1 in
    let '(c3, e3) := run platform (answer post) c2 in
    pipelineInFlight path c1 ∧
    c2 = c1 ∧ e2 = [Ineligible path isSongInParseQueue] ∧
    running c3 = [] ∧ (path ∉ parseQueue c3) ∧
    count (isSave path) (e1 ++ e2 ++ e3) = 1%nat ∧
    count (isInParseQueueLog path) (e1 ++ e2 ++ e3) = 1%nat ∧
    count (isError path) (e1 ++ e2 ++ e3) = 0%nat.
Proof.
  intros path first second title pre post Hsplit Hpost.
  assert (Hcases : (pre = [] ∧ post = [Ready; Saved title])
                 ∨ (pre = [Ready] ∧ post = [Saved title])).
  { destruct pre as [|o1 [|o2 [|o3 pre]]]; cbn in Hsplit; simplify_eq; auto. }
  cbn [run step]. rewrite parseSong_admitted by apply not_elem_of_empty.
  destruct Hcases as [[-> ->]|[-> ->]]; cbn; unfold resume; cbn.
  - rewrite parseSong_dropped by apply in_enter. cbn.
    unfold finish, settle, successEvents; cbn.
    split_and!; try done.
    + unfold pipelineInFlight. cbn. by left.
    + apply not_in_leave.
    + unfold count. destruct (suppressMessages first); cbn; by rewrite String.eqb_refl.
    + unfold count. destruct (suppressMessages first); cbn; by rewrite String.eqb_refl.
    + unfold count. by destruct (suppressMessages first).
  - rewrite parseSong_dropped by apply in_enter. cbn.
    unfold finish, settle, successEvents; cbn.
    split_and!; try done.
    + unfold pipelineInFlight. cbn. by left.
    + apply not_in_leave.
    + unfold count. destruct (suppressMessages first); cbn; by rewrite String.eqb_refl.
    + unfold count. destruct (suppressMessages first); cbn; by rewrite String.eqb_refl.
    + unfold count. by destruct (suppressMessages first).
Qed.

End IngestionFacts.

Section IngestionExamples.
Import Ingestion.

(** C4 at the two calls of the test: the first [tryToParseSong] on
    [/test/song1.mp3] is in flight when the second one is made. *)
Lemma second_tryToParseSong_is_dropped_witness :
  let c := (run Posix [CallTryToParseSong "/test/song1.mp3" (mkOptions false false)] idle).1 in
  tryToParseSong Posix "/test/song1.mp3" (mkOptions false false) c
  = (Undefined, c, [Ineligible "/test/song1.mp3" isSongInPathsQueue]).
Proof.
  apply (second_tryToParseSong_is_dropped Posix
           [CallTryToParseSong "/test/song1.mp3" (mkOptions false false)]
           "/test/song1.mp3" (mkOptions false false)).
  unfold supervisedInFlight. vm_compute. apply list_elem_of_here.
Defined.

(** C6 at the two tests. A [parseSong] on [/parsequeue/error-cleanup.mp3]
    whose persistence throws leaves the parse queue, and the second
    [parseSong] on the path is admitted. A [tryToParseSong] on
    [/concurrent/cleanup-failure.mp3] whose pipeline throws five times
    leaves both queues, and the second [tryToParseSong] on the path returns
    a promise. *)
Lemma ended_operation_leaves_its_queues_witness :
  let options := mkOptions false false in
  let direct := "/parsequeue/error-cleanup.mp3" in
  let c := (run Posix [CallParseSong direct options; Resume 0 Ready] idle).1 in
  let c' := (resume Posix 0 Failed c).1 in
  let supervised := "/concurrent/cleanup-failure.mp3" in
  let d :=
    (run Posix (CallTryToParseSong supervised options
                :: answer (retries [false; false; false; false])) idle).1 in
  let d' := (resume Posix 0 Failed d).1 in
  (direct ∈ parseQueue c ∧ parseQueue c' = leave (parseQueue c) direct ∧ running c' = [] ∧
   parseSong direct options c'
   = (mkConfig (pathsQueue c') (parseQueue c' ∪ {[direct]})
        (running c' ++ [Pipeline direct options Direct AwaitingMetadata]), [])) ∧
  (supervised ∈ pathsQueue d ∧ supervised ∈ parseQueue d ∧
   pathsQueue d' = leave (pathsQueue d) supervised ∧
   parseQueue d' = leave (parseQueue d) supervised ∧ running d' = [] ∧
   (tryToParseSong Posix supervised options d').1.1 = Promise).
Proof.
  intros options direct c c' supervised d d'. split.
  - destruct (ended_operation_leaves_its_queues Posix
                [CallParseSong direct options; Resume 0 Ready] 0 direct options options
                Direct AwaitingSave Failed false) as [_ Hends].
    destruct (Hends eq_refl eq_refl) as ((Hin & Hleft & _ & Hagain) & Hgone & _).
    split_and!; [exact Hin | exact Hleft | exact Hgone | exact Hagain].
  - destruct (ended_operation_leaves_its_queues Posix
                (CallTryToParseSong supervised options
                 :: answer (retries [false; false; false; false]))
                0 supervised options options (Supervised 5) AwaitingMetadata Failed false)
      as [_ Hends].
    destruct (Hends eq_refl eq_refl)
      as ((Hin & Hleft & _ & _) & Hpaths & Hgone & Hleft' & _ & Hagain).
    split_and!; [exact Hpaths | exact Hin | exact Hleft' | exact Hleft | exact Hgone
                | exact Hagain].
Defined.

(** C3 at the path of the test: after five failed attempts on
    [/test/song11.mp3], the terminal message carries [song11.mp3]. *)
Lemma tryToParseSong_retries_five_times_witness :
  let path := "/test/song11.mp3" in
  let '(returned, c0, e0) := tryToParseSong Posix path (mkOptions false false) idle in
  let '(c, e) :=
    run Posix (answer (retries [false; false; false; false] ++ failedAttempt false ++ []))
      c0 in
  returned = Promise ∧ running c = [] ∧
  count (isAttempt path) (e0 ++ e) = 5%nat ∧
  List.filter isParseFailed (e0 ++ e) = [Message "PARSE_FAILED" "song11.mp3"].
Proof.
  intros path.
  pose proof (tryToParseSong_retries_five_times Posix path (mkOptions false false)) as H.
  destruct (tryToParseSong Posix path (mkOptions false false) idle) as [[returned c0] e0].
  destruct H as (Hreturned & Hfive & _ & _ & Hname).
  specialize (Hfive false false false false false []).
  destruct (run Posix _ c0) as [c e].
  destruct Hfive as (Hover & _ & Hattempts & _ & Hmessage).
  rewrite (Hname "/test" "song11.mp3" EmptyString "/"%char eq_refl eq_refl
             ltac:(discriminate) eq_refl eq_refl) in Hmessage.
  split_and!; [exact Hreturned | exact Hover | exact Hattempts | exact Hmessage].
Defined.

(** C5 at the two calls of the test: the second [parseSong] is made while
    the first one waits for its [saveSong]. *)
Lemma concurrent_parseSong_saves_once_witness :
  let path := "/parsequeue/song1.mp3" in
  let options := mkOptions false false in
  let '(c1, e1) := run Posix (CallParseSong path options :: answer [Ready]) idle in
  let '(c2, e2) := parseSong path options c1 in
  let '(c3, e3) := run Posix (answer [Saved "Test Song"]) c2 in
  pipelineInFlight path c1 ∧
  c2 = c1 ∧ e2 = [Ineligible path isSongInParseQueue] ∧
  running c3 = [] ∧ (path ∉ parseQueue c3) ∧
  count (isSave path) (e1 ++ e2 ++ e3) = 1%nat ∧
  count (isInParseQueueLog path) (e1 ++ e2 ++ e3) = 1%nat ∧
  count (isError path) (e1 ++ e2 ++ e3) = 0%nat.
Proof.
  apply (concurrent_parseSong_saves_once Posix "/parsequeue/song1.mp3"
           (mkOptions false false) (mkOptions false false) "Test Song"
           [Ready] [Saved "Test Song"]).
  - reflexivity.
  - discriminate.
Defined.

End IngestionExamples.

(** ** Listening data *)

Section ListeningFacts.
Import Js Listening.

Ltac listen_run :=
  repeat progress
    (unfold mbind, Js.M_bind, mret, Js.M_ret, mthrow, Js.M_throw,
       Js.try_catch, Js.modify, Listening.emit in *;
     cbn in *).

(** X16. [updateSongListeningData] never throws, and it tells the renderer
    about exactly what it recorded: it emits one data-update event when the
    listen, skip or seek event went into the store, and none when the
    insert rejects, when the data type is unknown or when the value is not
    a number. It records at most one event. *)
Theorem updateSongListeningData_notifies_what_it_recorded :
  ∀ (env : Env) (songId : Z) (dataType : string) (value : Duration.JsValue)
    (t : list Event),
    ∃ added,
      updateSongListeningData env songId dataType value t = (Normal tt, t ++ added) ∧
      length (List.filter isDataUpdate added) = length (List.filter isRecorded added) ∧
      (length (List.filter isRecorded added) <= 1)%nat.
Proof.
  intros env songId dataType value t.
  unfold updateSongListeningData, record, addSongPlayEvent, addSongSkipEvent, addSongSeekEvent.
  destruct value as [| | s | x];
    try (listen_run; eexists; rewrite <- !app_assoc; split; [reflexivity | cbn; lia]).
  destruct (String.eqb dataType "LISTEN"); [destruct (addSongPlayEventThrows env songId)|];
    [| |destruct (String.eqb dataType "SKIP"); [destruct (addSongSkipEventThrows env songId)|];
        [| |destruct (String.eqb dataType "SEEK"); [destruct (addSongSeekEventThrows env songId)|]]];
    listen_run; eexists; rewrite <- !app_assoc; (split; [reflexivity | cbn; lia]).
Qed.

End ListeningFacts.

(** ** The playing queue *)

Section PlayQueueFacts.
Import PlayQueue.

Lemma indexOfFrom_spec (songId : Z) (l : list Z) (i : Z) :
  0 <= i →
  if decide (songId ∈ l)
  then i <= indexOfFrom songId l i ∧ l !! Z.to_nat (indexOfFrom songId l i - i) = Some songId
  else indexOfFrom songId l i = -1.
Proof.
  revert i. induction l as [|id rest IH]; intros i Hi; cbn [indexOfFrom].
  - rewrite decide_False; [done | apply not_elem_of_nil].
  - destruct (Z.eqb_spec id songId) as [->|Hne].
    + rewrite decide_True by by left. rewrite Z.sub_diag. by split.
    + specialize (IH (i + 1) ltac:(lia)).
      destruct (decide (songId ∈ rest)) as [Hin|Hnot].
      * rewrite decide_True by by right. destruct IH as [Hle Hat]. split; [lia|].
        replace (Z.to_nat (indexOfFrom songId rest (i + 1) - i))
          with (S (Z.to_nat (indexOfFrom songId rest (i + 1) - (i + 1)))) by lia.
        exact Hat.
      * rewrite decide_False; [done|]. rewrite not_elem_of_cons. split; [congruence | done].
Qed.

Lemma indexOf_absent (songId : Z) (l : list Z) :
  (indexOf songId l =? -1) = bool_decide (songId ∉ l).
Proof.
  pose proof (indexOfFrom_spec songId l 0 ltac:(lia)) as H. unfold indexOf.
  destruct (decide (songId ∈ l)) as [Hin|Hnot].
  - rewrite bool_decide_eq_false_2 by tauto. apply Z.eqb_neq. lia.
  - rewrite H, bool_decide_eq_true_2; done.
Qed.

Lemma element_indexOf (songId : Z) (l : list Z) :
  songId ∈ l → element l (indexOf songId l) = Some songId.
Proof.
  intros Hin. pose proof (indexOfFrom_spec songId l 0 ltac:(lia)) as H.
  rewrite decide_True in H by done. destruct H as [Hle Hat]. unfold element, indexOf.
  rewrite Z.sub_0_r in Hat. by destruct (Z.ltb_spec (indexOfFrom songId l 0) 0); [lia|].
Qed.

Lemma without_app (songId : Z) (l1 l2 : list Z) :
  without songId (l1 ++ l2) = without songId l1 ++ without songId l2.
Proof. apply List.filter_app. Qed.

Lemma without_twice (songId : Z) (l : list Z) :
  without songId (without songId l) = without songId l.
Proof.
  unfold without. induction l as [|x l IH]; cbn; [done|].
  destruct (x =? songId) eqn:E; cbn; [done|]. by rewrite E, IH.
Qed.

Lemma without_absent (songId : Z) (l : list Z) : songId ∉ without songId l.
Proof.
  unfold without. rewrite list_elem_of_In, filter_In. intros [_ H].
  by rewrite Z.eqb_refl in H.
Qed.

Lemma without_spliceIn (position songId : Z) (l : list Z) :
  without songId (spliceIn position songId l) = without songId l.
Proof.
  unfold spliceIn. cbv zeta. rewrite without_app. cbn. rewrite Z.eqb_refl. cbn.
  fold (without songId (drop (Z.to_nat
    (if position <? 0 then Z.max (Z.of_nat (length l) + position) 0
     else Z.min position (Z.of_nat (length l)))) l)).
  by rewrite <- without_app, take_drop.
Qed.

(** X17. After [updateQueueOnSongPlay], the song is in the queue, whatever
    the queue, the index and the flag were. *)
Theorem updateQueueOnSongPlay_queues_the_song :
  ∀ (queue : Queue) (songId : Z) (playAsCurrentSongIndex : bool),
    songId ∈ songIds (updateQueueOnSongPlay queue songId playAsCurrentSongIndex).
Proof.
  intros queue songId play. unfold updateQueueOnSongPlay.
  destruct (0 <? length (songIds queue))%nat; [|cbn; apply elem_of_app; right; by left].
  rewrite indexOf_absent.
  destruct (decide (songId ∈ songIds queue)) as [Hin|Hnot].
  - rewrite bool_decide_eq_false_2 by tauto. cbn [negb].
    destruct play, (currentSongIndex queue) as [current|]; cbn; try done.
    case_bool_decide; [done|]. unfold spliceIn. cbv zeta.
    apply elem_of_app. right. by left.
  - rewrite bool_decide_eq_true_2 by done. cbn. apply elem_of_app. right. by left.
Qed.

(** X18. [updateQueueOnSongPlay] neither drops, adds nor reorders the other
    songs: without the played song, the queue is the same list after the
    call as before it. *)
Theorem updateQueueOnSongPlay_keeps_the_other_songs :
  ∀ (queue : Queue) (songId : Z) (playAsCurrentSongIndex : bool),
    without songId (songIds (updateQueueOnSongPlay queue songId playAsCurrentSongIndex))
    = without songId (songIds queue).
Proof.
  intros queue songId play. unfold updateQueueOnSongPlay.
  assert (Hpush : without songId (songIds queue ++ [songId]) = without songId (songIds queue)).
  { rewrite without_app. cbn. by rewrite Z.eqb_refl, app_nil_r. }
  destruct (0 <? length (songIds queue))%nat; [|done].
  destruct (negb _); [|done].
  destruct play, (currentSongIndex queue) as [current|]; cbn [songIds]; try done.
  case_bool_decide; [done|]. by rewrite without_spliceIn, without_twice.
Qed.

Lemma NoDup_without (songId : Z) (l : list Z) : NoDup l → NoDup (without songId l).
Proof.
  unfold without. induction 1 as [|x l Hx Hl IH]; cbn; [constructor|].
  destruct (x =? songId); cbn; [done|]. constructor; [|done].
  rewrite list_elem_of_In, filter_In, <- list_elem_of_In. tauto.
Qed.

Lemma NoDup_spliceIn (position songId : Z) (l : list Z) :
  NoDup l → songId ∉ l → NoDup (spliceIn position songId l).
Proof.
  intros Hl Hnot. unfold spliceIn. cbv zeta.
  set (n := Z.to_nat _). rewrite <- Permutation_middle. constructor; by rewrite take_drop.
Qed.

(** X19. A queue that holds no song twice holds no song twice after
    [updateQueueOnSongPlay]. *)
Theorem updateQueueOnSongPlay_keeps_queue_duplicate_free :
  ∀ (queue : Queue) (songId : Z) (playAsCurrentSongIndex : bool),
    NoDup (songIds queue) →
    NoDup (songIds (updateQueueOnSongPlay queue songId playAsCurrentSongIndex)).
Proof.
  intros queue songId play Hq. unfold updateQueueOnSongPlay.
  destruct (0 <? length (songIds queue))%nat eqn:Hlen.
  - rewrite indexOf_absent. case_bool_decide as Hin; cbn [negb].
    + cbn. apply NoDup_app. split_and!; [done | | apply NoDup_singleton].
      intros x Hx Hx'. apply list_elem_of_singleton in Hx' as ->. done.
    + destruct play, (currentSongIndex queue) as [current|]; cbn [songIds]; try done.
      case_bool_decide; [done|].
      apply NoDup_spliceIn; [by apply NoDup_without | apply without_absent].
  - apply Nat.ltb_ge in Hlen. destruct (songIds queue); [|cbn in Hlen; lia].
    cbn. apply NoDup_singleton.
Qed.


(** X19 at a queue of three songs. *)
Lemma updateQueueOnSongPlay_keeps_queue_duplicate_free_witness :
  NoDup (songIds (updateQueueOnSongPlay (mkQueue [7; 8; 9] (Some 0)) 9 true)).
Proof.
  apply (updateQueueOnSongPlay_keeps_queue_duplicate_free (mkQueue [7; 8; 9] (Some 0)) 9 true).
  cbn. repeat constructor; rewrite ?list_elem_of_In; cbn; intuition congruence.
Defined.

Lemma element_spliceIn (position songId : Z) (l : list Z) :
  0 <= position <= Z.of_nat (length l) →
  element (spliceIn position songId l) position = Some songId.
Proof.
  intros Hp. unfold element, spliceIn. cbv zeta.
  destruct (Z.ltb_spec position 0) as [|_]; [lia|].
  rewrite Z.min_l by lia. apply list_lookup_middle. rewrite length_take. lia.
Qed.

(** X20. When the song is in the queue, [currentSongIndex] points at it
    after the call, provided that, when the song is played as the current
    index, the index before the call is at least -1 and leaves room for the
    song next to it: no more than the number of other songs minus one. *)
Theorem updateQueueOnSongPlay_points_at_the_song :
  ∀ (queue : Queue) (songId : Z) (playAsCurrentSongIndex : bool),
    songId ∈ songIds queue →
    (∀ current, playAsCurrentSongIndex = true → currentSongIndex queue = Some current →
       0 <= current + 1 <= Z.of_nat (length (without songId (songIds queue)))) →
    ∃ index,
      currentSongIndex (updateQueueOnSongPlay queue songId playAsCurrentSongIndex) = Some index ∧
      element (songIds (updateQueueOnSongPlay queue songId playAsCurrentSongIndex)) index
        = Some songId.
Proof.
  intros queue songId play Hin Hroom. unfold updateQueueOnSongPlay.
  assert ((0 <? length (songIds queue))%nat = true) as ->.
  { apply Nat.ltb_lt. destruct (songIds queue); [by apply elem_of_nil in Hin | cbn; lia]. }
  rewrite indexOf_absent, bool_decide_eq_false_2 by tauto. cbn [negb].
  destruct play; [|eexists; split; [done | by apply element_indexOf]].
  destruct (currentSongIndex queue) as [current|];
    [|eexists; split; [done | by apply element_indexOf]].
  eexists. split; [done|]. cbn [songIds].
  case_bool_decide; [done|]. apply element_spliceIn. by apply Hroom.
Qed.

(** X20 at a queue of three songs, the first of which is the current one. *)
Lemma updateQueueOnSongPlay_points_at_the_song_witness :
  ∃ index,
    currentSongIndex (updateQueueOnSongPlay (mkQueue [7; 8; 9] (Some 0)) 9 true) = Some index ∧
    element (songIds (updateQueueOnSongPlay (mkQueue [7; 8; 9] (Some 0)) 9 true)) index = Some 9.
Proof.
  apply (updateQueueOnSongPlay_points_at_the_song (mkQueue [7; 8; 9] (Some 0)) 9 true).
  - apply list_elem_of_In. cbn. tauto.
  - intros current _ [= <-]. cbn. lia.
Defined.

Lemma length_without (songId : Z) (l : list Z) :
  NoDup l → songId ∈ l → S (length (without songId l)) = length l.
Proof.
  unfold without. induction 1 as [|x l Hx Hl IH]; intros Hin; [by apply elem_of_nil in Hin|].
  cbn. destruct (Z.eqb_spec x songId) as [->|Hne]; cbn.
  - f_equal. f_equal. clear IH Hl Hin. induction l as [|y l IH]; cbn; [done|].
    apply not_elem_of_cons in Hx as [Hy Hx].
    destruct (Z.eqb_spec y songId) as [->|_]; [done|]. cbn. f_equal. by apply IH.
  - f_equal. apply IH. by apply elem_of_cons in Hin as [->|Hin].
Qed.

(** X21. The edge that X20 excludes. When the last song of a queue without
    duplicates is the current one and a song of the queue is played as the
    current index, the song is moved to the end of the queue and
    [currentSongIndex] becomes the length of the queue: it points past the
    last song. *)
Theorem replay_while_last_song_is_current_leaves_index_past_end :
  ∀ (queue : Queue) (songId : Z),
    NoDup (songIds queue) →
    songId ∈ songIds queue →
    currentSongIndex queue = Some (Z.of_nat (length (songIds queue)) - 1) →
    let queue' := updateQueueOnSongPlay queue songId true in
    songIds queue' = without songId (songIds queue) ++ [songId] ∧
    length (songIds queue') = length (songIds queue) ∧
    currentSongIndex queue' = Some (Z.of_nat (length (songIds queue'))) ∧
    element (songIds queue') (Z.of_nat (length (songIds queue'))) = None.
Proof.
  intros queue songId Hq Hin Hlast queue'.
  pose proof (length_without songId _ Hq Hin) as Hlen.
  assert (Hids : songIds queue' = without songId (songIds queue) ++ [songId]).
  { subst queue'. unfold updateQueueOnSongPlay.
    assert ((0 <? length (songIds queue))%nat = true) as -> by (apply Nat.ltb_lt; lia).
    rewrite indexOf_absent, bool_decide_eq_false_2 by tauto. cbn [negb]. rewrite Hlast.
    cbn [songIds]. rewrite bool_decide_eq_false_2.
    - unfold spliceIn. cbv zeta.
      destruct (Z.ltb_spec (Z.of_nat (length (songIds queue)) - 1 + 1) 0) as [|_]; [lia|].
      rewrite Z.min_r by lia. rewrite Nat2Z.id.
      by rewrite firstn_all, drop_all.
    - unfold element.
      destruct (Z.ltb_spec (Z.of_nat (length (songIds queue)) - 1 + 1) 0) as [|_]; [done|].
      rewrite lookup_ge_None_2; [done | lia]. }
  assert (Hindex : currentSongIndex queue' = Some (Z.of_nat (length (songIds queue)))).
  { subst queue'. unfold updateQueueOnSongPlay.
    assert ((0 <? length (songIds queue))%nat = true) as -> by (apply Nat.ltb_lt; lia).
    rewrite indexOf_absent, bool_decide_eq_false_2 by tauto. cbn [negb]. rewrite Hlast.
    cbn [currentSongIndex]. f_equal. lia. }
  assert (Hsame : length (songIds queue') = length (songIds queue)).
  { rewrite Hids, length_app. cbn. lia. }
  split_and!; [done | done | by rewrite Hsame |].
  unfold element.
  destruct (Z.ltb_spec (Z.of_nat (length (songIds queue'))) 0) as [|_]; [done|].
  rewrite lookup_ge_None_2; [done | lia].
Qed.

(** X21 at a queue of three songs, the last of which is the current one. *)
Lemma replay_while_last_song_is_current_leaves_index_past_end_witness :
  let queue' := updateQueueOnSongPlay (mkQueue [7; 8; 9] (Some 2)) 7 true in
  songIds queue' = without 7 [7; 8; 9] ++ [7] ∧
  length (songIds queue') = length [7; 8; 9] ∧
  currentSongIndex queue' = Some (Z.of_nat (length (songIds queue'))) ∧
  element (songIds queue') (Z.of_nat (length (songIds queue'))) = None.
Proof.
  apply (replay_while_last_song_is_current_leaves_index_past_end (mkQueue [7; 8; 9] (Some 2)) 7).
  - cbn. repeat constructor; rewrite ?list_elem_of_In; cbn; intuition congruence.
  - apply list_elem_of_In. cbn. tauto.
  - reflexivity.
Defined.

End PlayQueueFacts.

(** ** Artist names and folder tiles *)

Section ArtistNamesFacts.
Import JsText ArtistNames.

Lemma split_no_separator (isSep : Z -> bool) (s : JsString) :
  Forall (Forall (fun c => isSep c = false)) (split isSep s).
Proof.
  induction s as [|c rest IH]; cbn; [by repeat constructor|].
  destruct (isSep c) eqn:Hc; [by constructor|].
  destruct (split isSep rest) as [|piece pieces]; [by repeat constructor|].
  inversion IH; subst. by repeat constructor.
Qed.

Lemma trimStart_suffix (s : JsString) : ∃ stripped, s = stripped ++ trimStart s.
Proof.
  induction s as [|c rest [stripped IH]]; cbn; [by exists []|].
  destruct (isWhiteSpace c); [|by exists []].
  exists (c :: stripped). cbn. by rewrite <- IH.
Qed.

Lemma trimEnd_prefix (s : JsString) : ∃ stripped, s = trimEnd s ++ stripped.
Proof.
  induction s as [|c rest [stripped IH]]; cbn; [by exists []|].
  destruct (trimEnd rest) as [|k kept] eqn:E.
  - destruct (isWhiteSpace c); [by exists (c :: rest)|]. exists rest. done.
  - exists stripped. cbn. by rewrite IH at 1.
Qed.

Lemma trimStart_head (s : JsString) (c : Z) :
  head (trimStart s) = Some c → isWhiteSpace c = false.
Proof.
  induction s as [|d rest IH]; cbn; [done|].
  destruct (isWhiteSpace d) eqn:Hd; [done|]. cbn. by intros [= <-].
Qed.

Lemma trimEnd_head (s : JsString) (c : Z) :
  head (trimEnd s) = Some c → head s = Some c.
Proof.
  destruct s as [|d rest]; cbn; [done|].
  destruct (trimEnd rest); [by destruct (isWhiteSpace d)|done].
Qed.

Lemma trimEnd_last (s : JsString) (c : Z) :
  last (trimEnd s) = Some c → isWhiteSpace c = false.
Proof.
  induction s as [|d rest IH]; cbn; [done|].
  destruct (trimEnd rest) as [|k kept] eqn:E.
  - destruct (isWhiteSpace d) eqn:Hd; [done|]. cbn. by intros [= <-].
  - change (last (d :: k :: kept)) with (last (k :: kept)). exact IH.
Qed.

Lemma trim_clean (s : JsString) :
  Forall (fun c => isSeparator c = false) s → trim s ≠ [] → clean (trim s).
Proof.
  intros Hs Hne. unfold clean, trim in *. split_and!; [done | | |].
  - destruct (trimStart_suffix s) as [s1 H1].
    destruct (trimEnd_prefix (trimStart s)) as [s2 H2].
    rewrite H1, H2 in Hs. apply Forall_app in Hs as [_ Hs]. by apply Forall_app in Hs as [Hs _].
  - intros c Hc. apply trimEnd_head in Hc. by apply trimStart_head in Hc.
  - apply trimEnd_last.
Qed.

(** X22. Every name that [getArtistNamesFromSong] returns is not empty,
    holds neither a comma nor an ampersand, and neither starts nor ends
    with white space. *)
Theorem getArtistNamesFromSong_names_are_clean :
  ∀ artists : option JsString, Forall clean (getArtistNamesFromSong artists).
Proof.
  intros [[|c s]|]; cbn [getArtistNamesFromSong]; try constructor.
  pose proof (split_no_separator isSeparator (c :: s)) as Hpieces.
  induction (split isSeparator (c :: s)) as [|piece pieces IH]; [constructor|].
  inversion Hpieces; subst. cbn.
  destruct (trim piece) as [|d t] eqn:E; cbn; [by apply IH|].
  constructor; [|by apply IH]. rewrite <- E. apply trim_clean; [done | by rewrite E].
Qed.


Lemma split_at_separator (isSep : Z -> bool) (piece rest : JsString) (c : Z) :
  Forall (fun c => isSep c = false) piece → isSep c = true →
  split isSep (piece ++ c :: rest) = piece :: split isSep rest.
Proof.
  intros Hpiece Hc. induction Hpiece as [|d piece Hd _ IH]; cbn; [by rewrite Hc|].
  by rewrite Hd, IH.
Qed.

Lemma split_without_separator (isSep : Z -> bool) (piece : JsString) :
  Forall (fun c => isSep c = false) piece → split isSep piece = [piece].
Proof.
  induction 1 as [|d piece Hd _ IH]; cbn; [done|]. by rewrite Hd, IH.
Qed.

Lemma whiteSpace_no_separator (c : Z) : isWhiteSpace c = true → isSeparator c = false.
Proof.
  intros Hc. destruct (isSeparator c) eqn:Hs; [|done].
  unfold isSeparator in Hs. apply orb_true_iff in Hs as [Hs|Hs];
    apply Z.eqb_eq in Hs as ->; discriminate.
Qed.

Lemma trimStart_padded (before name : JsString) :
  Forall (fun c => isWhiteSpace c = true) before →
  (∀ c, head name = Some c → isWhiteSpace c = false) →
  trimStart (before ++ name) = name.
Proof.
  intros Hbefore Hhead. induction Hbefore as [|d before Hd _ IH]; cbn; [|by rewrite Hd].
  destruct name as [|c name]; [done|]. cbn. by rewrite (Hhead c).
Qed.

Lemma trimEnd_white (after : JsString) :
  Forall (fun c => isWhiteSpace c = true) after → trimEnd after = [].
Proof. induction 1 as [|d after Hd _ IH]; cbn; [done|]. by rewrite IH, Hd. Qed.

Lemma trimEnd_padded (name after : JsString) :
  Forall (fun c => isWhiteSpace c = true) after →
  name ≠ [] →
  (∀ c, last name = Some c → isWhiteSpace c = false) →
  trimEnd (name ++ after) = name.
Proof.
  intros Hafter Hne Hlast. induction name as [|c name IH]; [done|].
  cbn. destruct name as [|d name].
  - cbn. rewrite (trimEnd_white _ Hafter). by rewrite (Hlast c).
  - rewrite IH; [done | done |]. intros e He. by apply Hlast.
Qed.

Lemma trim_padded (before name after : JsString) :
  Forall (fun c => isWhiteSpace c = true) before →
  Forall (fun c => isWhiteSpace c = true) after →
  clean name →
  trim (before ++ name ++ after) = name.
Proof.
  intros Hbefore Hafter (Hne & _ & Hhead & Hlast). unfold trim.
  rewrite trimStart_padded; [by apply trimEnd_padded | done |].
  intros c. destruct name; [done|]. cbn. apply Hhead.
Qed.

Lemma names_of_all (s : JsString) :
  getArtistNamesFromSong (Some s)
  = List.filter (fun a => (0 <? length a)%nat) (map trim (split isSeparator s)).
Proof. by destruct s. Qed.

Lemma join_padded (before after : JsString) (c : Z) (names : list JsString)
    (name padding : JsString) :
  Forall (fun c => isWhiteSpace c = true) before →
  Forall (fun c => isWhiteSpace c = true) after →
  isSeparator c = true →
  Forall (fun c => isWhiteSpace c = true) padding →
  clean name → Forall clean names →
  List.filter (fun a => (0 <? length a)%nat)
    (map trim (split isSeparator (padding ++ join (before ++ c :: after) (name :: names))))
  = name :: names.
Proof.
  intros Hbefore Hafter Hc. revert name padding.
  induction names as [|next names IH]; intros name padding Hpadding Hname Hnames.
  - cbn [join]. rewrite split_without_separator.
    + cbn. rewrite <- (app_nil_r (padding ++ name)), <- app_assoc.
      rewrite trim_padded by done. destruct Hname as [Hne _]. by destruct name.
    + apply Forall_app. split; [|apply Hname].
      eapply Forall_impl; [exact Hpadding | apply whiteSpace_no_separator].
  - inversion Hnames as [|? ? Hnext Hrest]; subst.
    change (join (before ++ c :: after) (name :: next :: names))
      with (name ++ (before ++ c :: after) ++ join (before ++ c :: after) (next :: names)).
    replace (padding ++ name ++ (before ++ c :: after) ++ join (before ++ c :: after) (next :: names))
      with ((padding ++ name ++ before) ++ c :: (after ++ join (before ++ c :: after) (next :: names)))
      by (by rewrite <- !app_assoc).
    rewrite split_at_separator; [| |done].
    + cbn [map List.filter]. rewrite trim_padded by done.
      rewrite (IH next after Hafter Hnext Hrest).
      destruct Hname as [Hne _]. by destruct name.
    + rewrite !Forall_app. split_and!; [| apply Hname |];
        (eapply Forall_impl; [eassumption | apply whiteSpace_no_separator]).
Qed.

(** X23. [getArtistNamesFromSong] undoes [join]: names that are not empty,
    free of separators and trimmed, joined with a comma or an ampersand
    that any white space may surround, come back as they were, in order. *)
Theorem getArtistNamesFromSong_splits_what_join_joined :
  ∀ (before after : JsString) (c : Z) (names : list JsString),
    Forall (fun c => isWhiteSpace c = true) before →
    Forall (fun c => isWhiteSpace c = true) after →
    isSeparator c = true →
    Forall clean names →
    getArtistNamesFromSong (Some (join (before ++ c :: after) names)) = names.
Proof.
  intros before after c [|name names] Hbefore Hafter Hc Hnames; [done|].
  inversion Hnames; subst. rewrite names_of_all.
  by apply (join_padded before after c names name []).
Qed.

(** X23 at three names joined with an ampersand between two spaces. *)
Lemma getArtistNamesFromSong_splits_what_join_joined_witness :
  getArtistNamesFromSong (Some (join ([32] ++ 38 :: [32]) [[65; 67]; [68; 32; 67]; [66]]))
  = [[65; 67]; [68; 32; 67]; [66]].
Proof.
  apply (getArtistNamesFromSong_splits_what_join_joined [32] [32] 38
           [[65; 67]; [68; 32; 67]; [66]]).
  - by repeat constructor.
  - by repeat constructor.
  - reflexivity.
  - repeat constructor; try discriminate; by intros c [= <-].
Defined.

End ArtistNamesFacts.

Section FolderTileFacts.
Import JsText FolderTile.

(** The pieces of a path: those that a backslash ends, and the last one. *)
Lemma split_backslash (s : JsString) :
  ∃ init lastPiece,
    split isBackslash s = init ++ [lastPiece] ∧
    Forall (fun c => isBackslash c = false) lastPiece ∧
    s = flat_map (fun piece => piece ++ [92]) init ++ lastPiece ∧
    (init = [] ↔ existsb isBackslash s = false).
Proof.
  induction s as [|c rest (init & lastPiece & Hsplit & Hlast & Hrest & Hnone)]; cbn.
  - by exists [], [].
  - destruct (isBackslash c) eqn:Hc.
    + apply Z.eqb_eq in Hc as ->. exists ([] :: init), lastPiece. rewrite Hsplit.
      split_and!; [done | done | cbn; by rewrite <- Hrest | done].
    + rewrite Hsplit. destruct init as [|piece init]; cbn.
      * exists [], (c :: lastPiece). cbn in Hrest.
        split_and!; [done | by constructor | by rewrite Hrest | tauto].
      * exists ((c :: piece) :: init), lastPiece. cbn in Hrest.
        split_and!; [done | done | cbn; by rewrite <- Hrest |].
        split; [done|]. intros H. by apply Hnone in H.
Qed.

Lemma flat_map_join (init : list JsString) :
  init ≠ [] → flat_map (fun piece => piece ++ [92]) init = join [92] init ++ [92].
Proof.
  induction init as [|piece init IH]; [done|]. intros _.
  destruct init as [|next init]; [cbn; by rewrite app_nil_r|].
  change (flat_map (fun piece => piece ++ [92]) (piece :: next :: init))
    with ((piece ++ [92]) ++ flat_map (fun piece => piece ++ [92]) (next :: init)).
  rewrite IH by done. cbn [join]. by rewrite <- !app_assoc.
Qed.

(** X24. For a folder path that is not empty and does not end with a
    backslash, the folder tile shows the part after the last backslash as
    the name, which is not empty and holds no backslash; the parent
    directory, a backslash and the name make up the path again (the name
    alone when the path holds no backslash). *)
Theorem folder_name_and_parent_recompose_the_path :
  ∀ folderPath : JsString,
    folderPath ≠ [] →
    last folderPath ≠ Some 92 →
    ∃ folderName prevDir,
      folderNameAndPrevDir folderPath = (Some folderName, Some prevDir) ∧
      folderName ≠ [] ∧
      Forall (fun c => isBackslash c = false) folderName ∧
      (if existsb isBackslash folderPath
       then folderPath = prevDir ++ 92 :: folderName
       else folderPath = folderName ∧ prevDir = []).
Proof.
  intros folderPath Hne Hend.
  destruct (split_backslash folderPath) as (init & lastPiece & Hsplit & Hlast & Hpath & Hnone).
  assert (HlastPiece : lastPiece ≠ []).
  { intros ->. rewrite app_nil_r in Hpath. destruct init as [|piece init]; [done|].
    rewrite flat_map_join in Hpath by done. apply Hend. rewrite Hpath. apply last_snoc. }
  unfold folderNameAndPrevDir, pop. destruct folderPath as [|c0 rest0] eqn:Hfolder; [done|].
  rewrite <- Hfolder in *. rewrite Hsplit, last_snoc, removelast_last.
  destruct lastPiece as [|c piece]; [done|].
  exists (c :: piece), (join [92] init). split_and!; [done | done | done |].
  destruct init as [|first init].
  - rewrite (proj1 Hnone eq_refl). by split.
  - destruct (existsb isBackslash folderPath); [|by destruct Hnone as [_ H]; specialize (H eq_refl)].
    rewrite Hpath at 1. rewrite flat_map_join by done. by rewrite <- app_assoc.
Qed.

(** X24 at a path of three pieces. *)
Lemma folder_name_and_parent_recompose_the_path_witness :
  ∃ folderName prevDir,
    folderNameAndPrevDir [67; 58; 92; 77; 92; 65] = (Some folderName, Some prevDir) ∧
    folderName ≠ [] ∧
    Forall (fun c => isBackslash c = false) folderName ∧
    (if existsb isBackslash [67; 58; 92; 77; 92; 65]
     then [67; 58; 92; 77; 92; 65] = prevDir ++ 92 :: folderName
     else [67; 58; 92; 77; 92; 65] = folderName ∧ prevDir = []).
Proof.
  apply (folder_name_and_parent_recompose_the_path [67; 58; 92; 77; 92; 65]); discriminate.
Defined.


(** X25. For a folder path that ends with a backslash, [path.pop()] is the
    empty string, so the folder tile shows the whole path as the name; the
    parent directory is the path without its last backslash. *)
Theorem folder_path_ending_in_backslash_is_its_own_name :
  ∀ folderPath : JsString,
    last folderPath = Some 92 →
    ∃ prevDir,
      folderNameAndPrevDir folderPath = (Some folderPath, Some prevDir) ∧
      folderPath = prevDir ++ [92].
Proof.
  intros folderPath Hend.
  destruct (split_backslash folderPath) as (init & lastPiece & Hsplit & Hlast & Hpath & _).
  assert (lastPiece = []) as ->.
  { destruct lastPiece as [|c piece] using rev_ind; [done|].
    rewrite Hpath, app_assoc, last_snoc in Hend. injection Hend as ->.
    apply Forall_app in Hlast as [_ Hlast]. by inversion Hlast. }
  rewrite app_nil_r in Hpath.
  destruct init as [|piece init]; [by subst|].
  rewrite flat_map_join in Hpath by done.
  exists (join [92] (piece :: init)). split; [|done].
  unfold folderNameAndPrevDir, pop. destruct folderPath as [|c0 rest0] eqn:Hfolder; [done|].
  rewrite <- Hfolder in *. by rewrite Hsplit, last_snoc, removelast_last.
Qed.

(** X25 at a path with a trailing backslash. *)
Lemma folder_path_ending_in_backslash_is_its_own_name_witness :
  ∃ prevDir,
    folderNameAndPrevDir [67; 58; 92; 77; 92] = (Some [67; 58; 92; 77; 92], Some prevDir) ∧
    [67; 58; 92; 77; 92] = prevDir ++ [92].
Proof.
  apply (folder_path_ending_in_backslash_is_its_own_name [67; 58; 92; 77; 92]). reflexivity.
Defined.

End FolderTileFacts.

(** ** Playlists, favorites and migrations *)

Section LibraryFacts.
Import Js Library.

Ltac lib_run :=
  repeat progress
    (unfold mbind, Js.M_bind, mret, Js.M_ret, mthrow, Js.M_throw,
       Js.try_catch, Js.modify, Library.emit, Library.transaction in *;
     cbn in *).

Lemma sortSongIds_filter (playlist : Playlist) (songIds addedIds existingIds : list Z) :
  sortSongIds playlist songIds addedIds existingIds
  = (addedIds ++ List.filter
       (fun songId => negb (existsb (fun song => song =? songId) (playlistSongs playlist))) songIds,
     existingIds ++ List.filter
       (fun songId => existsb (fun song => song =? songId) (playlistSongs playlist)) songIds).
Proof.
  revert addedIds existingIds. induction songIds as [|songId rest IH]; intros addedIds existingIds.
  - cbn. by rewrite !app_nil_r.
  - cbn [sortSongIds List.filter].
    destruct (existsb _ (playlistSongs playlist)); cbn [negb]; rewrite IH, <- app_assoc; done.
Qed.

(** X26. [addSongsToPlaylist] links exactly the requested songs that the
    playlist does not hold yet, in the order of the request and as often as
    they are requested, in one insert, and reports their number in one
    message. When the playlist is not found, or a query rejects, it throws
    and neither links a song nor sends a message. *)
Theorem addSongsToPlaylist_links_the_missing_songs :
  ∀ (env : Env) (playlist : Z) (songIds : list Z) (t : list Event),
    ∃ result added,
      addSongsToPlaylist env playlist songIds t = (result, t ++ added) ∧
      match getPlaylistById env playlist with
      | Some (Some found) =>
          let missing :=
            List.filter
              (fun songId => negb (existsb (fun song => song =? songId) (playlistSongs found)))
              songIds in
          if linkSongsWithPlaylistThrows env (playlistId found)
          then result = Thrown "insert failed" ∧ List.filter isLinkOrMessage added = []
          else
            result = Normal tt ∧
            List.filter isLinkOrMessage added =
              [SongsLinked missing (playlistId found);
               MessageSent "ADDED_SONGS_TO_PLAYLIST" (length missing) (playlistName found)]
      | Some None =>
          result = Thrown "Request failed because a playlist cannot be found." ∧
          List.filter isLinkOrMessage added = []
      | None => result = Thrown "select failed" ∧ List.filter isLinkOrMessage added = []
      end.
Proof.
  intros env playlist songIds t. unfold addSongsToPlaylist, linkSongsWithPlaylist.
  destruct (getPlaylistById env playlist) as [[found|]|].
  - rewrite sortSongIds_filter. cbn [app].
    destruct (linkSongsWithPlaylistThrows env (playlistId found)); lib_run;
      eexists _, _; rewrite <- ?app_assoc; (split; [reflexivity | done]).
  - lib_run. eexists _, _. rewrite <- ?app_assoc. split; [reflexivity | done].
  - lib_run. eexists _, _. split; [reflexivity | done].
Qed.


(** X27. When [isLikeSong] is given, [toggleLikeSongs] flips the songs it
    finds, whichever value the flag has: the favorites are set to not
    favorite and reported as dislikes, the others are set to favorite and
    reported as likes, and the [songs/likes] event names every song found
    once. *)
Theorem toggleLikeSongs_flips_whatever_the_flag_says :
  ∀ (env : Env) (songIds : list Z) (isLikeSong : bool) (t : list Event)
    (songStatuses : list (Z * bool)),
    getSongFavoriteStatuses env songIds = Some songStatuses →
    (∀ ids, updateSongFavoriteStatusesThrows env ids = false) →
    let liked := List.filter (fun status => snd status) songStatuses in
    let notLiked := List.filter (fun status => negb (snd status)) songStatuses in
    ∃ added,
      toggleLikeSongs env songIds (Some isLikeSong) t
        = (Normal (mkToggled (map fst notLiked) (map fst liked)), t ++ added) ∧
      List.filter isFavoritesUpdated added = flipped liked false ++ flipped notLiked true ∧
      List.filter isDataUpdate added
        = [DataUpdate "songs/likes" (map fst notLiked ++ map fst liked)] ∧
      map fst notLiked ++ map fst liked ≡ₚ map fst songStatuses.
Proof.
  intros env songIds isLikeSong t songStatuses Hfound Hupdates liked notLiked.
  assert (Hall : map fst notLiked ++ map fst liked ≡ₚ map fst songStatuses).
  { subst liked notLiked. rewrite <- map_app. apply Permutation_map.
    rewrite Permutation_app_comm.
    clear. induction songStatuses as [|[id fav] rest IH]; cbn; [done|].
    destruct fav; cbn; [by f_equiv|]. rewrite <- Permutation_middle. by f_equiv. }
  unfold toggleLikeSongs, updateSongFavoriteStatuses, flipped. rewrite Hfound.
  fold liked notLiked. clearbody liked notLiked.
  destruct liked as [|status1 liked], notLiked as [|status2 notLiked];
    lib_run; rewrite ?Hupdates; lib_run;
    eexists; rewrite <- ?app_assoc; (split_and!; [reflexivity | done | done | done]).
Qed.

(** X27 at two favorites and one other song. *)
Lemma toggleLikeSongs_flips_whatever_the_flag_says_witness :
  let env :=
    mkEnv (fun _ => Some None) (fun _ => false)
      (fun _ => Some [(1, true); (2, false); (3, true)]) (fun _ => false) in
  ∃ added,
    toggleLikeSongs env [1; 2; 3] (Some true) []
      = (Normal (mkToggled [2] [1; 3]), [] ++ added) ∧
    List.filter isFavoritesUpdated added
      = flipped [(1, true); (3, true)] false ++ flipped [(2, false)] true ∧
    List.filter isDataUpdate added = [DataUpdate "songs/likes" ([2] ++ [1; 3])] ∧
    [2] ++ [1; 3] ≡ₚ [1; 2; 3].
Proof.
  intros env.
  apply (toggleLikeSongs_flips_whatever_the_flag_says env [1; 2; 3] true []
           [(1, true); (2, false); (3, true)]); reflexivity.
Defined.

End LibraryFacts.

Section MigrationsFacts.
Import Migrations.
Context {Num : Type} (Number : string -> Num).

Lemma migrateId_number (id : StoredId) : isIdNumber (migrateId Number id) = true.
Proof. by destruct id. Qed.

Lemma migrateId_twice (id : StoredId) :
  migrateId Number (migrateId Number id) = migrateId Number id.
Proof. by destruct id. Qed.

(** X28. After the migration to 4.0.0-alpha.3 no song id of the queue is a
    string, the id of the current song is a string only if it is the empty
    string, and migrating again changes nothing. *)
Theorem migrate_4_0_0_alpha_3_leaves_no_string_id :
  ∀ storage : Storage,
    let migrated := migrate_4_0_0_alpha_3 Number storage in
    Forall (fun id => isIdNumber id = true) (default [] (queueSongIds migrated)) ∧
    (∀ s, currentSongId migrated = Some (IdString s) → s = "") ∧
    migrate_4_0_0_alpha_3 Number migrated = migrated.
Proof.
  intros [songIds current] migrated. subst migrated. split_and!.
  - destruct songIds as [songIds|]; cbn; [|constructor].
    induction songIds as [|id rest IH]; cbn; constructor; [apply migrateId_number | done].
  - intros s. cbn. destruct current as [[s'|n]|]; [|done..].
    destruct (String.eqb_spec s' "") as [->|Hs]; cbn; congruence.
  - unfold migrate_4_0_0_alpha_3. cbn. f_equal.
    + destruct songIds as [songIds|]; [|done]. f_equal.
      induction songIds as [|id rest IH]; cbn; [done|]. by rewrite migrateId_twice, IH.
    + destruct current as [[s'|n]|]; [|done..].
      destruct (String.eqb_spec s' "") as [->|Hs]; cbn; [done|].
      done.
Qed.

End MigrationsFacts.
